(** * goa design package: definition graph, path composition, response merge,
      canonical media type identifiers and finalization (design/api.go).

    Go strings are byte strings; they are modelled by [string] (a list of
    8-bit [ascii] characters).  Go maps are modelled by stdpp's [gmap].
    Pointers to structures owned by exactly one parent (a route by its
    action, an action by its resource) are modelled by containment; the
    late-bound references by name ([ParentName], [CanonicalActionName])
    are kept as names and resolved against the root on every access, as
    the source does. *)

From Stdlib Require Import Ascii String ZArith Lia DecimalString.
From stdpp Require Import gmap strings list fin_maps sorting.

Open Scope string_scope.
Open Scope list_scope.
Open Scope nat_scope.

(** ** Outcome of code that can panic *)

(** A Go function either returns or panics.  [Panic] stands for a run-time
    panic (assignment to an entry of a nil map, use of a nil pointer).
    The recursion along parent resources is not structural: the functions
    that follow it take a bound on its depth and answer [OutOfFuel] when
    the bound is reached. *)
Inductive result (A : Type) : Type :=
| Ok (a : A)
| Panic
| OutOfFuel.
Arguments Ok {A} a.
Arguments Panic {A}.
Arguments OutOfFuel {A}.

Definition rbind {A B : Type} (m : result A) (f : A → result B) : result B :=
  match m with
  | Ok a => f a
  | Panic => Panic
  | OutOfFuel => OutOfFuel
  end.

Notation "x ←r m ;; k" := (rbind m (fun x => k))
  (at level 100, m at next level, right associativity).

(** ** Visitors *)

(** A Go iterator function [func(x *X) error] is run for its effects and
    for the error it returns.  A pointer into a map is modelled by the
    key [k] of the entry it points to; the iterator reads and updates
    the entry in the state [S].  It returns the new state and the error
    ([None] is [nil]), or panics. *)
Definition Visitor (K S E : Type) : Type := K → S → result (S * option E).

(** The loop [for _, k := range ks { if err := it(k); err != nil { return
    err } }; return nil]. *)
Fixpoint iterate {K S E : Type} (it : Visitor K S E) (ks : list K) (s : S)
  : result (S * option E) :=
  match ks with
  | [] => Ok (s, None)
  | k :: ks' =>
    x ←r it k s ;;
    match x.2 with
    | Some e => Ok (x.1, Some e)
    | None => iterate it ks' x.1
    end
  end.

(** The keys of a Go map in the order [for n := range m] yields them.  The
    language leaves this order unspecified; one order is fixed here and
    the results below do not depend on it. *)
Definition range_keys {V : Type} (m : gmap string V) : list string :=
  (map_to_list m).*1.

(** ** Attribute definitions *)

Module Att.

(** Modelled from the spec: the kinds of primitive data types
    (design/types.go is not part of the sources at hand). *)
Inductive Kind : Type :=
| BooleanKind | IntegerKind | NumberKind | StringKind | AnyKind.

(** Modelled from the spec: [AttributeDefinition] is "a typed field node,
    possibly an object with named children, carrying a NonZeroAttributes
    marker set"; [Object] is a Go map from child names to attribute
    definitions.  Only the fields that api.go reads or writes are kept. *)
Inductive DataType : Type :=
| Primitive (k : Kind)
| Object (o : gmap string AttributeDefinition)
with AttributeDefinition : Type :=
| mkAttribute (ty : DataType) (nonzero : gmap string bool).

Definition Type_ (a : AttributeDefinition) : DataType :=
  match a with mkAttribute ty _ => ty end.

Definition NonZeroAttributes (a : AttributeDefinition) : gmap string bool :=
  match a with mkAttribute _ nz => nz end.

(** The predeclared data type [String] of the design package. *)
Definition String_ : DataType := Primitive StringKind.

(** Modelled from the spec: [ToObject] returns the underlying object of a
    data type, and a nil map when the type is not an object. *)
Definition ToObject (t : DataType) : option (gmap string AttributeDefinition) :=
  match t with
  | Object o => Some o
  | Primitive _ => None
  end.

(** [len] of a possibly nil Go map. *)
Definition len_obj (o : option (gmap string AttributeDefinition)) : nat :=
  match o with
  | Some m => size m
  | None => 0
  end.

(** [for n := range o] together with [o[n]] on a possibly nil map. *)
Definition obj_lookup (o : option (gmap string AttributeDefinition)) (n : string)
  : option AttributeDefinition :=
  match o with
  | Some m => m !! n
  | None => None
  end.

(** Modelled from the spec: [DupAtt] returns a (deep) duplicate of an
    attribute.  Values are immutable here, so the copy is the value; what
    matters is that later updates of the copy leave the original alone,
    which state passing gives. *)
Definition DupAtt (a : AttributeDefinition) : AttributeDefinition := a.

(** The names of the children of an attribute (none when its type is not
    an object). *)
Definition names (a : AttributeDefinition) : gset string :=
  match ToObject (Type_ a) with
  | Some o => dom o
  | None => ∅
  end.

Definition opt_names (a : option AttributeDefinition) : gset string :=
  match a with
  | Some a => names a
  | None => ∅
  end.

End Att.

Import Att.

(** ** Response definitions *)

Module Response.

(** [ResponseDefinition] (api.go, lines 208-230).  [Parent] and [Metadata],
    which none of the functions below read, are left out. *)
Record ResponseDefinition : Type := mkResponse {
  Name : string;
  Status : Z;
  Description : string;
  Type_ : option DataType;
  MediaType : string;
  Headers : option AttributeDefinition;
  Standard : bool;
  Global : bool
}.

(** The loop [for n, h := range otherHeaders { if _, ok := headers[n]; !ok
    { headers[n] = h } }] of [Merge]. *)
Definition merge_headers (headers otherHeaders : gmap string AttributeDefinition)
  : gmap string AttributeDefinition :=
  map_fold (fun n h acc =>
              match acc !! n with
              | Some _ => acc
              | None => <[n := h]> acc
              end) headers otherHeaders.

(** [ResponseDefinition.Merge] (api.go, lines 944-975).  The receiver is
    updated in place in the source; the updated receiver is returned here.
    A nil [other] is [None]. *)
Definition Merge (r : ResponseDefinition) (other : option ResponseDefinition)
  : result ResponseDefinition :=
  match other with
  | None => Ok r
  | Some other =>
    let name := if decide (Name r = "") then Name other else Name r in
    let status := if decide (Status r = 0%Z) then Status other else Status r in
    let description :=
      if decide (Description r = "") then Description other else Description r in
    let mediaType :=
      if decide (MediaType r = "") then MediaType other else MediaType r in
    let r1 := mkResponse name status description (Type_ r) mediaType
                         (Headers r) (Standard r) (Global r) in
    match Headers other with
    | None => Ok r1
    | Some oh =>
      let otherHeaders := ToObject (Att.Type_ oh) in
      if decide (0 < len_obj otherHeaders) then
        let rh := match Headers r with
                  | None => mkAttribute (Object ∅) ∅
                  | Some h => h
                  end in
        match ToObject (Att.Type_ rh) with
        | Some headers =>
          Ok (mkResponse name status description (Type_ r) mediaType
                (Some (mkAttribute
                         (Object (merge_headers headers (default ∅ otherHeaders)))
                         (NonZeroAttributes rh)))
                (Standard r) (Global r))
        | None =>
          (* [headers] is a nil map: every lookup misses and the first
             assignment [headers[n] = h] panics *)
          Panic
        end
      else Ok r1
    end
  end.

(** The header of name [n] of a response, if any. *)
Definition header (r : ResponseDefinition) (n : string) : option AttributeDefinition :=
  match Headers r with
  | Some h => obj_lookup (ToObject (Att.Type_ h)) n
  | None => None
  end.

(** A response whose header attribute, when present, is an object: what
    the design language builds. *)
Definition headers_are_object (r : ResponseDefinition) : Prop :=
  match Headers r with
  | Some h => is_Some (ToObject (Att.Type_ h))
  | None => True
  end.

(** An all-empty response: no name, status 0, no description, no media
    type, no header. *)
Definition all_empty (o : ResponseDefinition) : Prop :=
  Name o = "" ∧ Status o = 0%Z ∧ Description o = "" ∧ MediaType o = "" ∧
  ∀ n, header o n = None.

End Response.

(** ** UTF-8 decoding (Go package unicode/utf8) *)

Module Utf8.

Definition byte (c : ascii) : N := N_of_ascii c.

Definition in_range (lo hi : N) (c : ascii) : bool :=
  ((lo <=? byte c) && (byte c <=? hi))%N.

(** [utf8.RuneError], the replacement character U+FFFD. *)
Definition RuneError : N := 65533%N.

Definition cont (c : ascii) : bool := in_range 128 191 c.

(** Payload bits of a continuation byte. *)
Definition low6 (c : ascii) : N := N.land (byte c) 63.

(** [utf8.DecodeRuneInString]: the first rune of [s] and its width in
    bytes; [(RuneError, 0)] on the empty string and [(RuneError, 1)] on an
    invalid or incomplete encoding. *)
Definition DecodeRuneInString (s : string) : N * nat :=
  match s with
  | "" => (RuneError, 0)
  | String b0 t =>
    if (byte b0 <? 128)%N then (byte b0, 1)
    else if in_range 194 223 b0 then
      match t with
      | String b1 _ =>
        if cont b1 then (N.lor (N.shiftl (N.land (byte b0) 31) 6) (low6 b1), 2)
        else (RuneError, 1)
      | _ => (RuneError, 1)
      end
    else if in_range 224 239 b0 then
      match t with
      | String b1 (String b2 _) =>
        let lo := if decide (byte b0 = 224%N) then 160%N else 128%N in
        let hi := if decide (byte b0 = 237%N) then 159%N else 191%N in
        if in_range lo hi b1 && cont b2 then
          (N.lor (N.shiftl (N.land (byte b0) 15) 12)
                 (N.lor (N.shiftl (low6 b1) 6) (low6 b2)), 3)
        else (RuneError, 1)
      | _ => (RuneError, 1)
      end
    else if in_range 240 244 b0 then
      match t with
      | String b1 (String b2 (String b3 _)) =>
        let lo := if decide (byte b0 = 240%N) then 144%N else 128%N in
        let hi := if decide (byte b0 = 244%N) then 143%N else 191%N in
        if in_range lo hi b1 && cont b2 && cont b3 then
          (N.lor (N.shiftl (N.land (byte b0) 7) 18)
                 (N.lor (N.shiftl (low6 b1) 12)
                        (N.lor (N.shiftl (low6 b2) 6) (low6 b3))), 4)
        else (RuneError, 1)
      | _ => (RuneError, 1)
      end
    else (RuneError, 1)
  end.

End Utf8.

(** ** Helpers on byte strings (Go package strings) *)

Module Strings.

Fixpoint drop (n : nat) (s : string) : string :=
  match n, s with
  | O, _ => s
  | S n', String _ s' => drop n' s'
  | S _, "" => ""
  end.

Fixpoint take (n : nat) (s : string) : string :=
  match n, s with
  | O, _ => ""
  | S n', String c s' => String c (take n' s')
  | S _, "" => ""
  end.

(** The longest prefix of [s] whose bytes all satisfy [p], and what follows. *)
Fixpoint take_while (p : ascii → bool) (s : string) : string :=
  match s with
  | String c s' => if p c then String c (take_while p s') else ""
  | "" => ""
  end.

Fixpoint drop_while (p : ascii → bool) (s : string) : string :=
  match s with
  | String c s' => if p c then drop_while p s' else s
  | "" => ""
  end.

Fixpoint forallb (p : ascii → bool) (s : string) : bool :=
  match s with
  | String c s' => p c && forallb p s'
  | "" => true
  end.

(** [strings.HasPrefix]. *)
Definition HasPrefix (s pre : string) : bool := String.prefix pre s.

End Strings.

(** ** Regular expressions (Go package regexp) *)

Module Regexp.

(** Syntax trees of the regular expressions needed here: literals,
    character classes, concatenation, alternation, greedy repetition
    [r+] and numbered capturing groups.  A non-capturing group [(?:r)]
    is [r] itself. *)
Inductive regex : Type :=
| Lit (c : ascii)
| Class (p : ascii → bool)
| Cat (r1 r2 : regex)
| Alt (r1 r2 : regex)
| Plus (r : regex)
| Group (i : nat) (r : regex).

(** The texts captured so far, most recent first. *)
Definition captures : Type := list (nat * string).

(** The text consumed between the input [s] and what is left, [rest]. *)
Definition consumed (s rest : string) : string :=
  Strings.take (String.length s - String.length rest) s.

(** One or more greedy iterations of a matcher [step]: after an
    iteration that read something, one more iteration is tried before
    stopping there; an iteration that reads nothing is not repeated.
    [n] bounds the number of iterations. *)
Fixpoint plus_loop (step : string → captures → list (string * captures))
    (n : nat) (s : string) (caps : captures) : list (string * captures) :=
  match n with
  | O => []
  | S n' =>
    flat_map (fun '(s1, c1) =>
                (if String.length s1 <? String.length s
                 then plus_loop step n' s1 c1 else []) ++ [(s1, c1)])
             (step s caps)
  end.

(** All the ways [r] matches a prefix of [s], in the order of preference
    of a backtracking matcher: each is the unread rest of the input and
    the captures.  Go's (non POSIX) matching returns the match that a
    backtracking search finds first, the head of this list: in an
    alternation the left branch is preferred, and a greedy [r+] prefers
    one more iteration to stopping. *)
Fixpoint run (r : regex) (s : string) (caps : captures) : list (string * captures) :=
  match r with
  | Lit c =>
    match s with
    | String a s' => if decide (a = c) then [(s', caps)] else []
    | "" => []
    end
  | Class p =>
    match s with
    | String a s' => if p a then [(s', caps)] else []
    | "" => []
    end
  | Cat r1 r2 =>
    flat_map (fun '(s1, c1) => run r2 s1 c1) (run r1 s caps)
  | Alt r1 r2 => run r1 s caps ++ run r2 s caps
  | Plus r1 => plus_loop (run r1) (S (String.length s)) s caps
  | Group i r1 =>
    map (fun '(s1, c1) => (s1, (i, consumed s s1) :: c1)) (run r1 s caps)
  end.

(** The preferred match of [r] at the start of [s]. *)
Definition match_here (r : regex) (s : string) : option (string * captures) :=
  head (run r s []).

(** The leftmost match of [r] in [s]: the input from the start of the
    match, the rest after it, and the captures. *)
Fixpoint search (r : regex) (s : string) : option (string * string * captures) :=
  match match_here r s with
  | Some (rest, caps) => Some (s, rest, caps)
  | None =>
    match s with
    | String _ s' => search r s'
    | "" => None
    end
  end.

(** Text of capture group [i]; the empty string when the group did not
    take part in the match. *)
Definition submatch (caps : captures) (i : nat) : string :=
  match list_find (fun c => c.1 = i) caps with
  | Some (_, (_, t)) => t
  | None => ""
  end.

(** The loop of [Regexp.allMatches], which [FindAllStringSubmatch(s, -1)]
    runs: search from the current position [cur] (a suffix of the input);
    an empty match right after the previous match is dropped, and after
    an empty match the position moves on by one rune ([pos = end + 1]
    at the end of the input, which stops the loop).  [prev] is the length
    of the input left after the previous match ([prevMatchEnd]).  Each
    delivered match is the pair of the whole match and the captures. *)
Fixpoint allMatches (fuel : nat) (r : regex) (cur : string) (prev : option nat)
  : list (string * captures) :=
  match fuel with
  | O => []
  | S fuel' =>
    match search r cur with
    | None => []
    | Some (from, rest, caps) =>
      let m := (consumed from rest, caps) in
      if decide (String.length rest = String.length cur) then
        (* an empty match at the current position *)
        let accept := bool_decide (prev ≠ Some (String.length from)) in
        let width := (Utf8.DecodeRuneInString cur).2 in
        let tl := if decide (0 < width)
                  then allMatches fuel' r (Strings.drop width cur)
                                  (Some (String.length rest))
                  else [] in
        if accept then m :: tl else tl
      else m :: allMatches fuel' r rest (Some (String.length rest))
    end
  end.

(** [re.FindAllStringSubmatch(s, -1)]: for every match, the text of the
    groups [1 .. ngroups] (index 0, the whole match, comes first).  Every
    turn of the loop moves the position forward, so [length s + 2] turns
    are enough. *)
Definition FindAllStringSubmatch (r : regex) (ngroups : nat) (s : string)
  : list (list string) :=
  map (fun '(whole, caps) => whole :: map (submatch caps) (seq 1 ngroups))
      (allMatches (String.length s + 2) r s None).

End Regexp.

(** ** Wildcards *)

Module Wildcards.
Import Regexp.

Definition is_digit (c : ascii) : bool := Utf8.in_range 48 57 c.
Definition is_upper (c : ascii) : bool := Utf8.in_range 65 90 c.
Definition is_lower (c : ascii) : bool := Utf8.in_range 97 122 c.

(** The character class [[a-zA-Z0-9_]]. *)
Definition word_char (c : ascii) : bool :=
  is_lower c || is_upper c || is_digit c || bool_decide (c = "_"%char).

(** [WildcardRegex] (api.go, line 20): a slash, then a colon or a star
    (a non-capturing alternation), then capturing group 1: one or more
    characters of the class [a-zA-Z0-9_]. *)
Definition WildcardRegex : regex :=
  Cat (Lit "/") (Cat (Alt (Lit ":") (Lit "*")) (Group 1 (Plus (Class word_char)))).

(** [ExtractWildcards] (api.go, lines 1144-1152): [m[1]] of every match. *)
Definition ExtractWildcards (path : string) : list string :=
  map (fun m => nth 1 m "") (FindAllStringSubmatch WildcardRegex 1 path).

(** The wording of the specification: at every position of the path, from
    left to right, where a "/" is immediately followed by ":" or "*", the
    name is the maximal run of letters, digits and underscores that comes
    next; an empty run is no name. *)
Fixpoint wildcard_names (path : string) : list string :=
  match path with
  | "" => []
  | String c rest =>
    (if decide (c = "/"%char) then
       match rest with
       | String d after =>
         if decide (d = ":"%char ∨ d = "*"%char) then
           match Strings.take_while word_char after with
           | "" => []
           | name => [name]
           end
         else []
       | "" => []
       end
     else []) ++ wildcard_names rest
  end.

End Wildcards.

(** ** Sorting (Go package sort) *)

Module Sort.

(** [sort.Strings] sorts a slice of strings in increasing order, the order
    of Go strings being the lexicographic order of their bytes
    ([String.le]).  The library's algorithm is not part of the sources;
    any sorting algorithm gives the same slice, and merge sort stands for
    it. *)
Definition Strings (names : list string) : list string :=
  merge_sort String.le names.

End Sort.

(** ** Lexical path cleaning (Go package path) *)

Module Path.

Definition get (i : nat) (s : string) : ascii :=
  match String.get i s with
  | Some c => c
  | None => "000"%char
  end.

Definition is_slash (c : ascii) : bool := bool_decide (c = "/"%char).
Definition not_slash (c : ascii) : bool := negb (is_slash c).

(** The loop [for w > stop && buf[w] != '/' { w-- }]. *)
Fixpoint back (buf : string) (stop : nat) (w : nat) : nat :=
  match w with
  | O => O
  | S w' =>
    if (stop <? w) && not_slash (get w buf) then back buf stop w' else w
  end.

(** State of the loop of [Clean]: the output written so far ([buf[:w]])
    and the index [dotdot] where backtracking must stop. *)
Record state : Type := mkState {
  out : string;
  dotdot : nat
}.

(** The loop of [path.Clean] over the unread input [p] ([path[r:]]); every
    turn reads at least one byte, so [fuel = len(path)] turns are enough. *)
Fixpoint clean_loop (fuel : nat) (rooted : bool) (p : string) (st : state) : state :=
  match fuel with
  | O => st
  | S fuel' =>
    match p with
    | "" => st
    | String c p1 =>
      if is_slash c then
        (* empty path element *)
        clean_loop fuel' rooted p1 st
      else if bool_decide (c = "."%char) &&
              match p1 with "" => true | String d _ => is_slash d end then
        (* . element *)
        clean_loop fuel' rooted p1 st
      else if bool_decide (c = "."%char) &&
              match p1 with
              | String d "" => bool_decide (d = "."%char)
              | String d (String e _) => bool_decide (d = "."%char) && is_slash e
              | "" => false
              end then
        (* .. element: remove to last / *)
        let p2 := Strings.drop 1 p1 in
        let w := String.length (out st) in
        if dotdot st <? w then
          (* can backtrack *)
          clean_loop fuel' rooted p2
            (mkState (Strings.take (back (out st) (dotdot st) (w - 1)) (out st))
                     (dotdot st))
        else if negb rooted then
          (* cannot backtrack, but not rooted, so append .. element *)
          let o := (if 0 <? w then out st +:+ "/" else out st) +:+ ".." in
          clean_loop fuel' rooted p2 (mkState o (String.length o))
        else clean_loop fuel' rooted p2 st
      else
        (* real path element: add slash if needed, copy element *)
        let w := String.length (out st) in
        let o := if (rooted && negb (w =? 1)) || (negb rooted && negb (w =? 0))
                 then out st +:+ "/" else out st in
        clean_loop fuel' rooted (Strings.drop_while not_slash p)
                   (mkState (o +:+ Strings.take_while not_slash p) (dotdot st))
    end
  end.

(** [path.Clean]. *)
Definition Clean (path : string) : string :=
  match path with
  | "" => "."
  | String c _ =>
    let rooted := is_slash c in
    let st := if rooted then mkState "/" 1 else mkState "" 0 in
    let p := if rooted then Strings.drop 1 path else path in
    let o := out (clean_loop (String.length path) rooted p st) in
    (* Turn empty string into "." *)
    match o with
    | "" => "."
    | _ => o
    end
  end.

(** [strings.Join(elem, "/")]. *)
Fixpoint join_slash (elem : list string) : string :=
  match elem with
  | [] => ""
  | [e] => e
  | e :: rest => e +:+ "/" +:+ join_slash rest
  end.

(** [path.Join]: the elements from the first non-empty one on are joined
    with slashes and the result is cleaned; the empty string when all
    elements are empty. *)
Fixpoint Join (elem : list string) : string :=
  match elem with
  | [] => ""
  | e :: rest =>
    if decide (e = "") then Join rest else Clean (join_slash elem)
  end.

End Path.

(** ** URL path cleaning (package github.com/julienschmidt/httprouter) *)

Module Httprouter.
Import Path.

(** The loop of [CleanPath] over the unread input [p] ([p[r:]]); [o] is
    the output written so far ([buf[:w]]), which always starts with a
    slash. *)
Fixpoint clean_loop (fuel : nat) (p : string) (o : string) (trailing : bool)
  : string * bool :=
  match fuel with
  | O => (o, trailing)
  | S fuel' =>
    match p with
    | "" => (o, trailing)
    | String c p1 =>
      if is_slash c then
        (* empty path element, trailing slash is added after the end *)
        clean_loop fuel' p1 o trailing
      else if bool_decide (c = "."%char) && bool_decide (p1 = "") then
        clean_loop fuel' p1 o true
      else if bool_decide (c = "."%char) &&
              match p1 with String d _ => is_slash d | "" => false end then
        (* . element *)
        clean_loop fuel' p1 o trailing
      else if bool_decide (c = "."%char) &&
              match p1 with
              | String d "" => bool_decide (d = "."%char)
              | String d (String e _) => bool_decide (d = "."%char) && is_slash e
              | "" => false
              end then
        (* .. element: remove to last / *)
        let w := String.length o in
        clean_loop fuel' (Strings.drop 1 p1)
          (if 1 <? w then Strings.take (back o 1 (w - 1)) o else o)
          trailing
      else
        (* real path element: add slash if needed, copy element *)
        let o1 := if 1 <? String.length o then o +:+ "/" else o in
        clean_loop fuel' (Strings.drop_while not_slash p)
                   (o1 +:+ Strings.take_while not_slash p) trailing
    end
  end.

(** [httprouter.CleanPath]: the URL version of [path.Clean]; the result
    always begins with a slash, and a trailing slash is kept. *)
Definition CleanPath (p : string) : string :=
  match p with
  | "" => "/"
  | String c _ =>
    let n := String.length p in
    let rest := if is_slash c then Strings.drop 1 p else p in
    let trailing := (2 <? n) && is_slash (get (n - 1) p) in
    let '(o, trailing) := clean_loop n rest "/" trailing in
    (* re-append trailing slash *)
    if trailing && (1 <? String.length o) then o +:+ "/" else o
  end.

End Httprouter.

(** ** The definition graph *)

(** Go errors returned by iterators. *)
Definition error : Type := string.

Module Route.

(** [RouteDefinition] (api.go, lines 301-309).  The [Parent] pointer is
    modelled by containment: a route belongs to the action that lists
    it. *)
Record RouteDefinition : Type := mkRoute {
  Verb : string;
  Path : string
}.

(** [RouteDefinition.IsAbsolute] (api.go, lines 1120-1124). *)
Definition IsAbsolute (r : RouteDefinition) : bool :=
  Strings.HasPrefix (Path r) "//".

End Route.

Module Action.

(** [ActionDefinition] (api.go, lines 242-273); the [Parent] pointer is
    modelled by containment in the resource. *)
Record ActionDefinition : Type := mkAction {
  Name : string;
  Routes : list Route.RouteDefinition;
  Responses : gmap string Response.ResponseDefinition;
  Params : option AttributeDefinition;
  QueryParams : option AttributeDefinition
}.

(** [ActionDefinition.HasAbsoluteRoutes] (api.go, lines 1040-1048). *)
Definition HasAbsoluteRoutes (a : ActionDefinition) : bool :=
  forallb Route.IsAbsolute (Routes a).

Definition set_Params (a : ActionDefinition) (p : option AttributeDefinition)
  : ActionDefinition :=
  mkAction (Name a) (Routes a) (Responses a) p (QueryParams a).

Definition set_QueryParams (a : ActionDefinition) (q : option AttributeDefinition)
  : ActionDefinition :=
  mkAction (Name a) (Routes a) (Responses a) (Params a) q.

Definition set_Responses (a : ActionDefinition)
    (rs : gmap string Response.ResponseDefinition) : ActionDefinition :=
  mkAction (Name a) (Routes a) rs (Params a) (QueryParams a).

End Action.

Module Resource.

(** [ResourceDefinition] (api.go, lines 161-195). *)
Record ResourceDefinition : Type := mkResource {
  Name : string;
  BasePath : string;
  BaseParams : option AttributeDefinition;
  ParentName : string;
  APIVersions : list string;
  Actions : gmap string Action.ActionDefinition;
  CanonicalActionName : string;
  Responses : gmap string Response.ResponseDefinition
}.

Definition set_Actions (r : ResourceDefinition)
    (acts : gmap string Action.ActionDefinition) : ResourceDefinition :=
  mkResource (Name r) (BasePath r) (BaseParams r) (ParentName r) (APIVersions r)
             acts (CanonicalActionName r) (Responses r).

(** [ResourceDefinition.IterateActions] (api.go, lines 668-685). *)
Definition IterateActions {S : Type} (r : ResourceDefinition)
    (it : Visitor string S error) (s : S) : result (S * option error) :=
  iterate it (Sort.Strings (range_keys (Actions r))) s.

(** [ResourceDefinition.CanonicalAction] (api.go, lines 687-696). *)
Definition CanonicalAction (r : ResourceDefinition) : option Action.ActionDefinition :=
  let name := if decide (CanonicalActionName r = "") then "show"
              else CanonicalActionName r in
  Actions r !! name.

(** [ResourceDefinition.SupportsNoVersion] (api.go, lines 757-760). *)
Definition SupportsNoVersion (r : ResourceDefinition) : bool :=
  bool_decide (length (APIVersions r) = 0).

(** [ResourceDefinition.SupportsVersion] (api.go, lines 743-755). *)
Definition SupportsVersion (r : ResourceDefinition) (version : string) : bool :=
  if decide (version = "") then SupportsNoVersion r
  else existsb (fun v => bool_decide (v = version)) (APIVersions r).

End Resource.

Module MediaType.

(** Modelled from the spec: a media type is identified by a MIME-style
    identifier and lists the API versions it is exposed under (the
    structure is declared outside the sources at hand). *)
Record MediaTypeDefinition : Type := mkMediaType {
  Identifier : string;
  APIVersions : list string
}.

(** Modelled from the spec: "a resource/media-type/user-type supports
    version v if its explicit version list contains v, or, when v is the
    empty string, if its version list is empty". *)
Definition SupportsVersion (m : MediaTypeDefinition) (version : string) : bool :=
  if decide (version = "") then bool_decide (length (APIVersions m) = 0)
  else existsb (fun v => bool_decide (v = version)) (APIVersions m).

End MediaType.

Module UserType.

(** Modelled from the spec: a user type has a name and lists the API
    versions it is exposed under. *)
Record UserTypeDefinition : Type := mkUserType {
  TypeName : string;
  APIVersions : list string
}.

(** Modelled from the spec: see [MediaType.SupportsVersion]. *)
Definition SupportsVersion (u : UserTypeDefinition) (version : string) : bool :=
  if decide (version = "") then bool_decide (length (APIVersions u) = 0)
  else existsb (fun v => bool_decide (v = version)) (APIVersions u).

End UserType.

Module Version.

(** [APIVersionDefinition] (api.go, lines 89-133), with the fields that
    the functions below read. *)
Record APIVersionDefinition : Type := mkVersion {
  Version : string;
  BasePath : string;
  BaseParams : option AttributeDefinition;
  Responses : gmap string Response.ResponseDefinition;
  DefaultResponses : gmap string Response.ResponseDefinition
}.

(** [APIVersionDefinition.IsDefault] (api.go, lines 549-553). *)
Definition IsDefault (v : APIVersionDefinition) : bool :=
  bool_decide (Version v = "").

(** [APIVersionDefinition.IterateResponses] (api.go, lines 612-629). *)
Definition IterateResponses {S : Type} (v : APIVersionDefinition)
    (it : Visitor string S error) (s : S) : result (S * option error) :=
  iterate it (Sort.Strings (range_keys (Responses v))) s.

End Version.

Module API.

(** [APIDefinition] (api.go, lines 73-87).  [Default] is the embedded
    [*APIVersionDefinition], the default (unversioned) scope. *)
Record APIDefinition : Type := mkAPI {
  Default : Version.APIVersionDefinition;
  APIVersions : gmap string Version.APIVersionDefinition;
  Resources : gmap string Resource.ResourceDefinition;
  Types : gmap string UserType.UserTypeDefinition;
  MediaTypes : gmap string MediaType.MediaTypeDefinition
}.

(** A pointer to a version definition, as [IterateVersions] hands it to
    the iterator: the embedded default scope, or the entry of
    [Design.APIVersions] under a key. *)
Inductive VersionRef : Type :=
| DefaultVersion
| NamedVersion (v : string).

(** The version definition a pointer leads to in the root [D]; [None] is
    the nil pointer that [Design.APIVersions[v]] yields for a missing
    key. *)
Definition version_at (D : APIDefinition) (ref : VersionRef)
  : option Version.APIVersionDefinition :=
  match ref with
  | DefaultVersion => Some (Default D)
  | NamedVersion v => APIVersions D !! v
  end.

(** [APIDefinition.IterateMediaTypes] (api.go, lines 339-356). *)
Definition IterateMediaTypes {S : Type} (a : APIDefinition)
    (it : Visitor string S error) (s : S) : result (S * option error) :=
  iterate it (Sort.Strings (range_keys (MediaTypes a))) s.

(** [APIDefinition.IterateUserTypes] (api.go, lines 358-375). *)
Definition IterateUserTypes {S : Type} (a : APIDefinition)
    (it : Visitor string S error) (s : S) : result (S * option error) :=
  iterate it (Sort.Strings (range_keys (Types a))) s.

(** [APIDefinition.IterateResources] (api.go, lines 409-426). *)
Definition IterateResources {S : Type} (a : APIDefinition)
    (it : Visitor string S error) (s : S) : result (S * option error) :=
  iterate it (Sort.Strings (range_keys (Resources a))) s.

(** The pointers [IterateVersions] visits, in order: the default scope,
    then the versions by sorted name.  The names are the keys of the
    receiver [a]; the iterator looks them up in the global [Design]. *)
Definition version_refs (a : APIDefinition) : list VersionRef :=
  DefaultVersion :: map NamedVersion (Sort.Strings (range_keys (APIVersions a))).

(** [APIDefinition.IterateVersions] (api.go, lines 428-450). *)
Definition IterateVersions {S : Type} (a : APIDefinition)
    (it : Visitor VersionRef S error) (s : S) : result (S * option error) :=
  iterate it (version_refs a) s.

(** The names collected by [for n, x := range m { if supports(x) { names
    = append(names, n) } }]. *)
Definition supporting_keys {V : Type} (supports : V → bool) (m : gmap string V)
  : list string :=
  (filter (fun kv => supports kv.2 = true) (map_to_list m)).*1.

(** [APIVersionDefinition.IterateResources] (api.go, lines 555-572), on
    the resources of the global [Design]. *)
Definition Version_IterateResources {S : Type} (Design : APIDefinition)
    (v : Version.APIVersionDefinition)
    (it : Visitor string S error) (s : S) : result (S * option error) :=
  iterate it
    (Sort.Strings
       (supporting_keys (fun r => Resource.SupportsVersion r (Version.Version v))
                        (Resources Design))) s.

(** [APIVersionDefinition.IterateMediaTypes] (api.go, lines 574-591). *)
Definition Version_IterateMediaTypes {S : Type} (Design : APIDefinition)
    (v : Version.APIVersionDefinition)
    (it : Visitor string S error) (s : S) : result (S * option error) :=
  iterate it
    (Sort.Strings
       (supporting_keys (fun m => MediaType.SupportsVersion m (Version.Version v))
                        (MediaTypes Design))) s.

(** [APIVersionDefinition.IterateUserTypes] (api.go, lines 593-610). *)
Definition Version_IterateUserTypes {S : Type} (Design : APIDefinition)
    (v : Version.APIVersionDefinition)
    (it : Visitor string S error) (s : S) : result (S * option error) :=
  iterate it
    (Sort.Strings
       (supporting_keys (fun u => UserType.SupportsVersion u (Version.Version v))
                        (Types Design))) s.

End API.

(** ** The enumeration contract, in the words of the specification *)

Module IterateSpec.

(** [visits it ks s s']: the iterator is called on the keys [ks] in order,
    starting in state [s]; every call returns a nil error, and the last
    one leaves the state [s']. *)
Inductive visits {K S E : Type} (it : Visitor K S E) : list K → S → S → Prop :=
| visits_nil (s : S) : visits it [] s s
| visits_cons (k : K) (ks : list K) (s s1 s2 : S) :
    it k s = Ok (s1, None) → visits it ks s1 s2 → visits it (k :: ks) s s2.

(** An iteration over [ks] that ends at the first call of the iterator
    that does not return nil.  Either every key was visited, with no
    error; or the keys before some [k] were visited with no error and the
    outcome of the whole iteration is the outcome of the call on [k]: the
    error it returned, unchanged, and the state it left (or its panic).
    The keys after [k] are not visited. *)
Definition fail_fast {K S E : Type} (it : Visitor K S E) (ks : list K) (s : S)
    (res : result (S * option E)) : Prop :=
  (∃ s', res = Ok (s', None) ∧ visits it ks s s') ∨
  (∃ pre k post s1,
      ks = pre ++ k :: post ∧ visits it pre s s1 ∧ it k s1 = res ∧
      ∀ s', res ≠ Ok (s', None)).

(** [ks] lists, in lexicographic order and without repetition, exactly
    the names that satisfy [P]. *)
Definition sorted_names_of (P : string → Prop) (ks : list string) : Prop :=
  StronglySorted String.le ks ∧ NoDup ks ∧ ∀ k, k ∈ ks ↔ P k.

End IterateSpec.

(** ** Path composition and finalization *)

Module Design.
Import Route Action Resource API.

(** [ResourceDefinition.Parent] (api.go, lines 728-736): the parent
    resource is looked up by name in the global [Design] on every call. *)
Definition Parent (D : APIDefinition) (r : ResourceDefinition)
  : option ResourceDefinition :=
  if decide (ParentName r = "") then None else Resources D !! ParentName r.

(** The body of [RouteDefinition.FullPath] (api.go, lines 1107-1118),
    given the function that computes the full path of a resource.
    [owner] is the resource [r.Parent.Parent], [None] when one of the two
    pointers is nil. *)
Definition route_full_path (resource_full_path : ResourceDefinition → result string)
    (owner : option ResourceDefinition) (r : RouteDefinition) : result string :=
  if IsAbsolute r then Ok (Httprouter.CleanPath (Strings.drop 1 (Path r)))
  else
    base ←r match owner with
            | Some res => resource_full_path res
            | None => Ok ""
            end ;;
    Ok (Httprouter.CleanPath (Path.Join [base; Path r])).

(** [ResourceDefinition.FullPath] (api.go, lines 709-726).  [version] is
    a pointer, [None] when nil.  The route of the parent's canonical
    action belongs to the parent.  [fuel] bounds the number of parent
    resources the recursion may go through. *)
Fixpoint ResourceDefinition_FullPath (fuel : nat) (D : APIDefinition)
    (version : option Version.APIVersionDefinition) (r : ResourceDefinition)
  : result string :=
  match fuel with
  | O => OutOfFuel
  | S fuel' =>
    basePath ←r
      match Parent D r with
      | Some p =>
        match CanonicalAction p with
        | Some ca =>
          match Routes ca with
          | route0 :: _ =>
            full ←r route_full_path (ResourceDefinition_FullPath fuel' D version)
                                    (Some p) route0 ;;
            Ok (Path.Join [full])
          | [] => Ok ""
          end
        | None => Ok ""
        end
      | None =>
        match version with
        | Some v => Ok (Version.BasePath v)
        | None => Panic
        end
      end ;;
    Ok (Httprouter.CleanPath (Path.Join [basePath; BasePath r]))
  end.

(** [RouteDefinition.FullPath] (api.go, lines 1107-1118). *)
Definition RouteDefinition_FullPath (fuel : nat) (D : APIDefinition)
    (version : option Version.APIVersionDefinition)
    (owner : option ResourceDefinition) (r : RouteDefinition) : result string :=
  route_full_path (ResourceDefinition_FullPath fuel D version) owner r.

(** [RouteDefinition.Params] (api.go, lines 1101-1105). *)
Definition RouteDefinition_Params (fuel : nat) (D : APIDefinition)
    (version : option Version.APIVersionDefinition)
    (owner : option ResourceDefinition) (r : RouteDefinition)
  : result (list string) :=
  full ←r RouteDefinition_FullPath fuel D version owner r ;;
  Ok (Wildcards.ExtractWildcards full).

(** [ResourceDefinition.URITemplate] (api.go, lines 698-707). *)
Definition URITemplate (fuel : nat) (D : APIDefinition)
    (version : option Version.APIVersionDefinition) (r : ResourceDefinition)
  : result string :=
  match CanonicalAction r with
  | Some ca =>
    match Routes ca with
    | route0 :: _ => RouteDefinition_FullPath fuel D version (Some r) route0
    | [] => Ok ""
    end
  | None => Ok ""
  end.

(** A loop [for _, x := range xs { ... }] whose body updates a state and
    may panic. *)
Fixpoint for_each {X A : Type} (body : X → A → result A) (xs : list X) (a : A)
  : result A :=
  match xs with
  | [] => Ok a
  | x :: xs' => a' ←r body x a ;; for_each body xs' a'
  end.

(** Step 1 of [Finalize] for one response of the action (api.go, lines
    773-781): merge the response of the same name of the resource, then
    of the API, then the default one. *)
Definition merge_inherited (D : APIDefinition) (parent : ResourceDefinition)
    (name : string) (resp : Response.ResponseDefinition)
  : result Response.ResponseDefinition :=
  r1 ←r match Resource.Responses parent !! name with
        | Some pr => Response.Merge resp (Some pr)
        | None => Ok resp
        end ;;
  r2 ←r match Version.Responses (Default D) !! name with
        | Some ar => Response.Merge r1 (Some ar)
        | None => Ok r1
        end ;;
  match Version.DefaultResponses (Default D) !! name with
  | Some dr => Response.Merge r2 (Some dr)
  | None => Ok r2
  end.

(** Step 1 of [Finalize]: the loop over [a.Responses] (api.go, lines
    772-782).  Each response is updated in place. *)
Definition merge_responses (D : APIDefinition) (parent : ResourceDefinition)
    (a : ActionDefinition) : result ActionDefinition :=
  rs ←r map_fold (fun name resp acc =>
                    m ←r acc ;;
                    resp' ←r merge_inherited D parent name resp ;;
                    Ok (<[name := resp']> m))
                 (Ok (Action.Responses a)) (Action.Responses a) ;;
  Ok (set_Responses a rs).

(** Step 2 of [Finalize], the body of the loop over the wildcards of one
    path (api.go, lines 788-804). *)
Definition add_wildcard (wc : string) (a : ActionDefinition) : result ActionDefinition :=
  let all := match Params a with
             | Some all => all
             | None => mkAttribute (Object ∅) ∅
             end in
  match ToObject (Att.Type_ all) with
  | Some o =>
    if decide (is_Some (o !! wc)) then Ok (set_Params a (Some all))
    else Ok (set_Params a
               (Some (mkAttribute (Object (<[wc := mkAttribute String_ ∅]> o))
                                  (NonZeroAttributes all))))
  | None =>
    (* [o] is a nil map: nothing is found, and the assignment panics *)
    Panic
  end.

(** Step 2 of [Finalize] (api.go, lines 784-808): for every route and
    every version, create the implicit parameters. *)
Definition create_implicit_params (fuel : nat) (D : APIDefinition)
    (parent : ResourceDefinition) (a : ActionDefinition) : result ActionDefinition :=
  for_each
    (fun r a =>
       x ←r IterateVersions D
              (fun ver a =>
                 full ←r RouteDefinition_FullPath fuel D (version_at D ver)
                                                  (Some parent) r ;;
                 a' ←r for_each add_wildcard (Wildcards.ExtractWildcards full) a ;;
                 Ok (a', None))
              a ;;
       Ok x.1)
    (Routes a) a.

(** [a.Params.NonZeroAttributes[pname] = true]. *)
Definition set_non_zero (pname : string) (a : ActionDefinition) : ActionDefinition :=
  match Params a with
  | Some p =>
    set_Params a (Some (mkAttribute (Att.Type_ p) (<[pname := true]> (NonZeroAttributes p))))
  | None => a
  end.

(** [delete(queryParams.Type.ToObject(), pname)]; deleting from a nil map
    does nothing. *)
Definition delete_param (pname : string) (q : AttributeDefinition) : AttributeDefinition :=
  match Att.Type_ q with
  | Object o => mkAttribute (Object (delete pname o)) (NonZeroAttributes q)
  | Primitive _ => q
  end.

(** The body of the innermost loop of step 3 (api.go, lines 817-818), on
    the action together with [queryParams]. *)
Definition mark (pname : string) (st : ActionDefinition * AttributeDefinition)
  : result (ActionDefinition * AttributeDefinition) :=
  Ok (set_non_zero pname st.1, delete_param pname st.2).

(** Step 3 of [Finalize] (api.go, lines 809-826).  The state of the
    iteration is the action together with [queryParams]. *)
Definition partition_params (fuel : nat) (D : APIDefinition)
    (parent : ResourceDefinition) (a : ActionDefinition) : result ActionDefinition :=
  match Params a with
  | Some params =>
    let queryParams := DupAtt params in
    let a0 := set_Params a (Some (mkAttribute (Att.Type_ params) ∅)) in
    x ←r IterateVersions D
           (fun ver st =>
              st' ←r for_each
                       (fun route st =>
                          pnames ←r RouteDefinition_Params fuel D (version_at D ver)
                                                           (Some parent) route ;;
                          for_each mark pnames st)
                       (Routes a) st ;;
              Ok (st', None))
           (a0, queryParams) ;;
    Ok (set_QueryParams x.1.1 (Some x.1.2))
  | None => Ok a
  end.

(** The body of the iterator of [Finalize] for one action. *)
Definition finalize_action (fuel : nat) (D : APIDefinition)
    (parent : ResourceDefinition) (a : ActionDefinition) : result ActionDefinition :=
  a1 ←r merge_responses D parent a ;;
  a2 ←r create_implicit_params fuel D parent a1 ;;
  partition_params fuel D parent a2.

(** [ResourceDefinition.Finalize] (api.go, lines 767-830).  The resource
    is updated in place in the source: the updated resource is returned.
    [D] is the global [Design]. *)
Definition Finalize (fuel : nat) (D : APIDefinition) (r : ResourceDefinition)
  : result ResourceDefinition :=
  x ←r IterateActions r
         (fun n st =>
            match Actions st !! n with
            | Some a =>
              a' ←r finalize_action fuel D r a ;;
              Ok (set_Actions st (<[n := a']> (Actions st)), None)
            | None => Panic
            end)
         r ;;
  Ok x.1.

(** The wildcards of all the routes of an action under one version, in
    the order of the routes. *)
Definition action_wildcards (fuel : nat) (D : APIDefinition)
    (version : option Version.APIVersionDefinition)
    (parent : ResourceDefinition) (a : ActionDefinition) : result (list string) :=
  for_each (fun r acc =>
              ps ←r RouteDefinition_Params fuel D version (Some parent) r ;;
              Ok (acc ++ ps))
           (Routes a) [].

End Design.

(** ** The parameters of an action *)

Module Params.
Import Route Action Resource API Design.

Section WithMerge.

(** [AttributeDefinition.Merge] is declared outside the sources at hand
    and the specification does not describe it: it is a parameter.  It
    takes the receiver and the (possibly nil) argument, and returns the
    merged attribute or panics. *)
Variable AttMerge :
  AttributeDefinition → option AttributeDefinition → result AttributeDefinition.

(** [ActionDefinition.AllParams] (api.go, lines 1021-1038).  [parent] is
    the resource [a.Parent] that owns the action; [fuel] bounds the
    number of parent resources the recursion may go through.  Calling the
    method on the nil canonical action of a parent panics. *)
Fixpoint ActionDefinition_AllParams (fuel : nat) (D : APIDefinition)
    (parent : ResourceDefinition) (a : ActionDefinition)
  : result AttributeDefinition :=
  match fuel with
  | O => OutOfFuel
  | S fuel' =>
    let res := match Params a with
               | Some p => DupAtt p
               | None => mkAttribute (Object ∅) ∅
               end in
    if HasAbsoluteRoutes a then Ok res
    else
      res1 ←r AttMerge res (Resource.BaseParams parent) ;;
      res2 ←r AttMerge res1 (Version.BaseParams (Default D)) ;;
      match Design.Parent D parent with
      | Some p =>
        match CanonicalAction p with
        | Some ca =>
          pa ←r ActionDefinition_AllParams fuel' D p ca ;;
          AttMerge res2 (Some pa)
        | None => Panic
        end
      | None => Ok res2
      end
  end.

End WithMerge.

(** What the results below need of [AttributeDefinition.Merge]: the
    attributes of the receiver are still there, by name, in the result. *)
Definition merge_keeps_names
    (AttMerge : AttributeDefinition → option AttributeDefinition
                → result AttributeDefinition) : Prop :=
  ∀ a other res, AttMerge a other = Ok res → names a ⊆ names res.

(** A merge that fits the contract: the attributes of [other] are added
    to those of the receiver, replacing those of the same name; both must
    be objects. *)
Definition union_merge (a : AttributeDefinition) (other : option AttributeDefinition)
  : result AttributeDefinition :=
  match other with
  | None => Ok a
  | Some o =>
    match Att.Type_ a, Att.Type_ o with
    | Object l, Object r =>
      Ok (mkAttribute (Object (r ∪ l)) (NonZeroAttributes a))
    | _, _ => Panic
    end
  end.

(** The parameter of name [n] of an action. *)
Definition param (a : ActionDefinition) (n : string) : option AttributeDefinition :=
  match Params a with
  | Some p => obj_lookup (ToObject (Att.Type_ p)) n
  | None => None
  end.

(** The parameters of an action, when present, are an object: what the
    design language builds. *)
Definition params_are_object (a : ActionDefinition) : Prop :=
  match Params a with
  | Some p => is_Some (ToObject (Att.Type_ p))
  | None => True
  end.

(** The root after [Finalize] has updated in place the resource
    registered under [name]. *)
Definition update_resource (D : APIDefinition) (name : string)
    (r : ResourceDefinition) : APIDefinition :=
  mkAPI (Default D) (APIVersions D) (<[name := r]> (Resources D)) (Types D)
        (MediaTypes D).

End Params.

(** ** Path parameters, in the words of the specification *)

Module FinalizeSpec.
Import Route Action Resource API Design.

(** [wc] is a path-parameter name of the action [a] of resource [parent]
    under the version scope [ref]: a wildcard of the full path of one of
    its routes in that scope. *)
Definition is_path_param_in (fuel : nat) (D : APIDefinition)
    (parent : ResourceDefinition) (a : ActionDefinition) (ref : VersionRef)
    (wc : string) : Prop :=
  ∃ rt full, rt ∈ Routes a ∧
    RouteDefinition_FullPath fuel D (version_at D ref) (Some parent) rt = Ok full ∧
    wc ∈ Wildcards.ExtractWildcards full.

(** [wc] is a path-parameter name of the action under some version scope
    that [IterateVersions] visits. *)
Definition is_path_param (fuel : nat) (D : APIDefinition)
    (parent : ResourceDefinition) (a : ActionDefinition) (wc : string) : Prop :=
  ∃ ref, ref ∈ version_refs D ∧ is_path_param_in fuel D parent a ref wc.

(** The wildcards of the full path of one route in one version scope. *)
Definition route_wildcards (fuel : nat) (D : APIDefinition)
    (parent : ResourceDefinition) (rt : RouteDefinition) (ref : VersionRef)
    (l : list string) : Prop :=
  RouteDefinition_Params fuel D (version_at D ref) (Some parent) rt = Ok l.

(** The attribute of an implicit parameter. *)
Definition implicit_param : AttributeDefinition := mkAttribute String_ ∅.

End FinalizeSpec.


(** ** Runes (Go packages unicode/utf8 and unicode) *)

Module Unicode.
Import Utf8.

(** [byte(n)]: the low eight bits. *)
Definition chr (n : N) : ascii := ascii_of_N n.

(** [utf8.EncodeRune]: the UTF-8 encoding of a rune; a rune out of range
    or a surrogate is encoded as [RuneError]. *)
Definition EncodeRune (r : N) : string :=
  if (r <=? 127)%N then String (chr r) ""
  else if (r <=? 2047)%N then
    String (chr (N.lor 192 (N.shiftr r 6)))
      (String (chr (N.lor 128 (N.land r 63))) "")
  else
    let r := if ((1114111 <? r) || ((55296 <=? r) && (r <=? 57343)))%N
             then RuneError else r in
    if (r <=? 65535)%N then
      String (chr (N.lor 224 (N.shiftr r 12)))
        (String (chr (N.lor 128 (N.land (N.shiftr r 6) 63)))
           (String (chr (N.lor 128 (N.land r 63))) ""))
    else
      String (chr (N.lor 240 (N.shiftr r 18)))
        (String (chr (N.lor 128 (N.land (N.shiftr r 12) 63)))
           (String (chr (N.lor 128 (N.land (N.shiftr r 6) 63)))
              (String (chr (N.lor 128 (N.land r 63))) ""))).

(** [utf8.RuneStart]: the byte is not a continuation byte. *)
Definition RuneStart (b : ascii) : bool :=
  negb (N.land (byte b) 192 =? 128)%N.

(** The loop [for start--; start >= lim; start-- { if RuneStart(s[start])
    { break } }] of [DecodeLastRuneInString]: [n] counts the turns left
    before [start] goes below [lim]; the result is [None] when it does. *)
Fixpoint find_start (s : string) (n : nat) (start : nat) : option nat :=
  match n with
  | O => None
  | S n' =>
    if RuneStart (Path.get start s) then Some start
    else match start with
         | O => None
         | S start' => find_start s n' start'
         end
  end.

(** [utf8.DecodeLastRuneInString]. *)
Definition DecodeLastRuneInString (s : string) : N * nat :=
  let end_ := String.length s in
  match end_ with
  | O => (RuneError, 0)
  | S start =>
    let r := byte (Path.get start s) in
    if (r <? 128)%N then (r, 1)
    else
      let lim := end_ - 4 in
      (* [start--] first; at most [start - lim] bytes are looked at *)
      let start' :=
        match start with
        | O => 0
        | S st =>
          match find_start s (start - lim) st with
          | Some i => i
          | None => if lim =? 0 then 0 else lim - 1
          end
        end in
      let '(r, size) := DecodeRuneInString (Strings.drop start' s) in
      if start' + size =? end_ then (r, size) else (RuneError, 1)
  end.

(** [unicode.IsSpace]: the white space of Latin-1, then the other code
    points with the White_Space property. *)
Definition IsSpace (r : N) : bool :=
  if (r <=? 255)%N then
    ((9 <=? r) && (r <=? 13) || (r =? 32) || (r =? 133) || (r =? 160))%N
  else
    ((r =? 5760) || ((8192 <=? r) && (r <=? 8202)) || (r =? 8232) || (r =? 8233)
     || (r =? 8239) || (r =? 8287) || (r =? 12288))%N.

End Unicode.

(** ** Strings (Go package strings) *)

Module GoStrings.
Import Utf8 Unicode.

(** [s[:i]] and [s[i:]] for [i := strings.Index(s, c)], with [i = len(s)]
    when [c] does not occur. *)
Definition before (c : ascii) (s : string) : string :=
  Strings.take_while (fun x => negb (bool_decide (x = c))) s.
Definition from (c : ascii) (s : string) : string :=
  Strings.drop_while (fun x => negb (bool_decide (x = c))) s.

(** [strings.Index(s, c) != -1]. *)
Fixpoint contains (c : ascii) (s : string) : bool :=
  match s with
  | String x s' => bool_decide (x = c) || contains c s'
  | "" => false
  end.

(** [strings.TrimLeftFunc(s, unicode.IsSpace)]: drop the leading runes
    that are white space. *)
Fixpoint trim_left (fuel : nat) (s : string) : string :=
  match fuel with
  | O => ""
  | S fuel' =>
    match s with
    | "" => ""
    | _ =>
      let '(r, w) := DecodeRuneInString s in
      if IsSpace r then trim_left fuel' (Strings.drop w s) else s
    end
  end.
Definition TrimLeftSpace (s : string) : string := trim_left (String.length s) s.

(** [lastIndexFunc(s, unicode.IsSpace, false)]: the index of the last rune
    that is not white space, decoding from the end; [None] is -1. *)
Fixpoint last_index_not_space (fuel : nat) (s : string) : option nat :=
  match fuel with
  | O => None
  | S fuel' =>
    match s with
    | "" => None
    | _ =>
      let '(r, size) := DecodeLastRuneInString s in
      let i := String.length s - size in
      if IsSpace r then last_index_not_space fuel' (Strings.take i s) else Some i
    end
  end.

(** [strings.TrimRightFunc(s, unicode.IsSpace)]. *)
Definition TrimRightSpace (s : string) : string :=
  match last_index_not_space (String.length s) s with
  | Some i =>
    if (128 <=? byte (Path.get i s))%N
    then Strings.take (i + (DecodeRuneInString (Strings.drop i s)).2) s
    else Strings.take (i + 1) s
  | None => ""
  end.

(** [strings.TrimSpace]. *)
Definition TrimSpace (s : string) : string := TrimRightSpace (TrimLeftSpace s).

Section Mapping.

(** The lower case of the code points beyond ASCII comes from the tables
    of the Unicode standard, which are a parameter. *)
Variable ToLowerTable : N → N.

(** [unicode.ToLower]. *)
Definition unicode_ToLower (r : N) : N :=
  if (r <=? 127)%N then
    if ((65 <=? r) && (r <=? 90))%N then (r + 32)%N else r
  else ToLowerTable r.

(** [strings.Map(mapping, s)]: the bytes of the input are kept as long as
    no rune has changed; from the first rune that the mapping changes,
    every rune is encoded anew (an invalid byte as [RuneError]). *)
Fixpoint map_runes (mapping : N → N) (fuel : nat) (changed : bool) (s : string)
  : string :=
  match fuel with
  | O => ""
  | S fuel' =>
    match s with
    | "" => ""
    | _ =>
      let '(c, w) := DecodeRuneInString s in
      let r := mapping c in
      if negb changed && (r =? c)%N
      then Strings.take w s +:+ map_runes mapping fuel' false (Strings.drop w s)
      else EncodeRune r +:+ map_runes mapping fuel' true (Strings.drop w s)
    end
  end.

(** [strings.ToLower]. *)
Definition ToLower (s : string) : string :=
  map_runes unicode_ToLower (String.length s) false s.

End Mapping.

End GoStrings.

(** ** Media types (Go package mime, as of Go 1.6) *)

Module Mime.
Import Utf8 Unicode GoStrings.

Definition quote : ascii := "034"%char.
Definition backslash : ascii := "\"%char.

(** [isTSpecial]: the tspecials of RFC 1521 and RFC 2045, that is the
    parentheses, angle brackets and square brackets, the at sign, comma,
    semicolon, colon, backslash, double quote, slash, question mark and
    equals sign. *)
Definition isTSpecial (c : ascii) : bool :=
  GoStrings.contains c "()<>@,;:\/[]?=" || bool_decide (c = quote).

(** [isTokenChar]: any US-ASCII character except space, control
    characters and tspecials.  The source tests runes; a byte of a rune
    beyond ASCII is not below 127, so testing bytes is the same. *)
Definition isTokenChar (c : ascii) : bool :=
  (32 <? byte c)%N && (byte c <? 127)%N && negb (isTSpecial c).

(** [isToken]. *)
Definition isToken (s : string) : bool :=
  negb (bool_decide (s = "")) && Strings.forallb isTokenChar s.

(** [consumeToken]: the longest prefix of token characters, and the
    rest. *)
Definition consumeToken (v : string) : string * string :=
  (Strings.take_while isTokenChar v, Strings.drop_while isTokenChar v).

(** The loop of [consumeValue] over the runes of a quoted string, after
    the opening quote: a backslash makes the next rune literal, a quote
    ends the string, a carriage return or line feed is refused.  [None]
    when the string is refused or the closing quote is missing. *)
Fixpoint quoted (fuel : nat) (rest : string) (buffer : string) (nextIsLiteral : bool)
  : option (string * string) :=
  match fuel with
  | O => None
  | S fuel' =>
    match rest with
    | "" => None
    | _ =>
      let '(r, w) := DecodeRuneInString rest in
      let rest' := Strings.drop w rest in
      if nextIsLiteral then quoted fuel' rest' (buffer +:+ EncodeRune r) false
      else if (r =? byte quote)%N then Some (buffer, rest')
      else if (r =? byte backslash)%N then quoted fuel' rest' buffer true
      else if negb (r =? 13)%N && negb (r =? 10)%N
           then quoted fuel' rest' (buffer +:+ EncodeRune r) false
      else None
    end
  end.

(** [consumeValue]: a token or a quoted string; [("", v)] on failure. *)
Definition consumeValue (v : string) : string * string :=
  match v with
  | "" => ("", "")
  | String c rest =>
    if negb (bool_decide (c = quote)) then consumeToken v
    else match quoted (String.length rest) rest "" false with
         | Some res => res
         | None => ("", v)
         end
  end.

(** [ishex] and [unhex]. *)
Definition ishex (c : ascii) : bool :=
  Utf8.in_range 48 57 c || Utf8.in_range 97 102 c || Utf8.in_range 65 70 c.
Definition unhex (c : ascii) : N :=
  if Utf8.in_range 48 57 c then (byte c - 48)%N
  else if Utf8.in_range 97 102 c then (byte c - 97 + 10)%N
  else if Utf8.in_range 65 70 c then (byte c - 65 + 10)%N
  else 0%N.

(** The first pass of [percentHexUnescape]: every percent sign is
    followed by two hexadecimal digits. *)
Fixpoint percents_ok (s : string) : bool :=
  match s with
  | "" => true
  | String c rest =>
    if bool_decide (c = "%"%char) then
      match rest with
      | String h1 (String h2 rest') => ishex h1 && ishex h2 && percents_ok rest'
      | _ => false
      end
    else percents_ok rest
  end.

(** The second pass of [percentHexUnescape]. *)
Fixpoint unescape (s : string) : string :=
  match s with
  | "" => ""
  | String c rest =>
    if bool_decide (c = "%"%char) then
      match rest with
      | String h1 (String h2 rest') =>
        String (chr (N.lor (N.shiftl (unhex h1) 4) (unhex h2))) (unescape rest')
      | _ => ""
      end
    else String c (unescape rest)
  end.

(** [percentHexUnescape], with the empty string for the error (its
    callers drop the error and use the string). *)
Definition percentHexUnescape (s : string) : string :=
  if percents_ok s then unescape s else "".

Section WithTables.

Variable ToLowerTable : N → N.

Local Abbreviation ToLower := (GoStrings.ToLower ToLowerTable).

(** [decode2231Enc]: [charset'lang'value]; the empty string unless there
    are two apostrophes and the charset is us-ascii or utf-8. *)
Definition decode2231Enc (v : string) : string :=
  if GoStrings.contains "'"%char v then
    let rest := Strings.drop 1 (GoStrings.from "'"%char v) in
    if GoStrings.contains "'"%char rest then
      let charset := ToLower (GoStrings.before "'"%char v) in
      if bool_decide (charset = "us-ascii") || bool_decide (charset = "utf-8")
      then percentHexUnescape (Strings.drop 1 (GoStrings.from "'"%char rest))
      else ""
    else ""
  else "".

(** [checkMediaTypeDisposition]: [true] when the error is nil. *)
Definition checkMediaTypeDisposition (s : string) : bool :=
  let '(typ, rest) := consumeToken s in
  if bool_decide (typ = "") then false
  else if bool_decide (rest = "") then true
  else if negb (Strings.HasPrefix rest "/") then false
  else
    let '(subtype, rest) := consumeToken (Strings.drop 1 rest) in
    if bool_decide (subtype = "") then false
    else bool_decide (rest = "").

(** [consumeMediaParam]: the parameter, its value and the rest; the
    parameter is empty on failure. *)
Definition consumeMediaParam (v : string) : string * string * string :=
  let rest := TrimLeftSpace v in
  if negb (Strings.HasPrefix rest ";") then ("", "", v)
  else
    let rest := Strings.drop 1 rest in
    let rest := TrimLeftSpace rest in
    let '(param, rest) := consumeToken rest in
    let param := ToLower param in
    if bool_decide (param = "") then ("", "", v)
    else
      let rest := TrimLeftSpace rest in
      if negb (Strings.HasPrefix rest "=") then ("", "", v)
      else
        let rest := Strings.drop 1 rest in
        let rest := TrimLeftSpace rest in
        let '(value, rest) := consumeValue rest in
        if bool_decide (value = "") then ("", "", v)
        else (param, value, rest).

(** The maps that the loop of [ParseMediaType] fills: the parameters, and
    for every base name the parameters with a star. *)
Record parsing : Type := mkParsing {
  params : gmap string string;
  continuation : gmap string (gmap string string)
}.

(** What the loop of [ParseMediaType] ends with. *)
Inductive loop_end : Type :=
| Finished (st : parsing)
| TrailingSemicolon (st : parsing)
| Invalid.

(** The loop of [ParseMediaType] over the parameters (the input after the
    media type).  Every turn reads at least the semicolon, so [len(v)]
    turns and one are enough. *)
Fixpoint parse_params (fuel : nat) (v : string) (st : parsing) : loop_end :=
  match fuel with
  | O => Invalid
  | S fuel' =>
    if bool_decide (v = "") then Finished st
    else
      let v := TrimLeftSpace v in
      if bool_decide (v = "") then Finished st
      else
        let '(key, value, rest) := consumeMediaParam v in
        if bool_decide (key = "") then
          if bool_decide (TrimSpace rest = ";") then TrailingSemicolon st
          else Invalid
        else if GoStrings.contains "*"%char key then
          let baseName := GoStrings.before "*"%char key in
          let pmap := default ∅ (continuation st !! baseName) in
          match pmap !! key with
          | Some _ => Invalid
          | None =>
            parse_params fuel' rest
              (mkParsing (params st)
                         (<[baseName := <[key := value]> pmap]> (continuation st)))
          end
        else
          match params st !! key with
          | Some _ => Invalid
          | None =>
            parse_params fuel' rest
              (mkParsing (<[key := value]> (params st)) (continuation st))
          end
  end.

(** [fmt.Sprintf] of a key, a star and a decimal number. *)
Definition simple_part (key : string) (n : nat) : string :=
  key +:+ "*" +:+ NilZero.string_of_uint (Nat.to_uint n).

(** The loop [for n := 0; ; n++] that stitches the numbered pieces of a
    parameter: the pieces found from [n] on, decoded.  Every turn but the
    last finds another key of [pieceMap], so [len(pieceMap)] turns and
    one are enough. *)
Fixpoint pieces (fuel : nat) (key : string) (pieceMap : gmap string string) (n : nat)
  : list string :=
  match fuel with
  | O => []
  | S fuel' =>
    let simplePart := simple_part key n in
    match pieceMap !! simplePart with
    | Some v => v :: pieces fuel' key pieceMap (S n)
    | None =>
      match pieceMap !! (simplePart +:+ "*") with
      | Some v =>
        (if n =? 0 then decode2231Enc v else percentHexUnescape v)
          :: pieces fuel' key pieceMap (S n)
      | None => []
      end
    end
  end.

(** The body of the loop that stitches the continuations, for one base
    name. *)
Definition stitch (key : string) (pieceMap : gmap string string)
    (params : gmap string string) : gmap string string :=
  match pieceMap !! (key +:+ "*") with
  | Some v => <[key := decode2231Enc v]> params
  | None =>
    match pieces (S (size pieceMap)) key pieceMap 0 with
    | [] => params
    | ps => <[key := String.concat "" ps]> params
    end
  end.

(** [mime.ParseMediaType]: the media type and the parameters, or [None]
    for an error. *)
Definition ParseMediaType (v : string) : option (string * gmap string string) :=
  let mediatype := TrimSpace (ToLower (GoStrings.before ";"%char v)) in
  if negb (checkMediaTypeDisposition mediatype) then None
  else
    let v := GoStrings.from ";"%char v in
    match parse_params (S (String.length v)) v (mkParsing ∅ ∅) with
    | Invalid => None
    | TrailingSemicolon st => Some (mediatype, params st)
    | Finished st =>
      Some (mediatype, map_fold stitch (params st) (continuation st))
    end.

(** The test [character&0x80 != 0] of [FormatMediaType] over the runes of
    a value. *)
Fixpoint has_high_rune (fuel : nat) (value : string) : bool :=
  match fuel with
  | O => false
  | S fuel' =>
    match value with
    | "" => false
    | _ =>
      let '(character, w) := DecodeRuneInString value in
      negb (N.land character 128 =? 0)%N || has_high_rune fuel' (Strings.drop w value)
    end
  end.

(** A backslash before every double quote and backslash. *)
Fixpoint escape (value : string) : string :=
  match value with
  | "" => ""
  | String c rest =>
    if bool_decide (c = quote) || bool_decide (c = backslash)
    then String backslash (String c (escape rest))
    else String c (escape rest)
  end.

(** The loop of [FormatMediaType] over the sorted attributes; [None] when
    it returns the empty string. *)
Fixpoint format_params (attrs : list string) (param : gmap string string)
  : option string :=
  match attrs with
  | [] => Some ""
  | attribute :: attrs' =>
    let value := default "" (param !! attribute) in
    if negb (isToken attribute) then None
    else
      let head := "; " +:+ ToLower attribute +:+ "=" in
      if isToken value then
        tail ← format_params attrs' param; Some (head +:+ value +:+ tail)
      else if has_high_rune (String.length value) value then None
      else
        tail ← format_params attrs' param;
        Some (head +:+ String quote (escape value) +:+ String quote tail)
  end.

(** [mime.FormatMediaType]. *)
Definition FormatMediaType (t : string) (param : gmap string string) : string :=
  if negb (GoStrings.contains "/"%char t) then ""
  else
    let major := GoStrings.before "/"%char t in
    let sub := Strings.drop 1 (GoStrings.from "/"%char t) in
    if negb (isToken major) || negb (isToken sub) then ""
    else
      match format_params (Sort.Strings (range_keys param)) param with
      | Some ps => ToLower major +:+ "/" +:+ ToLower sub +:+ ps
      | None => ""
      end.

End WithTables.

End Mime.

(** ** Canonical media type identifiers *)

Module MediaTypes.
Import GoStrings Mime API.

Section WithTables.

Variable ToLowerTable : N → N.

(** [CanonicalIdentifier] (api.go, lines 636-648). *)
Definition CanonicalIdentifier (identifier : string) : string :=
  match ParseMediaType ToLowerTable identifier with
  | None => identifier
  | Some (base, params) =>
    let id := GoStrings.before "+"%char base in
    FormatMediaType ToLowerTable id params
  end.

(** The loop of [MediaTypeWithIdentifier] over the media types in the
    order [order] in which [range] yields them. *)
Definition find_media_type (canonicalID : string)
    (order : list (string * MediaType.MediaTypeDefinition))
  : option MediaType.MediaTypeDefinition :=
  (fun x => x.2.2) <$>
    list_find (fun kv => canonicalID = CanonicalIdentifier (MediaType.Identifier kv.2))
              order.

(** [APIDefinition.MediaTypeWithIdentifier] (api.go, lines 393-407); a
    nil result is [None]. *)
Definition MediaTypeWithIdentifier (a : APIDefinition) (id : string)
  : option MediaType.MediaTypeDefinition :=
  find_media_type (CanonicalIdentifier id) (map_to_list (MediaTypes a)).

End WithTables.

End MediaTypes.

(** ** Bytes and ASCII strings *)

Module Bytes.
Import Utf8 Unicode.

(** The 256 bytes. *)
Definition all_bytes : list ascii :=
  Eval vm_compute in map ascii_of_nat (seq 0 256).

(** The byte belongs to a rune beyond ASCII. *)
Definition high (c : ascii) : bool := (128 <=? byte c)%N.

(** Six more bits below [a]. *)
Definition push (a b : N) : N := N.lor (N.shiftl a 6) b.

(** The ranges of the second byte of an encoding of three and of four
    bytes, which depend on the first byte. *)
Definition ok1_3 (b0 b1 : ascii) : bool :=
  in_range (if decide (byte b0 = 224%N) then 160 else 128)
           (if decide (byte b0 = 237%N) then 159 else 191) b1.
Definition ok1_4 (b0 b1 : ascii) : bool :=
  in_range (if decide (byte b0 = 240%N) then 144 else 128)
           (if decide (byte b0 = 244%N) then 143 else 191) b1.

Definition is_ascii (c : ascii) : bool := (byte c <? 128)%N.

(** The lower case of an ASCII letter. *)
Definition lower_byte (c : ascii) : ascii :=
  if ((65 <=? byte c) && (byte c <=? 90))%N
  then chr (byte c + 32) else c.

Fixpoint lower_ascii (s : string) : string :=
  match s with
  | "" => ""
  | String c s' => String (lower_byte c) (lower_ascii s')
  end.

Definition ascii_space (c : ascii) : bool := IsSpace (byte c).

(** An ASCII byte that is not white space. *)
Definition plain (c : ascii) : bool := is_ascii c && negb (ascii_space c).

End Bytes.

(** ** What [FormatMediaType] writes *)

Module Written.
Import Bytes GoStrings Mime.

(** The byte is not [d]. *)
Definition is_not (d : ascii) (c : ascii) : bool := negb (bool_decide (c = d)).

(** The text is empty or starts with a semicolon. *)
Definition stops (s : string) : Prop := s = "" ∨ ∃ t, s = String ";" t.

(** How [FormatMediaType] writes a value before [tail]: a token as it is,
    anything else between quotes. *)
Definition written (value : string) (tail : string) : string :=
  if isToken value then value +:+ tail
  else String quote (escape value) +:+ String quote tail.

(** The parameters of [param] under the names [attrs], put into [acc] one
    after the other. *)
Definition inserted (attrs : list string) (param acc : gmap string string)
  : gmap string string :=
  foldl (fun acc k => <[k := default "" (param !! k)]> acc) acc attrs.

(** A parameter name in lower case and without a star. *)
Definition good (k : string) : Prop :=
  lower_ascii k = k ∧ GoStrings.contains "*"%char k = false.

Definition good_keys {V} (m : gmap string V) : Prop :=
  ∀ k, is_Some (m !! k) → good k.

End Written.

(** ** What path composition reads of a resource *)

Module PathSkeleton.
Import Action Resource API.

(** Two resources with the same base path, parent, canonical action and
    routes: [Finalize] changes nothing else that path composition reads. *)
Definition same_routes (r1 r2 : ResourceDefinition) : Prop :=
  Resource.BasePath r1 = Resource.BasePath r2 ∧
  ParentName r1 = ParentName r2 ∧
  CanonicalActionName r1 = CanonicalActionName r2 ∧
  ∀ n, Routes <$> (Actions r1 !! n) = Routes <$> (Actions r2 !! n).

Definition same_resources (D1 D2 : APIDefinition) : Prop :=
  ∀ k, option_Forall2 same_routes (Resources D1 !! k) (Resources D2 !! k).

End PathSkeleton.

(** ** Sample definitions *)

Module Examples.
Import Route Action Resource API.

(** A resource response [OK] without status and the API response [OK]
    with status 200. *)
Definition resp_ok : Response.ResponseDefinition :=
  Response.mkResponse "OK" 0 "" None "" None false false.
Definition api_ok : Response.ResponseDefinition :=
  Response.mkResponse "OK" 200 "" None "" None false true.

(** An API whose default scope has base path [/:org] and whose version
    [v2] has base path [/v2]; the resource [widgets] has one action with
    the route [GET /:id] and no declared parameter. *)
Definition default_scope : Version.APIVersionDefinition :=
  Version.mkVersion "" "/:org" None ∅ ∅.
Definition v2_scope : Version.APIVersionDefinition :=
  Version.mkVersion "v2" "/v2" None ∅ ∅.
Definition show : ActionDefinition :=
  mkAction "show" [mkRoute "GET" "/:id"] ∅ None None.
Definition widgets : ResourceDefinition :=
  mkResource "widgets" "/widgets" None "" [] {[ "show" := show ]} "" ∅.
Definition api : APIDefinition :=
  mkAPI default_scope {[ "v2" := v2_scope ]} {[ "widgets" := widgets ]} ∅ ∅.

(** The resource [widgets] once finalized. *)
Definition widgets_final : ResourceDefinition :=
  match Design.Finalize 1 api widgets with
  | Ok r => r
  | _ => widgets
  end.
Definition show_final : ActionDefinition :=
  default show (Actions widgets_final !! "show").

(** A parent resource without canonical action, and its child. *)
Definition orphanage : ResourceDefinition :=
  mkResource "parent" "/parents" None "" [] ∅ "" ∅.
Definition child : ResourceDefinition :=
  mkResource "child" "/children" None "parent" [] ∅ "" ∅.
Definition family : APIDefinition :=
  mkAPI (Version.mkVersion "" "/api" None ∅ ∅) ∅
        {[ "parent" := orphanage; "child" := child ]} ∅ ∅.

(** The nested resources of the specification: the canonical action of
    the parent has the route [/:parentID]. *)
Definition parent_show : ActionDefinition :=
  mkAction "show" [mkRoute "GET" "/:parentID"] ∅ None None.
Definition parent : ResourceDefinition :=
  mkResource "parent" "/parents" None "" [] {[ "show" := parent_show ]} "" ∅.
Definition nested : APIDefinition :=
  mkAPI (Version.mkVersion "" "" None ∅ ∅) ∅
        {[ "parent" := parent; "child" := child ]} ∅ ∅.

(** An absolute route. *)
Definition absolute_route : RouteDefinition := mkRoute "GET" "//health/./check".

(** An API with two media types, stored under their canonical
    identifiers. *)
Definition foo_media : MediaType.MediaTypeDefinition :=
  MediaType.mkMediaType "application/vnd.foo+json" [].
Definition bar_media : MediaType.MediaTypeDefinition :=
  MediaType.mkMediaType "application/vnd.bar; type=collection" [].
Definition media_api : APIDefinition :=
  mkAPI default_scope ∅ ∅ ∅
    {[ "application/vnd.foo" := foo_media;
       "application/vnd.bar; type=collection" := bar_media ]}.

(** The identity instead of the tables of the Unicode standard: the
    identifiers of the examples are ASCII, for which the tables are not
    consulted. *)
Definition no_table : N → N := fun r => r.

End Examples.

(** ** Copies of response definitions *)

Module ResponseDup.
Import Att Response.

(** [ResponseDefinition.Dup] (api.go, lines 930-942): the name, the
    status, the description, the media type and a duplicate of the
    headers; the other fields of the copy have their zero value. *)
Definition Dup (r : ResponseDefinition) : ResponseDefinition :=
  mkResponse (Name r) (Status r) (Description r) None (MediaType r)
             (DupAtt <$> Headers r) false false.

(** The zero value [ResponseDefinition{}]. *)
Definition zero : ResponseDefinition :=
  mkResponse "" 0 "" None "" None false false.

(** The four fields that [Merge] fills when they are unset. *)
Record fields : Type := mkFields {
  f_name : string;
  f_status : Z;
  f_description : string;
  f_media_type : string
}.

Definition fields_of (r : ResponseDefinition) : fields :=
  mkFields (Name r) (Status r) (Description r) (MediaType r).

Definition set_fields (r : ResponseDefinition) (f : fields) : ResponseDefinition :=
  mkResponse (f_name f) (f_status f) (f_description f) (Response.Type_ r)
             (f_media_type f) (Headers r) (Standard r) (Global r).

(** A field that is set is kept; one that is unset is taken from [o]. *)
Definition pick_fields (f o : fields) : fields :=
  mkFields (if decide (f_name f = "") then f_name o else f_name f)
           (if decide (f_status f = 0%Z) then f_status o else f_status f)
           (if decide (f_description f = "") then f_description o else f_description f)
           (if decide (f_media_type f = "") then f_media_type o else f_media_type f).

(** The headers of a response as a map: none when the response has no
    header attribute or one that is no object. *)
Definition headers_of (r : ResponseDefinition) : gmap string AttributeDefinition :=
  match Headers r with
  | Some h => default ∅ (ToObject (Att.Type_ h))
  | None => ∅
  end.

(** The second half of [Merge] (api.go, lines 961-974), for the headers
    [om] of the other definition. *)
Definition put_headers (r : ResponseDefinition) (om : gmap string AttributeDefinition)
  : result ResponseDefinition :=
  if decide (0 < size om) then
    match Headers r with
    | None =>
      Ok (mkResponse (Name r) (Status r) (Description r) (Response.Type_ r) (MediaType r)
            (Some (mkAttribute (Object (merge_headers ∅ om)) ∅))
            (Standard r) (Global r))
    | Some rh =>
      match ToObject (Att.Type_ rh) with
      | Some h =>
        Ok (mkResponse (Name r) (Status r) (Description r) (Response.Type_ r)
              (MediaType r)
              (Some (mkAttribute (Object (merge_headers h om)) (NonZeroAttributes rh)))
              (Standard r) (Global r))
      | None => Panic
      end
    end
  else Ok r.

End ResponseDup.

(** ** Encoders *)

Module Encoding.

(** [EncodingDefinition] (api.go, lines 197-206). *)
Record EncodingDefinition : Type := mkEncoding {
  MIMETypes : list string;
  PackagePath : string
}.

(** [KnownEncoders] (api.go, lines 34-48): for a MIME type, the package,
    the encoder factory and the decoder factory. *)
Definition KnownEncoders : gmap string (string * string * string) :=
  list_to_map
    [ ("application/json", ("json", "JSONEncoderFactory", "JSONDecoderFactory"));
      ("application/xml", ("xml", "XMLEncoderFactory", "XMLDecoderFactory"));
      ("text/xml", ("xml", "XMLEncoderFactory", "XMLDecoderFactory"));
      ("application/gob", ("gob", "GobEncoderFactory", "GobDecoderFactory"));
      ("application/x-gob", ("gob", "GobEncoderFactory", "GobDecoderFactory"));
      ("application/binc",
       ("github.com/goadesign/encoding/binc", "EncoderFactory", "DecoderFactory"));
      ("application/x-binc",
       ("github.com/goadesign/encoding/binc", "EncoderFactory", "DecoderFactory"));
      ("application/x-cbor",
       ("github.com/goadesign/encoding/cbor", "EncoderFactory", "DecoderFactory"));
      ("application/cbor",
       ("github.com/goadesign/encoding/cbor", "EncoderFactory", "DecoderFactory"));
      ("application/msgpack",
       ("github.com/goadesign/encoding/msgpack", "EncoderFactory", "DecoderFactory"));
      ("application/x-msgpack",
       ("github.com/goadesign/encoding/msgpack", "EncoderFactory", "DecoderFactory")) ].

(** [KnownEncoders[mimeType]]: the zero array for a missing key. *)
Definition known (mimeType : string) : string * string * string :=
  default ("", "", "") (KnownEncoders !! mimeType).

(** [KnownEncoders[mimeType][0]], the package. *)
Definition package (mimeType : string) : string := (known mimeType).1.1.

(** [HasKnownEncoder] (api.go, lines 837-841). *)
Definition HasKnownEncoder (mimeType : string) : bool :=
  negb (bool_decide ((known mimeType).1.2 = "")).

(** [IsGoaEncoder] (api.go, lines 843-847). *)
Definition IsGoaEncoder (pkgPath : string) : bool :=
  bool_decide (pkgPath = "json") || bool_decide (pkgPath = "xml")
  || bool_decide (pkgPath = "gob").

(** The loop of [SupportingPackages] over [mimeTypes[1:]] (api.go, lines
    868-878); [None] is the nil map that is returned for a MIME type
    without known encoder. *)
Fixpoint supporting_loop (ms : list string) (paths : gmap string (list string))
  : option (gmap string (list string)) :=
  match ms with
  | [] => Some paths
  | m :: ms' =>
    if negb (HasKnownEncoder m) then None
    else
      let e := package m in
      supporting_loop ms'
        (match paths !! e with
         | Some existing => <[e := existing ++ [m]]> paths
         | None => <[e := [m]]> paths
         end)
  end.

(** [EncodingDefinition.SupportingPackages] (api.go, lines 849-880). *)
Definition SupportingPackages (enc : EncodingDefinition)
  : option (gmap string (list string)) :=
  if negb (bool_decide (PackagePath enc = "")) then
    Some {[ PackagePath enc := MIMETypes enc ]}
  else
    match MIMETypes enc with
    | [] => None
    | m0 :: rest =>
      if negb (HasKnownEncoder m0) then None
      else
        let paths : gmap string (list string) := {[ package m0 := [m0] ]} in
        match rest with
        | [] => Some paths
        | _ => supporting_loop rest paths
        end
    end.

(** [JSONContentTypes], [XMLContentTypes] and [GobContentTypes] (api.go,
    lines 50-60). *)
Definition JSONContentTypes : list string := ["application/json"].
Definition XMLContentTypes : list string := ["application/xml"; "text/xml"].
Definition GobContentTypes : list string := ["application/gob"; "application/x-gob"].

(** [init] (api.go, lines 63-70): the value it gives to [DefaultEncoders]
    and to [DefaultDecoders]. *)
Definition init : list EncodingDefinition :=
  let types := ([] ++ JSONContentTypes) ++ XMLContentTypes in
  let types := types ++ GobContentTypes in
  [mkEncoding types ""].
Definition DefaultEncoders : list EncodingDefinition := init.
Definition DefaultDecoders : list EncodingDefinition := init.

(** The fields of [APIVersionDefinition] that [Finalize] reads and
    writes. *)
Record codecs : Type := mkCodecs {
  Consumes : list EncodingDefinition;
  Produces : list EncodingDefinition
}.

(** [APIVersionDefinition.Finalize] (api.go, lines 539-547). *)
Definition Finalize (v : codecs) : codecs :=
  mkCodecs (if decide (length (Consumes v) = 0) then DefaultDecoders else Consumes v)
           (if decide (length (Produces v) = 0) then DefaultEncoders else Produces v).

(** The MIME types of [ms] that the package [p] encodes, in the order of
    [ms]. *)
Definition encoded_by (p : string) (ms : list string) : list string :=
  filter (fun m => package m = p) ms.

End Encoding.

(** ** What a cleaned path is

    The specification says of a cleaned path that duplicate slashes are
    collapsed and that [.] and [..] are resolved.  This module says it on
    the elements of a path, without the loops of [httprouter.CleanPath]
    and of [path.Clean]; the properties compare the two. *)

Module PathSpec.
Import Path.

(** The elements of a path: what stands before, between and after its
    slashes.  The path [/a//b/] has the elements [""], [a], [""], [b]
    and [""]. *)
Fixpoint elements (p : string) : list string :=
  match p with
  | "" => [""]
  | String c p' =>
    if is_slash c then "" :: elements p'
    else match elements p' with
         | e :: rest => String c e :: rest
         | [] => [String c ""]
         end
  end.

(** An element that stays in a cleaned path: it is not empty, it is
    neither [.] nor [..], and it has no slash. *)
Definition real (e : string) : Prop :=
  e ≠ "" ∧ e ≠ "." ∧ e ≠ ".." ∧ Strings.forallb not_slash e = true.

(** The elements are resolved from left to right, [kept] being those
    that are kept so far: an empty element (a duplicate slash) and [.]
    are dropped, [..] takes away the element before it, when there is
    one, and every other element is kept. *)
Fixpoint resolve (es : list string) (kept : list string) : list string :=
  match es with
  | [] => kept
  | e :: es' =>
    if decide (e = "" ∨ e = ".") then resolve es' kept
    else if decide (e = "..") then resolve es' (removelast kept)
    else resolve es' (kept ++ [e])
  end.

(** The path [/e1/e2/.../en]; [/] when there is no element. *)
Definition rooted (es : list string) : string := "/" +:+ join_slash es.

(** A slash is kept at the end of a URL path of more than two bytes that
    ends with a slash, and of one whose last element is [.]. *)
Definition keeps_slash (p : string) : bool :=
  (2 <? String.length p) && bool_decide (last (elements p) = Some "")
  || bool_decide (last (elements p) = Some ".").

(** The cleaned URL path: the slash, the resolved elements with one
    slash between them, and the slash at the end when it is kept and
    there is an element before it. *)
Definition cleaned (p : string) : string :=
  let es := resolve (elements p) [] in
  rooted es +:+ (if keeps_slash p && negb (bool_decide (es = [])) then "/" else "").

(** The clean join of two paths: the elements of both, resolved, under
    the root. *)
Definition clean_join (base path : string) : string :=
  rooted (resolve (elements base ++ elements path) []).

End PathSpec.

(** ** What the cleaning loops have written *)

Module Cleaning.
Import Path PathSpec.

(** The elements after the first slash of [rest], where [rest] is what
    follows an element. *)
Definition after (rest : string) : list string :=
  match rest with
  | "" => []
  | String _ q => elements q
  end.

(** The output of the loop of [path.Clean] when it has kept the elements
    [kept]: under the root for a rooted path; after [k] elements [..]
    that could not be resolved for a path that is not rooted. *)
Definition output (rooted_path : bool) (k : nat) (kept : list string) : string :=
  if rooted_path then rooted kept else join_slash (repeat ".." k ++ kept).

(** The index [dotdot] of that loop: where going back must stop. *)
Definition stop_at (rooted_path : bool) (k : nat) : nat :=
  if rooted_path then 1 else String.length (join_slash (repeat ".." k)).

(** An element that a cleaning loop writes: an element that is kept, or
    [..]. *)
Definition solid (e : string) : Prop :=
  e ≠ "" ∧ e ≠ "." ∧ Strings.forallb not_slash e = true.

End Cleaning.

(** ** More sample definitions *)

Module PathExamples.
Import Route Action Resource API.

(** A resource that names itself as its parent; its canonical action
    has the relative route [/:id]. *)
Definition looping : ResourceDefinition :=
  mkResource "loop" "/loops" None "loop" []
             {[ "show" := mkAction "show" [mkRoute "GET" "/:id"] ∅ None None ]} "" ∅.
Definition looping_api : APIDefinition :=
  mkAPI (Version.mkVersion "" "/api" None ∅ ∅) ∅ {[ "loop" := looping ]} ∅ ∅.

End PathExamples.

(** ** Merging response maps (package genapp) *)

Module Genapp.

(** A Go map is a reference: two variables may hold the same map, and an
    assignment through one is seen through the other.  A map value is the
    address of its entries in a store, [None] being the nil map. *)
Abbreviation loc := positive (only parsing).
Abbreviation store V := (gmap loc (gmap string V)) (only parsing).

(** The entries of the map at [p]. *)
Definition entries {V : Type} (h : store V) (p : loc) : gmap string V :=
  default ∅ (h !! p).

(** The loop [for n, r := range r { l[n] = r }] (generator.go, lines
    262-264), for the entries of [r] in the order in which [range]
    yields them. *)
Definition merge_loop {V : Type} (l : loc) (order : list (string * V)) (h : store V)
  : store V :=
  foldl (fun h' nv => <[l := <[nv.1 := nv.2]> (entries h' l)]> h') h order.

(** [MergeResponses] (generator.go, lines 253-266); [order] is the order
    in which [range] yields the entries of [r]. *)
Definition MergeResponses_in {V : Type} (order : list (string * V)) (h : store V)
    (l r : option loc) : store V * option loc :=
  match l with
  | None => (h, r)
  | Some pl =>
    match r with
    | None => (h, l)
    | Some _ => (merge_loop pl order h, l)
    end
  end.

Definition MergeResponses {V : Type} (h : store V) (l r : option loc)
  : store V * option loc :=
  MergeResponses_in (match r with
                     | Some pr => map_to_list (entries h pr)
                     | None => []
                     end) h l r.


End Genapp.

(** * Properties *)

Import Att.

Section MergeFacts.
Import Response.

Lemma merge_headers_lookup (headers otherHeaders : gmap string AttributeDefinition) n :
  merge_headers headers otherHeaders !! n =
  match headers !! n with
  | Some h => Some h
  | None => otherHeaders !! n
  end.
Proof.
  unfold merge_headers.
  apply (map_fold_weak_ind
           (fun acc (m : gmap string AttributeDefinition) =>
              acc !! n = match headers !! n with Some h => Some h | None => m !! n end)).
  - rewrite lookup_empty. by destruct (headers !! n).
  - intros i x m acc Hi IH.
    destruct (acc !! i) eqn:Hacc.
    + rewrite IH. destruct (headers !! n) eqn:Hn; [done|].
      destruct (decide (i = n)) as [->|Hne].
      * congruence.
      * by rewrite lookup_insert_ne.
    + destruct (decide (i = n)) as [->|Hne].
      * rewrite lookup_insert_eq. rewrite Hacc in IH.
        destruct (headers !! n); [done|]. by rewrite lookup_insert_eq.
      * rewrite !lookup_insert_ne by done. done.
Qed.

Lemma headers_none_of_all_empty o oh :
  Headers o = Some oh → (∀ n, header o n = None) →
  len_obj (ToObject (Att.Type_ oh)) = 0.
Proof.
  intros Hh Hall. unfold header in Hall. rewrite Hh in Hall.
  destruct (ToObject (Att.Type_ oh)) as [m|]; [|done]. simpl in *.
  apply map_size_empty_iff, map_empty. exact Hall.
Qed.

(** C3.  [Merge] fills, from [other], the fields [Name], [Status],
    [Description] and [MediaType] of the receiver that are unset (empty
    string, status 0) and leaves the set ones as they are; a header of
    [other] is added when the receiver has no header of that name, and the
    headers of the receiver are kept; nothing else changes, and merging an
    all-empty [other] leaves the receiver unchanged.  [Merge] returns
    whenever the header attribute of the receiver, if any, is an object. *)
Theorem Merge_fills_unset_fields (r other : ResponseDefinition) :
  (headers_are_object r → ∃ r', Merge r (Some other) = Ok r') ∧
  ∀ r', Merge r (Some other) = Ok r' →
    Name r' = (if decide (Name r = "") then Name other else Name r) ∧
    Status r' = (if decide (Status r = 0%Z) then Status other else Status r) ∧
    Description r' =
      (if decide (Description r = "") then Description other else Description r) ∧
    MediaType r' =
      (if decide (MediaType r = "") then MediaType other else MediaType r) ∧
    (∀ n, header r' n =
          match header r n with
          | Some h => Some h
          | None => header other n
          end) ∧
    Response.Type_ r' = Response.Type_ r ∧
    Standard r' = Standard r ∧ Global r' = Global r ∧
    (all_empty other → r' = r).
Proof.
  split.
  - intros Hobj. unfold Merge, headers_are_object in *.
    destruct (Headers other) as [oh|]; [|eauto].
    case_decide; [|eauto].
    destruct (Headers r) as [h|]; simpl; [|eauto].
    destruct Hobj as [o ->]. eauto.
  - intros r' HM. unfold Merge in HM.
    destruct (Headers other) as [oh|] eqn:Hoh.
    + case_decide as Hlen.
      * destruct (ToObject (Att.Type_ (match Headers r with
                                       | Some h => h
                                       | None => mkAttribute (Object ∅) ∅
                                       end))) as [headers|] eqn:Hrh; [|done].
        injection HM as <-. simpl.
        repeat split; try done.
        -- intros n. unfold header at 1. simpl.
           rewrite merge_headers_lookup.
           unfold header. rewrite Hoh.
           destruct (ToObject (Att.Type_ oh)) as [om|]; [|simpl in Hlen; lia].
           simpl.
           destruct (Headers r) as [h|]; simpl in *.
           ++ rewrite Hrh. simpl. done.
           ++ injection Hrh as <-. by rewrite lookup_empty.
        -- intros (_ & _ & _ & _ & Hall).
           rewrite (headers_none_of_all_empty _ _ Hoh Hall) in Hlen. lia.
      * injection HM as <-. simpl. repeat split; try done.
        -- intros n. destruct (header r n) eqn:Hr; unfold header in *; simpl; [done|].
           rewrite Hr, Hoh.
           destruct (ToObject (Att.Type_ oh)) as [om|]; [|done]. simpl in *.
           assert (size om = 0) as ->%map_size_empty_iff by lia.
           by rewrite lookup_empty.
        -- intros (Hn & Hs & Hd & Hm & _). destruct r; simpl in *.
           rewrite Hn, Hs, Hd, Hm. repeat case_decide; congruence.
    + injection HM as <-. simpl. repeat split; try done.
      * intros n. unfold header at 1 3. simpl. rewrite Hoh.
        by destruct (header r n) eqn:E; unfold header in E; rewrite E.
      * intros (Hn & Hs & Hd & Hm & _). destruct r; simpl in *.
        rewrite Hn, Hs, Hd, Hm. repeat case_decide; congruence.
Qed.

(** C9.  [Merge] tolerates a nil argument: it returns at once and the
    receiver is unchanged. *)
Theorem Merge_nil_is_noop (r : ResponseDefinition) : Merge r None = Ok r.
Proof. reflexivity. Qed.

End MergeFacts.

Section WildcardFacts.
Import Regexp Wildcards.

Lemma length_drop_while_le p s :
  String.length (Strings.drop_while p s) ≤ String.length s.
Proof. induction s as [|c s IH]; simpl; [lia|]. destruct (p c); simpl; lia. Qed.

Lemma consumed_drop_while p s :
  consumed s (Strings.drop_while p s) = Strings.take_while p s.
Proof.
  unfold consumed. induction s as [|c s IH]; simpl; [done|].
  destruct (p c); simpl.
  - pose proof (length_drop_while_le p s).
    replace (S (String.length s) - String.length (Strings.drop_while p s))
      with (S (String.length s - String.length (Strings.drop_while p s))) by lia.
    simpl. by rewrite IH.
  - by rewrite Nat.sub_diag.
Qed.

(** The preferred match of a greedy repetition of a character class reads
    the whole run of characters of the class. *)
Lemma plus_class_head p n s caps :
  String.length s < n →
  head (plus_loop (run (Class p)) n s caps) =
  match s with
  | String a s' => if p a then Some (Strings.drop_while p s', caps) else None
  | "" => None
  end.
Proof.
  assert (Hstep : ∀ s caps, run (Class p) s caps =
            match s with
            | String a s' => if p a then [(s', caps)] else []
            | "" => []
            end) by done.
  generalize dependent (run (Class p)). intros step Hstep.
  revert s. induction n as [|n IH]; intros s Hn; [lia|].
  simpl. rewrite Hstep.
  destruct s as [|a s']; simpl; [done|].
  destruct (p a); simpl; [|done].
  rewrite app_nil_r.
  replace (String.length s' <? S (String.length s')) with true
    by (symmetry; apply Nat.ltb_lt; lia).
  simpl in Hn. specialize (IH s' ltac:(lia)).
  destruct (plus_loop step n s' caps) as [|x l] eqn:E; simpl in *.
  - destruct s' as [|b s'']; simpl; [done|]. by destruct (p b).
  - destruct s' as [|b s'']; simpl in *; [done|]. by destruct (p b).
Qed.

Lemma head_map {A B} (f : A → B) (l : list A) : head (map f l) = f <$> head l.
Proof. by destruct l. Qed.

(** The wildcard that starts at the very beginning of [s], with the input
    left after it. *)
Definition wild_here (s : string) : option (string * string) :=
  match s with
  | String c (String d after) =>
    if decide (c = "/"%char) then
      if decide (d = ":"%char ∨ d = "*"%char) then
        match Strings.take_while word_char after with
        | "" => None
        | name => Some (name, Strings.drop_while word_char after)
        end
      else None
    else None
  | _ => None
  end.

Lemma take_while_empty p s :
  Strings.take_while p s = "" →
  match s with String a _ => p a = false | "" => True end.
Proof. destruct s as [|a s]; simpl; [done|]. by destruct (p a). Qed.

Lemma match_here_WildcardRegex s :
  match_here WildcardRegex s =
  (fun '(name, rest) => (rest, [(1, name)])) <$> wild_here s.
Proof.
  unfold match_here, wild_here, WildcardRegex.
  destruct s as [|c [|d after]]; simpl.
  - done.
  - by destruct (decide (c = "/"%char)).
  - destruct (decide (c = "/"%char)) as [->|]; simpl; [|done].
    assert (Hg : head (run (Group 1 (Plus (Class word_char))) after []) =
                 (fun '(name, rest) => (rest, [(1, name)])) <$>
                 match Strings.take_while word_char after with
                 | "" => None
                 | name => Some (name, Strings.drop_while word_char after)
                 end).
    { change (run (Group 1 (Plus (Class word_char))) after [])
        with (map (fun '(s1, c1) => (s1, (1, consumed after s1) :: c1))
                  (plus_loop (run (Class word_char)) (S (String.length after))
                             after [])).
      rewrite head_map.
      rewrite plus_class_head by lia.
      destruct after as [|a s']; simpl; [done|].
      destruct (word_char a) eqn:Ha; simpl; [|done].
      pose proof (consumed_drop_while word_char (String a s')) as Hc.
      simpl in Hc. rewrite Ha in Hc. by rewrite Hc. }
    destruct (decide (d = ":"%char ∨ d = "*"%char)) as [[-> | ->]|Hd]; simpl.
    + rewrite !app_nil_r. exact Hg.
    + rewrite !app_nil_r. exact Hg.
    + destruct (decide (d = ":"%char)); [tauto|].
      destruct (decide (d = "*"%char)); [tauto|]. done.
Qed.

Lemma word_char_not_slash c : word_char c = true → c ≠ "/"%char.
Proof. intros H ->. vm_compute in H. done. Qed.

Lemma wildcard_names_drop_while s :
  wildcard_names (Strings.drop_while word_char s) = wildcard_names s.
Proof.
  induction s as [|c s IH]; simpl; [done|].
  destruct (word_char c) eqn:Hc; [|done].
  rewrite IH. by rewrite decide_False by by apply word_char_not_slash.
Qed.

Lemma length_take_while_drop_while p s :
  String.length (Strings.take_while p s) + String.length (Strings.drop_while p s)
  = String.length s.
Proof. induction s as [|c s IH]; simpl; [done|]. destruct (p c); simpl; lia. Qed.

Lemma wild_here_Some from name rest :
  wild_here from = Some (name, rest) →
  wildcard_names from = name :: wildcard_names rest ∧
  String.length rest + 3 ≤ String.length from.
Proof.
  unfold wild_here. destruct from as [|c [|d after]]; try done.
  destruct (decide (c = "/"%char)) as [->|]; [|done].
  destruct (decide (d = ":"%char ∨ d = "*"%char)) as [Hd|]; [|done].
  destruct (Strings.take_while word_char after) as [|a name'] eqn:Ht; [done|].
  intros [= <- <-]. split.
  - cbn [wildcard_names]. rewrite decide_True by done.
    rewrite decide_True by done. rewrite Ht. simpl.
    rewrite decide_False by (destruct Hd as [-> | ->]; done).
    simpl. by rewrite wildcard_names_drop_while.
  - pose proof (length_take_while_drop_while word_char after) as Hl.
    rewrite Ht in Hl. simpl in *. lia.
Qed.

Lemma wild_here_None s c :
  wild_here (String c s) = None →
  wildcard_names (String c s) = wildcard_names s.
Proof.
  unfold wild_here. cbn [wildcard_names].
  destruct (decide (c = "/"%char)) as [->|]; [|by destruct s].
  destruct s as [|d after]; [done|].
  destruct (decide (d = ":"%char ∨ d = "*"%char)); [|done].
  by destruct (Strings.take_while word_char after).
Qed.

Lemma search_WildcardRegex s :
  match search WildcardRegex s with
  | None => wildcard_names s = []
  | Some (from, rest, caps) =>
    ∃ name, wild_here from = Some (name, rest) ∧ caps = [(1, name)] ∧
            wildcard_names s = wildcard_names from ∧
            String.length from ≤ String.length s
  end.
Proof.
  induction s as [|c s IH]; cbn [search].
  - rewrite match_here_WildcardRegex. done.
  - rewrite match_here_WildcardRegex.
    destruct (wild_here (String c s)) as [[name rest]|] eqn:Hw;
      cbn -[wild_here wildcard_names].
    + exists name. done.
    + rewrite (wild_here_None _ _ Hw).
      destruct (search WildcardRegex s) as [[[from rest] caps]|]; [|done].
      destruct IH as (name & ? & ? & ? & ?). exists name. repeat split; auto.
Qed.

Lemma allMatches_WildcardRegex fuel cur prev :
  String.length cur < fuel →
  map (fun m => nth 1 m "")
      (map (fun '(whole, caps) => whole :: map (submatch caps) (seq 1 1))
           (allMatches fuel WildcardRegex cur prev)) = wildcard_names cur.
Proof.
  revert cur prev. induction fuel as [|fuel IH]; intros cur prev Hf; [lia|].
  cbn [allMatches]. pose proof (search_WildcardRegex cur) as Hs.
  destruct (search WildcardRegex cur) as [[[from rest] caps]|]; [|done].
  destruct Hs as (name & Hw & -> & Hn & Hl).
  apply wild_here_Some in Hw as [Hw Hlen].
  rewrite decide_False by lia.
  simpl. rewrite IH by lia. rewrite Hn, Hw. done.
Qed.

(** C10.  [ExtractWildcards] returns, from left to right, the maximal
    runs of letters, digits and underscores that immediately follow a
    slash and a colon or star: the matches of the regular expression,
    found by the leftmost-first search of the library, are the names
    that the specification describes position by position. *)
Theorem ExtractWildcards_spec (path : string) :
  ExtractWildcards path = wildcard_names path.
Proof.
  unfold ExtractWildcards, FindAllStringSubmatch.
  apply allMatches_WildcardRegex. lia.
Qed.

End WildcardFacts.

Section IterateFacts.

Lemma Strings_Permutation l : Sort.Strings l ≡ₚ l.
Proof. apply merge_sort_Permutation. Qed.

Lemma Strings_sorted l : StronglySorted String.le (Sort.Strings l).
Proof. apply StronglySorted_merge_sort; apply _. Qed.

(** The sorted slice does not depend on the order in which the names were
    collected. *)
Lemma Strings_order_irrelevant l1 l2 :
  l1 ≡ₚ l2 → Sort.Strings l1 = Sort.Strings l2.
Proof.
  intros Hp. apply (StronglySorted_unique String.le); try apply Strings_sorted.
  by rewrite !Strings_Permutation.
Qed.

Lemma elem_of_range_keys {V} (m : gmap string V) k :
  k ∈ range_keys m ↔ is_Some (m !! k).
Proof.
  unfold range_keys. rewrite list_elem_of_fmap. split.
  - intros ([k' v] & -> & Hin). apply elem_of_map_to_list in Hin. eauto.
  - intros [v Hv]. exists (k, v). split; [done|]. by apply elem_of_map_to_list.
Qed.

Lemma NoDup_range_keys {V} (m : gmap string V) : NoDup (range_keys m).
Proof. apply NoDup_fst_map_to_list. Qed.

Lemma elem_of_supporting_keys {V} (supports : V → bool) (m : gmap string V) k :
  k ∈ API.supporting_keys supports m ↔ ∃ v, m !! k = Some v ∧ supports v = true.
Proof.
  unfold API.supporting_keys. rewrite list_elem_of_fmap. split.
  - intros ([k' v] & -> & Hin). apply list_elem_of_filter in Hin as [Hs Hin].
    apply elem_of_map_to_list in Hin. eauto.
  - intros (v & Hv & Hs). exists (k, v). split; [done|].
    apply list_elem_of_filter. split; [done|]. by apply elem_of_map_to_list.
Qed.

Lemma NoDup_supporting_keys {V} (supports : V → bool) (m : gmap string V) :
  NoDup (API.supporting_keys supports m).
Proof.
  unfold API.supporting_keys.
  apply (NoDup_fmap_fst _). 
  - intros k v1 v2 [_ H1]%list_elem_of_filter [_ H2]%list_elem_of_filter.
    apply elem_of_map_to_list in H1, H2. congruence.
  - apply NoDup_filter, NoDup_map_to_list.
Qed.


Import IterateSpec.

Lemma iterate_fail_fast {K S E} (it : Visitor K S E) ks s :
  fail_fast it ks s (iterate it ks s).
Proof.
  revert s. induction ks as [|k ks IH]; intros s; simpl.
  - left. exists s. split; [done|]. constructor.
  - destruct (it k s) as [[s1 [e|]]| |] eqn:Hk; simpl.
    + right. exists [], k, ks, s. repeat split; [constructor|done|done].
    + destruct (IH s1) as [(s' & Hr & Hv)|(pre & k' & post & s2 & -> & Hv & Hk' & Hne)].
      * left. exists s'. split; [done|]. by econstructor.
      * right. exists (k :: pre), k', post, s2. repeat split; [|done|done].
        by econstructor.
    + right. exists [], k, ks, s. repeat split; [constructor|done|done].
    + right. exists [], k, ks, s. repeat split; [constructor|done|done].
Qed.

Lemma sorted_names_of_Strings (P : string → Prop) l :
  NoDup l → (∀ k, k ∈ l ↔ P k) → sorted_names_of P (Sort.Strings l).
Proof.
  intros Hnd Hl. split; [apply Strings_sorted|]. split.
  - by rewrite Strings_Permutation.
  - intros k. by rewrite Strings_Permutation.
Qed.

(** C6.  Every enumeration visits the keys in lexicographic order, each
    once, stops at the first call of the iterator that returns an error
    and returns that error unchanged; the enumeration of versions visits
    the default scope first and then the versions by sorted name. *)
Theorem Iterate_sorted_fail_fast {S : Type} :
  (∀ (it : Visitor string S error) (s : S),
    (∀ a, ∃ ks, sorted_names_of (fun k => is_Some (API.Resources a !! k)) ks ∧
                fail_fast it ks s (API.IterateResources a it s)) ∧
    (∀ a, ∃ ks, sorted_names_of (fun k => is_Some (API.MediaTypes a !! k)) ks ∧
                fail_fast it ks s (API.IterateMediaTypes a it s)) ∧
    (∀ a, ∃ ks, sorted_names_of (fun k => is_Some (API.Types a !! k)) ks ∧
                fail_fast it ks s (API.IterateUserTypes a it s)) ∧
    (∀ r, ∃ ks, sorted_names_of (fun k => is_Some (Resource.Actions r !! k)) ks ∧
                fail_fast it ks s (Resource.IterateActions r it s)) ∧
    (∀ v, ∃ ks, sorted_names_of (fun k => is_Some (Version.Responses v !! k)) ks ∧
                fail_fast it ks s (Version.IterateResponses v it s)) ∧
    (∀ D v, ∃ ks,
        sorted_names_of
          (fun k => ∃ r, API.Resources D !! k = Some r ∧
                         Resource.SupportsVersion r (Version.Version v) = true) ks ∧
        fail_fast it ks s (API.Version_IterateResources D v it s)) ∧
    (∀ D v, ∃ ks,
        sorted_names_of
          (fun k => ∃ m, API.MediaTypes D !! k = Some m ∧
                         MediaType.SupportsVersion m (Version.Version v) = true) ks ∧
        fail_fast it ks s (API.Version_IterateMediaTypes D v it s)) ∧
    (∀ D v, ∃ ks,
        sorted_names_of
          (fun k => ∃ u, API.Types D !! k = Some u ∧
                         UserType.SupportsVersion u (Version.Version v) = true) ks ∧
        fail_fast it ks s (API.Version_IterateUserTypes D v it s))) ∧
  (∀ (it : Visitor API.VersionRef S error) (s : S) a,
    ∃ ks, sorted_names_of (fun k => is_Some (API.APIVersions a !! k)) ks ∧
          fail_fast it (API.DefaultVersion :: map API.NamedVersion ks) s
                    (API.IterateVersions a it s)).
Proof.
  split.
  - intros it s. repeat split; intros;
      (eexists; split; [|apply iterate_fail_fast]);
      first [ apply sorted_names_of_Strings;
              [apply NoDup_range_keys | apply elem_of_range_keys]
            | apply sorted_names_of_Strings;
              [apply NoDup_supporting_keys | apply elem_of_supporting_keys] ].
  - intros it s a. eexists. split; [|apply iterate_fail_fast].
    apply sorted_names_of_Strings;
      [apply NoDup_range_keys | apply elem_of_range_keys].
Qed.

(** The names are collected from the map in an unspecified order; the
    iteration does not depend on it. *)
Lemma iterate_range_order_irrelevant {V S} (m : gmap string V)
    (it : Visitor string S error) s order :
  order ≡ₚ range_keys m →
  iterate it (Sort.Strings order) s = iterate it (Sort.Strings (range_keys m)) s.
Proof. intros H. by rewrite (Strings_order_irrelevant _ _ H). Qed.

End IterateFacts.

Section PathFacts.
Import Path Httprouter.

Lemma back_ge buf stop w : stop ≤ w → stop ≤ back buf stop w.
Proof.
  induction w as [|w IH]; intros Hw; simpl; [done|].
  destruct (stop <? S w) eqn:Hlt; simpl; [|done].
  destruct (not_slash (get (S w) buf)); [|done].
  apply IH. apply Nat.ltb_lt in Hlt. lia.
Qed.

Lemma take_nonempty n s : 0 < n → s ≠ "" → Strings.take n s ≠ "".
Proof. destruct n, s; simpl; try done; lia. Qed.

Lemma app_nonempty_l (s t : string) : s ≠ "" → s +:+ t ≠ "".
Proof. by destruct s. Qed.

Lemma clean_loop_nonempty fuel p o trailing :
  o ≠ "" → (Httprouter.clean_loop fuel p o trailing).1 ≠ "".
Proof.
  revert p o trailing. induction fuel as [|fuel IH]; intros p o trailing Ho; simpl; [done|].
  destruct p as [|c p1]; [done|].
  repeat case_match; apply IH;
    first [ done
          | by apply app_nonempty_l, app_nonempty_l
          | by apply app_nonempty_l
          | apply take_nonempty; [|done];
            match goal with H : (1 <? _) = true |- _ => apply Nat.ltb_lt in H end;
            pose proof (back_ge o 1 (String.length o - 1)); lia ].
Qed.

(** The result of [CleanPath] is never the empty string. *)
Lemma CleanPath_nonempty p : CleanPath p ≠ "".
Proof.
  unfold CleanPath. destruct p as [|c p]; [done|].
  match goal with |- context [Httprouter.clean_loop ?f ?q ?o ?t] =>
    pose proof (clean_loop_nonempty f q o t ltac:(done)) as H;
    destruct (Httprouter.clean_loop f q o t) as [o' t'] end.
  simpl in H. case_match; [by apply app_nonempty_l|done].
Qed.

End PathFacts.

Section FullPathFacts.
Import Route Action Resource API Design.

(** C5, as amended.  When the parent has no canonical action, or one
    without route, the base is empty and the full path of the resource is
    the cleaned join of the empty base and of its own base path, which is
    never the empty string.  Without parent, the full path is the cleaned
    join of the base path of the scope and of the base path of the
    resource. *)
Theorem ResourceDefinition_FullPath_degrades (fuel : nat) (D : APIDefinition)
    (version : option Version.APIVersionDefinition) (r : ResourceDefinition) :
  (∀ p, Parent D r = Some p →
        (CanonicalAction p = None ∨
         ∃ ca, CanonicalAction p = Some ca ∧ Routes ca = []) →
        ResourceDefinition_FullPath (S fuel) D version r =
          Ok (Httprouter.CleanPath (Path.Join [""; BasePath r])) ∧
        ResourceDefinition_FullPath (S fuel) D version r ≠ Ok "") ∧
  (Parent D r = None →
   ∀ v, version = Some v →
        ResourceDefinition_FullPath (S fuel) D version r =
          Ok (Httprouter.CleanPath (Path.Join [Version.BasePath v; BasePath r]))).
Proof.
  split.
  - intros p Hp Hca.
    assert (ResourceDefinition_FullPath (S fuel) D version r =
            Ok (Httprouter.CleanPath (Path.Join [""; BasePath r]))) as E.
    { cbn [ResourceDefinition_FullPath]. rewrite Hp.
      destruct Hca as [-> | (ca & -> & ->)]; done. }
    split; [done|]. rewrite E. intros [= H]. by apply CleanPath_nonempty in H.
  - intros Hp v ->. cbn [ResourceDefinition_FullPath]. by rewrite Hp.
Qed.

End FullPathFacts.

Section LoopFacts.
Import Design.

Lemma rbind_Ok {A B} (m : result A) (f : A → result B) b :
  rbind m f = Ok b ↔ ∃ a, m = Ok a ∧ f a = Ok b.
Proof.
  destruct m; simpl; split; try done; try by intros (? & ? & ?).
  - eauto.
  - by intros (? & [= ->] & ?).
Qed.

Lemma for_each_app {X A} (g : X → A → result A) l1 l2 a :
  for_each g (l1 ++ l2) a = (a1 ←r for_each g l1 a ;; for_each g l2 a1).
Proof.
  revert a. induction l1 as [|x l1 IH]; intros a; simpl; [done|].
  destruct (g x a); simpl; auto.
Qed.

(** A loop whose body runs an inner loop over a list computed from the
    element is one loop over the concatenation of the lists. *)
Lemma for_each_nested {X Y A} (body : X → A → result A) (g : Y → A → result A)
    (gen : X → list Y → Prop) xs a a' :
  (∀ x a a', body x a = Ok a' → ∃ l, gen x l ∧ for_each g l a = Ok a') →
  for_each body xs a = Ok a' →
  ∃ ls, Forall2 gen xs ls ∧ for_each g (concat ls) a = Ok a'.
Proof.
  intros Hbody. revert a. induction xs as [|x xs IH]; intros a; simpl.
  - intros [= <-]. exists []. split; [constructor|done].
  - intros (a1 & H1 & H2)%rbind_Ok.
    apply Hbody in H1 as (l & Hl & H1).
    apply IH in H2 as (ls & Hls & H2).
    exists (l :: ls). split; [by constructor|].
    simpl. rewrite for_each_app, H1. done.
Qed.

(** An iteration whose iterator never returns an error is a plain loop. *)
Lemma iterate_no_error {K S E} (it : Visitor K S E) (body : K → S → result S) ks s :
  (∀ k s, it k s = (s' ←r body k s ;; Ok (s', None))) →
  iterate it ks s = (s' ←r for_each body ks s ;; Ok (s', None)).
Proof.
  intros Hit. revert s. induction ks as [|k ks IH]; intros s; simpl; [done|].
  rewrite Hit. destruct (body k s); simpl; auto.
Qed.

Lemma elem_of_concat_Forall2 {X Y} (gen : X → list Y → Prop) xs ls y :
  (∀ x l l', gen x l → gen x l' → l = l') →
  Forall2 gen xs ls →
  y ∈ concat ls ↔ ∃ x l, x ∈ xs ∧ gen x l ∧ y ∈ l.
Proof.
  intros Hfun. induction 1 as [|x l xs ls Hg HF IH]; simpl.
  - split; [by intros ?%elem_of_nil|]. by intros (x & l & ?%elem_of_nil & _).
  - rewrite elem_of_app, IH. split.
    + intros [Hy|(x' & l' & ? & ? & ?)].
      * exists x, l. repeat split; auto; by left.
      * exists x', l'. repeat split; auto; by right.
    + intros (x' & l' & Hx & Hg' & Hy).
      apply elem_of_cons in Hx as [->|Hx].
      * left. by rewrite (Hfun _ _ _ Hg Hg').
      * right. eauto.
Qed.

Lemma Forall2_gen_total {X Y} (gen : X → list Y → Prop) xs ls :
  Forall2 gen xs ls → ∀ x, x ∈ xs → ∃ l, gen x l.
Proof.
  induction 1 as [|x l xs ls Hg HF IH]; intros x' Hx.
  - by apply elem_of_nil in Hx.
  - apply elem_of_cons in Hx as [->|Hx]; eauto.
Qed.

End LoopFacts.

Section FinalizeFacts.
Import Route Action Resource API Design Params FinalizeSpec PathSkeleton.

Lemma add_wildcard_spec wc a a' :
  add_wildcard wc a = Ok a' →
  Routes a' = Routes a ∧ QueryParams a' = QueryParams a ∧
  is_Some (Params a') ∧ params_are_object a' ∧
  ∀ x, param a' x =
       match param a x with
       | Some v => Some v
       | None => if decide (x = wc) then Some implicit_param else None
       end.
Proof.
  unfold add_wildcard, param, params_are_object.
  destruct (Params a) as [all|] eqn:Hp; simpl.
  - destruct (ToObject (Att.Type_ all)) as [o|] eqn:Ho; [|done].
    case_decide as Hf; intros [= <-]; simpl; rewrite ?Ho.
    + repeat split; eauto. intros x. simpl.
      destruct (o !! x) eqn:Hx; [done|]. case_decide; [|done].
      subst. rewrite Hx in Hf. by destruct Hf.
    + repeat split; eauto. intros x. simpl.
      destruct (decide (x = wc)) as [->|Hne].
      * rewrite lookup_insert_eq. destruct (o !! wc) eqn:Hx; [|done].
        destruct Hf; eauto.
      * rewrite lookup_insert_ne by done. by destruct (o !! x).
  - rewrite lookup_empty. destruct (decide (is_Some _)) as [[? ?]|]; [done|].
    intros [= <-]; simpl. repeat split; eauto. intros x.
    destruct (decide (x = wc)) as [->|Hne].
    + by rewrite lookup_insert_eq.
    + by rewrite lookup_insert_ne, lookup_empty.
Qed.

Lemma add_wildcards_spec wcs a a' :
  for_each add_wildcard wcs a = Ok a' →
  Routes a' = Routes a ∧ QueryParams a' = QueryParams a ∧
  (wcs = [] → a' = a) ∧
  (wcs ≠ [] → is_Some (Params a') ∧ params_are_object a') ∧
  ∀ x, param a' x =
       match param a x with
       | Some v => Some v
       | None => if decide (x ∈ wcs) then Some implicit_param else None
       end.
Proof.
  revert a. induction wcs as [|wc wcs IH]; intros a; simpl.
  - intros [= <-]. repeat split; try done. intros x.
    destruct (param a x); [done|].
    destruct (decide (x ∈ [])) as [H%elem_of_nil|]; done.
  - intros (a1 & H1 & H2)%rbind_Ok.
    apply add_wildcard_spec in H1 as (Hr1 & Hq1 & Hs1 & Ho1 & Hp1).
    apply IH in H2 as (Hr2 & Hq2 & Hn2 & Hs2 & Hp2).
    repeat split; try congruence.
    + destruct wcs as [|w wcs']; [by rewrite Hn2|]. by apply Hs2.
    + destruct wcs as [|w wcs']; [by rewrite Hn2|]. by apply Hs2.
    + intros x. rewrite Hp2, Hp1. destruct (param a x); [done|].
      destruct (decide (x = wc)) as [->|Hne].
      * rewrite decide_True by by left. done.
      * destruct (decide (x ∈ wcs)).
        -- by rewrite decide_True by by right.
        -- rewrite decide_False; [done|]. by intros [?|?]%elem_of_cons.
Qed.


Lemma Forall2_functional {X Y} (gen : X → Y → Prop) xs ys ys' :
  (∀ x y y', gen x y → gen x y' → y = y') →
  Forall2 gen xs ys → Forall2 gen xs ys' → ys = ys'.
Proof.
  intros Hfun H. revert ys'. induction H as [|x y xs ys Hg HF IH]; intros ys' H'.
  - by inversion H'.
  - inversion H' as [|? y' ? ys'' Hg' HF']; subst. f_equal; eauto.
Qed.

Section OneAction.
Variables (fuel : nat) (D : APIDefinition) (parent : ResourceDefinition).

Local Abbreviation route_wildcards := (FinalizeSpec.route_wildcards fuel D parent).

Lemma route_wildcards_functional rt ref l l' :
  route_wildcards rt ref l → route_wildcards rt ref l' → l = l'.
Proof. unfold route_wildcards. congruence. Qed.

Lemma route_wildcards_elem rt ref wc :
  (∃ l, route_wildcards rt ref l ∧ wc ∈ l) ↔
  ∃ full, RouteDefinition_FullPath fuel D (version_at D ref) (Some parent) rt = Ok full ∧
          wc ∈ Wildcards.ExtractWildcards full.
Proof.
  unfold route_wildcards, RouteDefinition_Params. split.
  - intros (l & (full & Hf & [= <-])%rbind_Ok & Hwc). eauto.
  - intros (full & Hf & Hwc). exists (Wildcards.ExtractWildcards full).
    rewrite Hf. done.
Qed.

Lemma create_implicit_params_spec a a2 :
  create_implicit_params fuel D parent a = Ok a2 →
  ∃ wcs, for_each add_wildcard wcs a = Ok a2 ∧
         (∀ wc, wc ∈ wcs ↔ is_path_param fuel D parent a wc) ∧
         (∀ rt ref, rt ∈ Routes a → ref ∈ version_refs D →
                    ∃ l, route_wildcards rt ref l).
Proof.
  unfold create_implicit_params. intros H.
  pose (gen_r := fun rt l => ∃ ls, Forall2 (route_wildcards rt) (version_refs D) ls ∧
                                    l = concat ls).
  apply (for_each_nested _ add_wildcard gen_r) in H.
  - destruct H as (lss & HF & H). exists (concat lss). split; [done|].
    assert (Hfun : ∀ rt l l', gen_r rt l → gen_r rt l' → l = l').
    { intros rt l l' (ls & H1 & ->) (ls' & H2 & ->). f_equal.
      eapply Forall2_functional; [|done..]. apply route_wildcards_functional. }
    split.
    + intros wc. rewrite (elem_of_concat_Forall2 _ _ _ _ Hfun HF).
      unfold is_path_param, is_path_param_in. split.
      * intros (rt & l & Hrt & (ls & Hls & ->) & Hwc).
        apply (elem_of_concat_Forall2 _ _ _ _ (route_wildcards_functional rt) Hls)
          in Hwc as (ref & l & Href & Hl & Hwc).
        exists ref. split; [done|]. exists rt.
        destruct (proj1 (route_wildcards_elem rt ref wc)) as (full & ? & ?); eauto.
      * intros (ref & Href & rt & full & Hrt & Hfull & Hwc).
        destruct (Forall2_gen_total _ _ _ HF rt Hrt) as (l & ls & Hls & ->).
        exists rt, (concat ls). split; [done|]. split; [by exists ls|].
        apply (elem_of_concat_Forall2 _ _ _ _ (route_wildcards_functional rt) Hls).
        destruct (proj2 (route_wildcards_elem rt ref wc)) as (l & ? & ?); eauto.
    + intros rt ref Hrt Href.
      destruct (Forall2_gen_total _ _ _ HF rt Hrt) as (l & ls & Hls & ->).
      by apply (Forall2_gen_total _ _ _ Hls).
  - clear H. intros rt b b' (x & Hx & [= <-])%rbind_Ok.
    unfold IterateVersions in Hx.
    rewrite (iterate_no_error _
               (fun ver a =>
                  l ←r RouteDefinition_Params fuel D (version_at D ver) (Some parent) rt ;;
                  for_each add_wildcard l a)) in Hx.
    + apply rbind_Ok in Hx as (b' & Hb & [= <-]). simpl.
      apply (for_each_nested _ add_wildcard (route_wildcards rt)) in Hb.
      * destruct Hb as (ls & Hls & Hb). exists (concat ls). split; [|done].
        by exists ls.
      * intros ref c c' (l & Hl & Hc)%rbind_Ok. by exists l.
    + intros ref c. unfold RouteDefinition_Params.
      by destruct (RouteDefinition_FullPath _ _ _ _ _); simpl;
        [destruct (for_each _ _ _)|..].
Qed.


Lemma is_path_param_routes a b wc :
  Routes a = Routes b →
  is_path_param fuel D parent a wc ↔ is_path_param fuel D parent b wc.
Proof. unfold is_path_param, is_path_param_in. by intros ->. Qed.

Lemma decide_elem_of_equiv {B} (wcs wcs' : list string) (x : string) (u v : B) :
  (∀ wc, wc ∈ wcs ↔ wc ∈ wcs') →
  (if decide (x ∈ wcs) then u else v) = (if decide (x ∈ wcs') then u else v).
Proof.
  intros H. destruct (decide (x ∈ wcs)) as [Hx|Hx], (decide (x ∈ wcs')) as [Hx'|Hx'];
    try done; exfalso; apply H in Hx || apply H in Hx'; done.
Qed.


Lemma mark_all_spec wcs a0 q0 a1 q1 :
  for_each mark wcs (a0, q0) = Ok (a1, q1) →
  Routes a1 = Routes a0 ∧ QueryParams a1 = QueryParams a0 ∧
  (∀ p0, Params a0 = Some p0 →
     ∃ p1, Params a1 = Some p1 ∧ Att.Type_ p1 = Att.Type_ p0 ∧
           ∀ x, NonZeroAttributes p1 !! x =
                if decide (x ∈ wcs) then Some true else NonZeroAttributes p0 !! x) ∧
  (∀ x, obj_lookup (ToObject (Att.Type_ q1)) x =
        if decide (x ∈ wcs) then None else obj_lookup (ToObject (Att.Type_ q0)) x).
Proof.
  revert a0 q0. induction wcs as [|wc wcs IH]; intros a0 q0; simpl.
  - intros [= <- <-]. split; [done|]. split; [done|]. split.
    + intros p0 Hp0. exists p0. split; [done|]. split; [done|]. intros x.
      by destruct (decide (x ∈ [])) as [H%elem_of_nil|].
    + intros x. by destruct (decide (x ∈ [])) as [H%elem_of_nil|].
  - intros H. apply IH in H as (Hr & Hq & Hp & Hl).
    split; [|split; [|split]].
    + rewrite Hr. unfold set_non_zero. by destruct (Params a0).
    + rewrite Hq. unfold set_non_zero. by destruct (Params a0).
    + intros p0 Hp0.
      destruct (Hp (mkAttribute (Att.Type_ p0) (<[wc:=true]> (NonZeroAttributes p0))))
        as (p1 & Hp1 & Ht & Hnz).
      { unfold set_non_zero. by rewrite Hp0. }
      exists p1. split; [done|]. split; [done|]. intros x. rewrite Hnz. simpl.
      destruct (decide (x = wc)) as [->|Hne].
      * rewrite (decide_True (P:=wc ∈ wc :: wcs)) by by left.
        rewrite lookup_insert_eq. by case_decide.
      * rewrite lookup_insert_ne by done.
        destruct (decide (x ∈ wcs)).
        -- by rewrite decide_True by by right.
        -- rewrite decide_False; [done|]. by intros [?|?]%elem_of_cons.
    + intros x. rewrite Hl.
      destruct (decide (x = wc)) as [->|Hne].
      * rewrite (decide_True (P:=wc ∈ wc :: wcs)) by by left.
        case_decide; [done|]. unfold delete_param.
        destruct (Att.Type_ q0) eqn:E; simpl; [by rewrite E|].
        by rewrite lookup_delete_eq.
      * assert (obj_lookup (ToObject (Att.Type_ (delete_param wc q0))) x =
                obj_lookup (ToObject (Att.Type_ q0)) x) as ->.
        { unfold delete_param. destruct (Att.Type_ q0) eqn:E; simpl; [by rewrite E|].
          by rewrite lookup_delete_ne. }
        destruct (decide (x ∈ wcs)).
        -- by rewrite decide_True by by right.
        -- rewrite decide_False; [done|]. by intros [?|?]%elem_of_cons.
Qed.


Lemma partition_params_spec a2 a' :
  partition_params fuel D parent a2 = Ok a' →
  Routes a' = Routes a2 ∧
  match Params a2 with
  | None => a' = a2
  | Some params =>
    ∃ (wcs : list string) p1 q1,
      (∀ wc, wc ∈ wcs ↔ is_path_param fuel D parent a2 wc) ∧
      Params a' = Some p1 ∧ Att.Type_ p1 = Att.Type_ params ∧
      (∀ x, NonZeroAttributes p1 !! x = if decide (x ∈ wcs) then Some true else None) ∧
      QueryParams a' = Some q1 ∧
      ∀ x, obj_lookup (ToObject (Att.Type_ q1)) x =
           if decide (x ∈ wcs) then None
           else obj_lookup (ToObject (Att.Type_ params)) x
  end.
Proof.
  unfold partition_params. destruct (Params a2) as [params|] eqn:Hp2.
  2:{ by intros [= <-]. }
  intros (x & Hx & [= <-])%rbind_Ok.
  unfold IterateVersions in Hx.
  rewrite (iterate_no_error _
             (fun ver st =>
                for_each (fun route st =>
                            pnames ←r RouteDefinition_Params fuel D (version_at D ver)
                                                             (Some parent) route ;;
                            for_each mark pnames st) (Routes a2) st)) in Hx.
  2:{ intros ref st. by destruct (for_each _ _ _). }
  apply rbind_Ok in Hx as ([a1 q1] & Hx & [= <-]). simpl.
  pose (gen_v := fun ref l => ∃ ls, Forall2 (fun rt l => route_wildcards rt ref l)
                                             (Routes a2) ls ∧ l = concat ls).
  apply (for_each_nested _ mark gen_v) in Hx.
  2:{ intros ref c c' Hc.
      apply (for_each_nested _ mark (fun rt l => route_wildcards rt ref l)) in Hc.
      - destruct Hc as (ls & Hls & Hc). exists (concat ls). split; [|done].
        by exists ls.
      - intros rt e e' (l & Hl & He)%rbind_Ok. by exists l. }
  destruct Hx as (lss & HF & Hx).
  apply mark_all_spec in Hx as (Hr & Hq & Hp & Hl).
  destruct (Hp _ eq_refl) as (p1 & Hp1 & Ht1 & Hnz1).
  split; [done|].
  assert (Hfun : ∀ ref l l', gen_v ref l → gen_v ref l' → l = l').
  { intros ref l l' (ls & H1 & ->) (ls' & H2 & ->). f_equal.
    eapply Forall2_functional; [|done..].
    intros rt ? ?. apply route_wildcards_functional. }
  exists (concat lss), p1, q1.
  split; [|simpl; repeat split; try done;
            intros x; rewrite Hnz1; simpl; by rewrite lookup_empty].
  intros wc. rewrite (elem_of_concat_Forall2 _ _ _ _ Hfun HF). split.
  - intros (ref & l & Href & (ls & Hls & ->) & Hwc).
    apply (elem_of_concat_Forall2 _ _ _ _
             (fun rt => route_wildcards_functional rt ref) Hls)
      in Hwc as (rt & l & Hrt & Hl' & Hwc).
    exists ref. split; [done|]. exists rt.
    destruct (proj1 (route_wildcards_elem rt ref wc)) as (full & ? & ?); eauto.
  - intros (ref & Href & rt & full & Hrt & Hfull & Hwc).
    destruct (Forall2_gen_total _ _ _ HF ref Href) as (l & ls & Hls & ->).
    exists ref, (concat ls). split; [done|]. split; [by exists ls|].
    apply (elem_of_concat_Forall2 _ _ _ _
             (fun rt => route_wildcards_functional rt ref) Hls).
    destruct (proj2 (route_wildcards_elem rt ref wc)) as (l & ? & ?); eauto.
Qed.


Lemma merge_responses_spec a a1 :
  merge_responses D parent a = Ok a1 →
  Routes a1 = Routes a ∧ Params a1 = Params a ∧ QueryParams a1 = QueryParams a.
Proof. unfold merge_responses. by intros (rs & _ & [= <-])%rbind_Ok. Qed.

Lemma finalize_action_spec a a' :
  finalize_action fuel D parent a = Ok a' →
  Routes a' = Routes a ∧
  (∀ rt ref, rt ∈ Routes a → ref ∈ version_refs D → ∃ l, route_wildcards rt ref l) ∧
  ∃ wcs : list string,
    (∀ wc, wc ∈ wcs ↔ is_path_param fuel D parent a wc) ∧
    (∀ x, param a' x =
          match param a x with
          | Some v => Some v
          | None => if decide (x ∈ wcs) then Some implicit_param else None
          end) ∧
    match Params a' with
    | Some p' =>
      ∃ q', QueryParams a' = Some q' ∧
            (∀ x, obj_lookup (ToObject (Att.Type_ q')) x =
                  if decide (x ∈ wcs) then None else param a' x) ∧
            (∀ x, NonZeroAttributes p' !! x =
                  if decide (x ∈ wcs) then Some true else None)
    | None => QueryParams a' = QueryParams a ∧ wcs = []
    end.
Proof.
  unfold finalize_action.
  intros (a1 & H1 & (a2 & H2 & H3)%rbind_Ok)%rbind_Ok.
  apply merge_responses_spec in H1 as (Hr1 & Hp1 & Hq1).
  apply create_implicit_params_spec in H2 as (wcs & H2 & Hw & Htot).
  apply add_wildcards_spec in H2 as (Hr2 & Hq2 & Hnil & Hsome & Hpar).
  apply partition_params_spec in H3 as (Hr3 & H3).
  split; [congruence|]. split; [by rewrite <- Hr1|].
  exists wcs.
  assert (Hw' : ∀ wc, wc ∈ wcs ↔ is_path_param fuel D parent a wc).
  { intros wc. rewrite Hw. by apply is_path_param_routes. }
  split; [done|].
  assert (Hpa1 : ∀ x, param a1 x = param a x) by (by unfold param; rewrite Hp1).
  destruct (Params a2) as [params|] eqn:Hp2.
  - destruct H3 as (wcs3 & p1 & q1 & Hw3 & Hp' & Ht & Hnz & Hq' & Hl).
    assert (Heq : ∀ wc, wc ∈ wcs3 ↔ wc ∈ wcs).
    { intros wc. rewrite Hw3, Hw. apply is_path_param_routes. congruence. }
    assert (Hpa' : ∀ x, param a' x = param a2 x).
    { intros x. unfold param. by rewrite Hp', Hp2, Ht. }
    split.
    + intros x. by rewrite Hpa', Hpar, Hpa1.
    + rewrite Hp'. exists q1. split; [done|]. split.
      * intros x. rewrite Hl, Hpa'. unfold param at 1. rewrite Hp2.
        by apply decide_elem_of_equiv.
      * intros x. rewrite Hnz. by apply decide_elem_of_equiv.
  - subst a'. destruct wcs as [|w wcs].
    + rewrite (Hnil eq_refl) in *. split.
      * intros x. rewrite Hpa1. destruct (param a x); [done|].
        by destruct (decide (x ∈ [])) as [?%elem_of_nil|].
      * rewrite Hp2. split; [congruence|done].
    + destruct Hsome as [[? Hs] _]; [done|]. congruence.
Qed.

End OneAction.

Lemma Finalize_iterate fuel D r ks st st' err :
  NoDup ks →
  iterate (fun n st =>
             match Actions st !! n with
             | Some a =>
               a' ←r finalize_action fuel D r a ;;
               Ok (set_Actions st (<[n := a']> (Actions st)), None)
             | None => Panic
             end) ks st = Ok (st', (err : option error)) →
  err = None ∧
  Resource.BasePath st' = Resource.BasePath st ∧
  ParentName st' = ParentName st ∧
  CanonicalActionName st' = CanonicalActionName st ∧
  Resource.BaseParams st' = Resource.BaseParams st ∧
  (∀ n, n ∈ ks → ∃ a a', Actions st !! n = Some a ∧
                          finalize_action fuel D r a = Ok a' ∧
                          Actions st' !! n = Some a') ∧
  (∀ n, n ∉ ks → Actions st' !! n = Actions st !! n).
Proof.
  intros Hnd. revert st. induction Hnd as [|k ks Hk Hnd IH]; intros st; simpl.
  - intros [= <- <-]. repeat split; try done. by intros n ?%elem_of_nil.
  - destruct (Actions st !! k) as [a|] eqn:Ha; [|done]. simpl.
    destruct (finalize_action fuel D r a) as [a'| |] eqn:Hf; simpl; try done.
    intros H. apply IH in H as (-> & Hb & Hp & Hc & Hbp & Hin & Hout).
    repeat split; try done.
    + intros n [->|Hn]%elem_of_cons.
      * exists a, a'. repeat split; try done.
        rewrite (Hout k Hk). simpl. by rewrite lookup_insert_eq.
      * destruct (Hin n Hn) as (b & b' & Hb1 & Hb2 & Hb3).
        exists b, b'. repeat split; try done.
        simpl in Hb1. rewrite lookup_insert_ne in Hb1; [done|]. by intros ->.
    + intros n Hn. rewrite Hout by (by intros ?; apply Hn; right).
      simpl. rewrite lookup_insert_ne; [done|]. intros ->. apply Hn. by left.
Qed.

Lemma Finalize_spec fuel D r r' :
  Finalize fuel D r = Ok r' →
  Resource.BasePath r' = Resource.BasePath r ∧
  ParentName r' = ParentName r ∧
  CanonicalActionName r' = CanonicalActionName r ∧
  Resource.BaseParams r' = Resource.BaseParams r ∧
  ∀ n, match Actions r !! n with
       | Some a => ∃ a', finalize_action fuel D r a = Ok a' ∧ Actions r' !! n = Some a'
       | None => Actions r' !! n = None
       end.
Proof.
  unfold Finalize, IterateActions.
  intros ([st err] & H & [= <-])%rbind_Ok. simpl.
  apply Finalize_iterate in H as (_ & ? & ? & ? & ? & Hin & Hout).
  2:{ rewrite Strings_Permutation. apply NoDup_range_keys. }
  repeat split; try done. intros n.
  destruct (Actions r !! n) as [a|] eqn:Ha.
  - destruct (Hin n) as (b & b' & Hb1 & Hb2 & Hb3).
    { rewrite Strings_Permutation. apply elem_of_range_keys. eauto. }
    exists b'. split; congruence.
  - rewrite Hout; [done|]. rewrite Strings_Permutation, elem_of_range_keys.
    rewrite Ha. by intros [? ?].
Qed.


Lemma same_routes_refl r : same_routes r r.
Proof. by repeat split. Qed.

Lemma ResourceDefinition_FullPath_same_routes fuel D1 D2 version r1 r2 :
  same_resources D1 D2 → same_routes r1 r2 →
  ResourceDefinition_FullPath fuel D1 version r1 =
  ResourceDefinition_FullPath fuel D2 version r2.
Proof.
  intros HD. revert r1 r2. induction fuel as [|fuel IH]; intros r1 r2 Hr; [done|].
  destruct Hr as (Hb & Hp & Hc & Ha).
  cbn [ResourceDefinition_FullPath]. unfold Parent. rewrite <- Hp, <- Hb.
  case_decide; [done|].
  destruct (HD (ParentName r1)) as [p1 p2 Hps|]; [|done].
  pose proof Hps as (Hb' & Hp' & Hc' & Ha').
  unfold CanonicalAction. rewrite <- Hc'.
  specialize (Ha' (if decide (CanonicalActionName p1 = "") then "show"
                   else CanonicalActionName p1)).
  destruct (Actions p1 !! _) as [ca1|], (Actions p2 !! _) as [ca2|];
    simplify_eq/=; [|done].
  rewrite Ha'. destruct (Routes ca2) as [|route0 ?]; [done|].
  unfold route_full_path. case_match; [done|].
  by rewrite (IH p1 p2 Hps).
Qed.

Lemma RouteDefinition_FullPath_same_routes fuel D1 D2 version r1 r2 rt :
  same_resources D1 D2 → same_routes r1 r2 →
  RouteDefinition_FullPath fuel D1 version (Some r1) rt =
  RouteDefinition_FullPath fuel D2 version (Some r2) rt.
Proof.
  intros HD Hr. unfold RouteDefinition_FullPath, route_full_path.
  by rewrite (ResourceDefinition_FullPath_same_routes fuel D1 D2 version r1 r2).
Qed.

Lemma Finalize_same_routes fuel D r r' :
  Finalize fuel D r = Ok r' → same_routes r r'.
Proof.
  intros (Hb & Hp & Hc & _ & Ha)%Finalize_spec. repeat split; try done.
  intros n. specialize (Ha n). destruct (Actions r !! n) as [a|].
  - destruct Ha as (a' & Hf & ->). simpl.
    apply finalize_action_spec in Hf as (-> & _). done.
  - by rewrite Ha.
Qed.

Lemma Finalize_same_resources fuel D name r r' :
  Resources D !! name = Some r → Finalize fuel D r = Ok r' →
  same_resources D (update_resource D name r').
Proof.
  intros Hn Hf k. simpl. destruct (decide (k = name)) as [->|Hne].
  - rewrite lookup_insert_eq, Hn. constructor. by eapply Finalize_same_routes.
  - rewrite lookup_insert_ne by done.
    destruct (Resources D !! k); constructor. apply same_routes_refl.
Qed.

Lemma elem_of_opt_names_param a x :
  x ∈ opt_names (Params a) ↔ is_Some (param a x).
Proof.
  unfold opt_names, names, param. destruct (Params a) as [p|].
  - destruct (ToObject (Att.Type_ p)); simpl.
    + apply elem_of_dom.
    + split; [by intros ?%elem_of_empty|by intros [? ?]].
  - split; [by intros ?%elem_of_empty|by intros [? ?]].
Qed.

Lemma elem_of_names_lookup q x :
  x ∈ names q ↔ is_Some (obj_lookup (ToObject (Att.Type_ q)) x).
Proof.
  unfold names. destruct (ToObject (Att.Type_ q)); simpl.
  - apply elem_of_dom.
  - split; [by intros ?%elem_of_empty|by intros [? ?]].
Qed.

(** What [Finalize] does to the parameters of one action, with the paths
    computed on the root as [Finalize] leaves it. *)
Lemma Finalize_action_params fuel D name r r' n a a' :
  Resources D !! name = Some r →
  Finalize fuel D r = Ok r' →
  Actions r !! n = Some a → Actions r' !! n = Some a' →
  let D' := update_resource D name r' in
  (∀ rt ref, rt ∈ Routes a' → ref ∈ version_refs D' →
             ∃ l, FinalizeSpec.route_wildcards fuel D' r' rt ref l) ∧
  ∃ wcs : list string,
    (∀ wc, wc ∈ wcs ↔ is_path_param fuel D' r' a' wc) ∧
    (∀ x, param a' x =
          match param a x with
          | Some v => Some v
          | None => if decide (x ∈ wcs) then Some implicit_param else None
          end) ∧
    match Params a' with
    | Some p' =>
      ∃ q', QueryParams a' = Some q' ∧
            (∀ x, obj_lookup (ToObject (Att.Type_ q')) x =
                  if decide (x ∈ wcs) then None else param a' x) ∧
            (∀ x, NonZeroAttributes p' !! x =
                  if decide (x ∈ wcs) then Some true else None)
    | None => QueryParams a' = QueryParams a ∧ wcs = []
    end.
Proof.
  intros Hname Hfin Ha Ha' D'.
  pose proof (Finalize_same_resources _ _ _ _ _ Hname Hfin) as HD.
  pose proof (Finalize_same_routes _ _ _ _ Hfin) as Hr.
  apply Finalize_spec in Hfin as (_ & _ & _ & _ & Hact).
  specialize (Hact n). rewrite Ha in Hact. destruct Hact as (b & Hf & Hb).
  assert (b = a') as -> by congruence.
  apply finalize_action_spec in Hf as (Hroutes & Htot & wcs & Hw & Hrest).
  assert (Hfp : ∀ rt ref,
            RouteDefinition_FullPath fuel D' (version_at D' ref) (Some r') rt =
            RouteDefinition_FullPath fuel D (version_at D ref) (Some r) rt).
  { intros rt ref. symmetry.
    by apply RouteDefinition_FullPath_same_routes. }
  split.
  - intros rt ref Hrt Href. rewrite Hroutes in Hrt.
    destruct (Htot rt ref Hrt Href) as [l Hl]. exists l.
    unfold FinalizeSpec.route_wildcards, RouteDefinition_Params in *.
    by rewrite Hfp.
  - exists wcs. split; [|done]. intros wc. rewrite Hw.
    unfold is_path_param, is_path_param_in. rewrite Hroutes.
    by setoid_rewrite Hfp.
Qed.


(** C1, as amended.  After [Finalize], the path-parameter names of an
    action under any version scope are disjoint from its query-parameter
    names and are declared parameters; the declared parameters are
    exactly the query parameters and the path parameters of all the
    version scopes together; the partition holds within one scope when
    that scope has all the path parameters; and every path parameter is
    marked non-zero. *)
Theorem Finalize_partitions_params fuel D name r r' n a a' :
  Resources D !! name = Some r →
  Finalize fuel D r = Ok r' →
  Actions r !! n = Some a → Actions r' !! n = Some a' →
  is_Some (Params a') ∨ QueryParams a = None →
  let D' := update_resource D name r' in
  let Q := opt_names (QueryParams a') in
  let A := opt_names (Params a') in
  (∀ ref wc, ref ∈ version_refs D' → is_path_param_in fuel D' r' a' ref wc →
             (wc ∉ Q) ∧ (wc ∈ A)) ∧
  (∀ x, x ∈ A ↔ x ∈ Q ∨ is_path_param fuel D' r' a' x) ∧
  (∀ ref, ref ∈ version_refs D' →
          (∀ wc, is_path_param fuel D' r' a' wc → is_path_param_in fuel D' r' a' ref wc) →
          ∀ x, x ∈ A ↔ x ∈ Q ∨ is_path_param_in fuel D' r' a' ref x) ∧
  (∀ wc, is_path_param fuel D' r' a' wc →
         ∃ p', Params a' = Some p' ∧ NonZeroAttributes p' !! wc = Some true).
Proof.
  intros Hname Hfin Ha Ha' Hq D' Q A.
  destruct (Finalize_action_params _ _ _ _ _ _ _ _ Hname Hfin Ha Ha')
    as (_ & wcs & Hw & Hpar & Hrest).
  fold D' in Hw.
  assert (HA : ∀ x, x ∈ wcs → x ∈ A).
  { intros x Hx. apply elem_of_opt_names_param. rewrite Hpar.
    destruct (param a x); [done|]. by rewrite decide_True. }
  assert (HQ : ∀ x, x ∈ Q ↔ x ∈ A ∧ x ∉ wcs).
  { intros x. unfold Q, A. rewrite elem_of_opt_names_param.
    destruct (Params a') as [p'|] eqn:Hp'.
    - destruct Hrest as (q' & -> & Hl & _). simpl.
      rewrite elem_of_names_lookup, Hl. case_decide.
      + split; [by intros [? ?]|]. by intros [_ ?].
      + split; [done|]. by intros [? _].
    - destruct Hrest as [HQa ->]. destruct Hq as [[? ?]|Hq]; [done|].
      rewrite HQa, Hq. simpl. unfold param. rewrite Hp'.
      split; [by intros ?%elem_of_empty|]. by intros [[? ?] _]. }
  assert (Hunion : ∀ x, x ∈ A ↔ x ∈ Q ∨ is_path_param fuel D' r' a' x).
  { intros x. rewrite HQ, <- Hw. split.
    - intros Hx. destruct (decide (x ∈ wcs)); auto.
    - intros [[? _]|?]; auto. }
  split; [|split; [done|split]].
  - intros ref wc Href Hwc.
    assert (wc ∈ wcs) as Hin by (apply Hw; by exists ref).
    split; [|by apply HA]. rewrite HQ. by intros [_ ?].
  - intros ref Href Hall x. rewrite Hunion. split.
    + intros [?|?]; auto.
    + intros [?|?]; auto. right. by exists ref.
  - intros wc Hwc%Hw. destruct (Params a') as [p'|] eqn:Hp'.
    + destruct Hrest as (q' & _ & _ & Hnz). exists p'. split; [done|].
      by rewrite Hnz, decide_True.
    + destruct Hrest as [_ ->]. by apply elem_of_nil in Hwc.
Qed.

Lemma AllParams_names AttMerge fuel D parent a res :
  merge_keeps_names AttMerge →
  ActionDefinition_AllParams AttMerge fuel D parent a = Ok res →
  opt_names (Params a) ⊆ names res.
Proof.
  intros Hm. destruct fuel as [|fuel]; [done|]. cbn [ActionDefinition_AllParams].
  set (res0 := match Params a with Some p => DupAtt p | None => mkAttribute (Object ∅) ∅ end).
  assert (H0 : opt_names (Params a) ⊆ names res0).
  { unfold res0, opt_names, DupAtt. destruct (Params a); [done|].
    apply empty_subseteq. }
  destruct (HasAbsoluteRoutes a); [by intros [= <-]|].
  intros (res1 & H1 & (res2 & H2 & H3)%rbind_Ok)%rbind_Ok.
  apply Hm in H1, H2.
  assert (names res2 ⊆ names res); [|set_solver].
  destruct (Design.Parent D parent) as [p|]; [|by injection H3 as ->].
  destruct (CanonicalAction p) as [ca|]; [|done].
  apply rbind_Ok in H3 as (pa & _ & H3). by apply Hm in H3.
Qed.

(** C2.  After [Finalize], every wildcard of the full path of every route
    under every version scope is a parameter of the action, of type
    String when the author had not declared it and as declared
    otherwise, and it is among the parameters that [AllParams] returns,
    for any merge of attributes that keeps the names of the receiver. *)
Theorem Finalize_creates_implicit_params AttMerge fuel D name r r' n a a' :
  merge_keeps_names AttMerge →
  Resources D !! name = Some r →
  Finalize fuel D r = Ok r' →
  Actions r !! n = Some a → Actions r' !! n = Some a' →
  let D' := update_resource D name r' in
  (∀ rt ref, rt ∈ Routes a' → ref ∈ version_refs D' →
     ∃ full,
       RouteDefinition_FullPath fuel D' (version_at D' ref) (Some r') rt = Ok full ∧
       ∀ wc, wc ∈ Wildcards.ExtractWildcards full →
         is_Some (param a' wc) ∧
         (param a wc = None → param a' wc = Some implicit_param) ∧
         (∀ v, param a wc = Some v → param a' wc = Some v) ∧
         ∀ fuel2 res,
           ActionDefinition_AllParams AttMerge fuel2 D' r' a' = Ok res →
           wc ∈ names res) ∧
  (∀ fuel2, HasAbsoluteRoutes a' = true →
     ∃ res, ActionDefinition_AllParams AttMerge (S fuel2) D' r' a' = Ok res) ∧
  (∀ fuel2, HasAbsoluteRoutes a' = false → Design.Parent D' r' = None →
     ActionDefinition_AllParams AttMerge (S fuel2) D' r' a' =
     (res1 ←r AttMerge (match Params a' with
                        | Some p => DupAtt p
                        | None => mkAttribute (Object ∅) ∅
                        end) (Resource.BaseParams r') ;;
      AttMerge res1 (Version.BaseParams (Default D')))).
Proof.
  intros Hm Hname Hfin Ha Ha' D'.
  destruct (Finalize_action_params _ _ _ _ _ _ _ _ Hname Hfin Ha Ha')
    as (Htot & wcs & Hw & Hpar & Hrest).
  fold D' in Hw, Htot.
  split; [|split].
  - intros rt ref Hrt Href. destruct (Htot rt ref Hrt Href) as [l Hl].
    unfold FinalizeSpec.route_wildcards, RouteDefinition_Params in Hl.
    apply rbind_Ok in Hl as (full & Hfull & [= <-]).
    exists full. split; [done|]. intros wc Hwc.
    assert (wc ∈ wcs) as Hin.
    { apply Hw. exists ref. split; [done|]. by exists rt, full. }
    assert (is_Some (param a' wc)) as Hsome.
    { rewrite Hpar. destruct (param a wc); [done|]. by rewrite decide_True. }
    split; [done|]. split; [|split].
    + intros Hn. by rewrite Hpar, Hn, decide_True.
    + intros v Hv. by rewrite Hpar, Hv.
    + intros fuel2 res Hres. eapply AllParams_names; [done..|].
      by apply elem_of_opt_names_param.
  - intros fuel2 Habs. cbn [ActionDefinition_AllParams]. rewrite Habs. eauto.
  - intros fuel2 Habs Hp. cbn [ActionDefinition_AllParams].
    rewrite Habs, Hp.
    destruct (AttMerge _ (Resource.BaseParams r')) as [res1| |]; simpl; [|done..].
    by destruct (AttMerge res1 _).
Qed.

End FinalizeFacts.

Section Samples.
Import Route Action Resource API Design Params FinalizeSpec PathSkeleton Examples.

Lemma union_merge_keeps_names : merge_keeps_names union_merge.
Proof.
  intros a other res. unfold union_merge, names.
  destruct other as [o|]; [|by intros [= <-]].
  destruct (Att.Type_ a) as [|l] eqn:Ha; [done|].
  destruct (Att.Type_ o) as [|r]; [done|].
  intros [= <-]. simpl. rewrite dom_union_L. set_solver.
Qed.

Lemma Merge_fills_unset_fields_witness :
  Response.headers_are_object resp_ok ∧
  ∃ r', Response.Merge resp_ok (Some api_ok) = Ok r' ∧
        Response.Name r' = "OK" ∧ Response.Status r' = 200%Z.
Proof.
  split; [exact I|].
  destruct (Merge_fills_unset_fields resp_ok api_ok) as [Hret Hspec].
  destruct (Hret I) as [r' Hr']. exists r'. split; [exact Hr'|].
  destruct (Hspec r' Hr') as (Hn & Hs & _). split.
  - rewrite Hn. reflexivity.
  - rewrite Hs. reflexivity.
Defined.

Lemma ResourceDefinition_FullPath_degrades_witness :
  Parent family child = Some orphanage ∧
  CanonicalAction orphanage = None ∧
  ResourceDefinition_FullPath 1 family (Some (Default family)) child =
    Ok "/children" ∧
  Parent family orphanage = None ∧
  ResourceDefinition_FullPath 1 family (Some (Default family)) orphanage =
    Ok "/api/parents".
Proof.
  split; [reflexivity|]. split; [reflexivity|].
  destruct (ResourceDefinition_FullPath_degrades 0 family (Some (Default family)) child)
    as [Hp _].
  destruct (ResourceDefinition_FullPath_degrades 0 family (Some (Default family)) orphanage)
    as [_ Hn].
  split; [|split; [reflexivity|]].
  - destruct (Hp orphanage eq_refl (or_introl eq_refl)) as [-> _].
    vm_compute. reflexivity.
  - rewrite (Hn eq_refl _ eq_refl). vm_compute. reflexivity.
Defined.

(** C5 as stated fails: the child of a parent without canonical action
    gets the path of its own base path, not an empty path. *)
Lemma ResourceDefinition_FullPath_not_empty :
  ¬ (∀ fuel D version r p,
       Parent D r = Some p →
       (CanonicalAction p = None ∨
        ∃ ca, CanonicalAction p = Some ca ∧ Routes ca = []) →
       ResourceDefinition_FullPath (S fuel) D version r = Ok "").
Proof.
  intros H.
  specialize (H 0 family (Some (Default family)) child orphanage eq_refl
                (or_introl eq_refl)).
  vm_compute in H. discriminate H.
Qed.

Lemma Finalize_partitions_params_witness :
  Resources api !! "widgets" = Some widgets ∧
  Finalize 1 api widgets = Ok widgets_final ∧
  Actions widgets !! "show" = Some show ∧
  Actions widgets_final !! "show" = Some show_final ∧
  is_Some (Params show_final) ∧
  ∀ x, x ∈ opt_names (Params show_final) ↔
       x ∈ opt_names (QueryParams show_final) ∨
       is_path_param 1 (update_resource api "widgets" widgets_final)
                     widgets_final show_final x.
Proof.
  assert (H1 : Resources api !! "widgets" = Some widgets) by reflexivity.
  assert (H2 : Finalize 1 api widgets = Ok widgets_final) by (vm_compute; reflexivity).
  assert (H3 : Actions widgets !! "show" = Some show) by reflexivity.
  assert (H4 : Actions widgets_final !! "show" = Some show_final)
    by (vm_compute; reflexivity).
  assert (H5 : is_Some (Params show_final)) by (vm_compute; eauto).
  repeat (split; [assumption|]).
  exact (proj1 (proj2 (Finalize_partitions_params 1 api "widgets" widgets widgets_final
                         "show" show show_final H1 H2 H3 H4 (or_introl H5)))).
Defined.

(** C1 as stated fails: under the scope of version [v2] the parameter
    [org] is neither a path parameter nor a query parameter. *)
Lemma Finalize_partition_counterexample :
  Resources api !! "widgets" = Some widgets ∧
  Finalize 1 api widgets = Ok widgets_final ∧
  Actions widgets_final !! "show" = Some show_final ∧
  NamedVersion "v2" ∈ version_refs (update_resource api "widgets" widgets_final) ∧
  ¬ (∀ x, x ∈ opt_names (Params show_final) ↔
          x ∈ opt_names (QueryParams show_final) ∨
          is_path_param_in 1 (update_resource api "widgets" widgets_final)
                           widgets_final show_final (NamedVersion "v2") x).
Proof.
  split; [reflexivity|]. split; [vm_compute; reflexivity|].
  split; [vm_compute; reflexivity|]. split.
  - assert (version_refs (update_resource api "widgets" widgets_final)
            = [DefaultVersion; NamedVersion "v2"]) as -> by (vm_compute; reflexivity).
    apply elem_of_cons. right. apply elem_of_cons. by left.
  - intros H. specialize (H "org").
    assert (Hin : "org" ∈ opt_names (Params show_final)).
    { apply elem_of_opt_names_param. vm_compute. eauto. }
    apply H in Hin as [Hq | (rt & full & Hrt & Hfull & Hwc)].
    + assert (QueryParams show_final = Some (mkAttribute (Object ∅) ∅)) as E
        by (vm_compute; reflexivity).
      rewrite E in Hq. simpl in Hq. unfold names in Hq. simpl in Hq.
      rewrite dom_empty_L in Hq. by apply elem_of_empty in Hq.
    + assert (Routes show_final = [mkRoute "GET" "/:id"]) as E
        by (vm_compute; reflexivity).
      rewrite E in Hrt. apply list_elem_of_singleton in Hrt as ->.
      assert (RouteDefinition_FullPath 1
                (update_resource api "widgets" widgets_final)
                (version_at (update_resource api "widgets" widgets_final)
                            (NamedVersion "v2"))
                (Some widgets_final) (mkRoute "GET" "/:id") = Ok "/v2/widgets/:id")
        as E' by (vm_compute; reflexivity).
      rewrite E' in Hfull. injection Hfull as <-.
      assert (Wildcards.ExtractWildcards "/v2/widgets/:id" = ["id"]) as E''
        by (vm_compute; reflexivity).
      rewrite E'' in Hwc. apply list_elem_of_singleton in Hwc. discriminate Hwc.
Qed.

Lemma Finalize_creates_implicit_params_witness :
  merge_keeps_names union_merge ∧
  Resources api !! "widgets" = Some widgets ∧
  Finalize 1 api widgets = Ok widgets_final ∧
  Actions widgets !! "show" = Some show ∧
  Actions widgets_final !! "show" = Some show_final ∧
  mkRoute "GET" "/:id" ∈ Routes show_final ∧
  DefaultVersion ∈ version_refs (update_resource api "widgets" widgets_final) ∧
  ∃ full,
    RouteDefinition_FullPath 1 (update_resource api "widgets" widgets_final)
      (version_at (update_resource api "widgets" widgets_final) DefaultVersion)
      (Some widgets_final) (mkRoute "GET" "/:id") = Ok full ∧
    ∀ wc, wc ∈ Wildcards.ExtractWildcards full →
          param show wc = None → param show_final wc = Some implicit_param.
Proof.
  assert (H1 : Resources api !! "widgets" = Some widgets) by reflexivity.
  assert (H2 : Finalize 1 api widgets = Ok widgets_final) by (vm_compute; reflexivity).
  assert (H3 : Actions widgets !! "show" = Some show) by reflexivity.
  assert (H4 : Actions widgets_final !! "show" = Some show_final)
    by (vm_compute; reflexivity).
  assert (H5 : mkRoute "GET" "/:id" ∈ Routes show_final).
  { assert (Routes show_final = [mkRoute "GET" "/:id"]) as ->
      by (vm_compute; reflexivity).
    apply elem_of_cons. by left. }
  assert (H6 : DefaultVersion ∈
               version_refs (update_resource api "widgets" widgets_final)).
  { apply elem_of_cons. by left. }
  split; [exact union_merge_keeps_names|].
  repeat (split; [assumption|]).
  destruct (Finalize_creates_implicit_params union_merge 1 api "widgets" widgets
              widgets_final "show" show show_final union_merge_keeps_names
              H1 H2 H3 H4) as (Hroutes & _).
  destruct (Hroutes _ _ H5 H6) as (full & Hfull & Hwc).
  exists full. split; [exact Hfull|].
  intros wc Hin. exact (proj1 (proj2 (Hwc wc Hin))).
Defined.

End Samples.

(** ** Strings and bytes *)

Lemma app_cons_s c (a b : string) : String c a +:+ b = String c (a +:+ b).
Proof. reflexivity. Qed.

Lemma app_nil_l_s (b : string) : "" +:+ b = b.
Proof. reflexivity. Qed.

(** Appending to a string that starts with a known byte. *)
Ltac sapp := rewrite ?app_cons_s, ?app_nil_l_s.

Section StringFacts.
Import Bytes.

Lemma app_assoc_s (a b c : string) : (a +:+ b) +:+ c = a +:+ (b +:+ c).
Proof. induction a as [|x a IH]; sapp; [done|]. by rewrite IH. Qed.

Lemma app_nil_r_s (a : string) : a +:+ "" = a.
Proof. induction a as [|x a IH]; sapp; [done|]. by rewrite IH. Qed.

Lemma length_app_s (a b : string) :
  String.length (a +:+ b) = String.length a + String.length b.
Proof. induction a as [|x a IH]; sapp; simpl; [done|]. by rewrite IH. Qed.

Lemma drop_app_length_s (a b : string) : Strings.drop (String.length a) (a +:+ b) = b.
Proof. induction a as [|x a IH]; sapp; simpl; [by destruct b|done]. Qed.

Lemma take_app_length_s (a b : string) : Strings.take (String.length a) (a +:+ b) = a.
Proof. induction a as [|x a IH]; sapp; simpl; [by destruct b|]. by rewrite IH. Qed.

Lemma take_drop_s n (s : string) : Strings.take n s +:+ Strings.drop n s = s.
Proof.
  revert s. induction n as [|n IH]; intros [|c s]; simpl; sapp; try done.
  by rewrite IH.
Qed.

Lemma length_take_le n (s : string) :
  n ≤ String.length s → String.length (Strings.take n s) = n.
Proof.
  revert s. induction n as [|n IH]; intros [|c s]; simpl; try done; try lia.
  intros H. rewrite IH; lia.
Qed.

Lemma length_drop_s n (s : string) :
  String.length (Strings.drop n s) = String.length s - n.
Proof. revert s. induction n as [|n IH]; intros [|c s]; simpl; try done. Qed.

Lemma take_while_app p (a : string) c (b : string) :
  Strings.forallb p a = true → p c = false →
  Strings.take_while p (a +:+ String c b) = a.
Proof.
  intros Ha Hc. induction a as [|x a IH]; sapp; simpl in *.
  - by rewrite Hc.
  - apply andb_true_iff in Ha as [-> Ha]. by rewrite IH.
Qed.

Lemma drop_while_app p (a : string) c (b : string) :
  Strings.forallb p a = true → p c = false →
  Strings.drop_while p (a +:+ String c b) = String c b.
Proof.
  intros Ha Hc. induction a as [|x a IH]; sapp; simpl in *.
  - by rewrite Hc.
  - apply andb_true_iff in Ha as [-> Ha]. by rewrite IH.
Qed.

Lemma take_while_all p (a : string) :
  Strings.forallb p a = true → Strings.take_while p a = a.
Proof.
  induction a as [|x a IH]; simpl; [done|].
  intros [-> Ha]%andb_true_iff. by rewrite IH.
Qed.

Lemma drop_while_all p (a : string) :
  Strings.forallb p a = true → Strings.drop_while p a = "".
Proof.
  induction a as [|x a IH]; simpl; [done|].
  intros [-> Ha]%andb_true_iff. by rewrite IH.
Qed.

Lemma forallb_take_while p (s : string) : Strings.forallb p (Strings.take_while p s) = true.
Proof.
  induction s as [|c s IH]; simpl; [done|].
  destruct (p c) eqn:Hc; simpl; [|done]. by rewrite Hc.
Qed.

Lemma take_while_drop_while p (s : string) :
  Strings.take_while p s +:+ Strings.drop_while p s = s.
Proof.
  induction s as [|c s IH]; simpl; [done|]. destruct (p c); sapp; [|done].
  by rewrite IH.
Qed.

Lemma drop_while_head p (s : string) :
  match Strings.drop_while p s with
  | String c _ => p c = false
  | "" => True
  end.
Proof.
  induction s as [|c s IH]; simpl; [done|]. by destruct (p c) eqn:Hc.
Qed.

Lemma forallb_app_s p (a b : string) :
  Strings.forallb p (a +:+ b) = Strings.forallb p a && Strings.forallb p b.
Proof.
  induction a as [|x a IH]; sapp; simpl; [done|]. rewrite IH. by rewrite andb_assoc.
Qed.

Lemma forallb_impl_s (p q : ascii → bool) (s : string) :
  (∀ c, p c = true → q c = true) →
  Strings.forallb p s = true → Strings.forallb q s = true.
Proof.
  intros H. induction s as [|c s IH]; simpl; [done|].
  intros [Hc Hs]%andb_true_iff. by rewrite (H _ Hc), IH.
Qed.

Lemma length_take_while_le p (s : string) :
  String.length (Strings.take_while p s) ≤ String.length s.
Proof. induction s as [|c s IH]; simpl; [lia|]. destruct (p c); simpl; lia. Qed.

End StringFacts.

(** ** All the bytes *)

Section ByteFacts.
Import Bytes.

Lemma elem_of_all_bytes c : c ∈ all_bytes.
Proof.
  change all_bytes with (map ascii_of_nat (seq 0 256)).
  apply list_elem_of_fmap. exists (nat_of_ascii c).
  split; [by rewrite ascii_nat_embedding|].
  apply elem_of_seq. pose proof (nat_ascii_bounded c). lia.
Qed.

Lemma forall_bytes (P : ascii → bool) :
  forallb P all_bytes = true → ∀ c, P c = true.
Proof.
  intros H c. rewrite forallb_forall in H. apply H.
  apply list_elem_of_In, elem_of_all_bytes.
Qed.

End ByteFacts.

(** ** UTF-8 *)

Section Packing.
Import Bytes.
Open Scope N_scope.

(** Packing bit fields: [b] in the low [n] bits and [a] above. *)
Lemma pack_shiftr (a b n : N) :
  b < 2 ^ n → N.shiftr (N.lor (N.shiftl a n) b) n = a.
Proof.
  intros Hb. rewrite N.shiftr_lor, N.shiftr_shiftl_l by lia.
  rewrite N.sub_diag, N.shiftl_0_r, N.shiftr_div_pow2, N.div_small by done.
  apply N.lor_0_r.
Qed.

Lemma pack_land (a b n : N) :
  b < 2 ^ n → N.land (N.lor (N.shiftl a n) b) (N.ones n) = b.
Proof.
  intros Hb. rewrite N.land_lor_distr_l, !N.land_ones, N.shiftl_mul_pow2.
  rewrite N.Div0.mod_mul, N.mod_small by done. apply N.lor_0_l.
Qed.

Lemma pack_add (a b n : N) :
  b < 2 ^ n → N.lor (N.shiftl a n) b = a * 2 ^ n + b.
Proof.
  intros Hb. set (r := N.lor (N.shiftl a n) b).
  rewrite (N.div_mod r (2 ^ n)) by (apply N.pow_nonzero; lia).
  rewrite <- N.shiftr_div_pow2, <- N.land_ones.
  unfold r. rewrite pack_shiftr, pack_land by done. lia.
Qed.

End Packing.

Section Utf8Facts.
Import Bytes.
Import Utf8 Unicode.
Open Scope N_scope.

Lemma push_shiftr a b : b < 64 → N.shiftr (push a b) 6 = a.
Proof. intros. by apply pack_shiftr. Qed.
Lemma push_land a b : b < 64 → N.land (push a b) 63 = b.
Proof. intros. by apply (pack_land a b 6). Qed.
Lemma push_add a b : b < 64 → push a b = a * 64 + b.
Proof. intros. by apply (pack_add a b 6). Qed.

Lemma low6_lt c : low6 c < 64.
Proof.
  unfold low6. change 63 with (N.ones 6). rewrite N.land_ones.
  by apply N.mod_lt.
Qed.

Lemma chr_byte c : chr (byte c) = c.
Proof. apply ascii_N_embedding. Qed.

Lemma byte_lt c : byte c < 256.
Proof. apply N_ascii_bounded. Qed.

(** Facts about one or two bytes, by enumeration. *)
Lemma cont_chr b : cont b = true → chr (N.lor 128 (low6 b)) = b ∧ high b = true.
Proof.
  revert b. 
  assert (H : ∀ b, (if cont b then
                      bool_decide (chr (N.lor 128 (low6 b)) = b) && high b
                    else true) = true).
  { apply forall_bytes. vm_compute. reflexivity. }
  intros b Hb. specialize (H b). rewrite Hb in H.
  apply andb_true_iff in H as [H1 H2]. by apply bool_decide_eq_true in H1.
Qed.

Lemma lead2 b0 :
  in_range 194 223 b0 = true →
  chr (N.lor 192 (N.land (byte b0) 31)) = b0 ∧ high b0 = true ∧
  2 <= N.land (byte b0) 31 ∧ N.land (byte b0) 31 < 32.
Proof.
  revert b0.
  assert (H : ∀ b0, (if in_range 194 223 b0 then
                       bool_decide (chr (N.lor 192 (N.land (byte b0) 31)) = b0) &&
                       high b0 && (2 <=? N.land (byte b0) 31) &&
                       (N.land (byte b0) 31 <? 32)
                     else true) = true).
  { apply forall_bytes. vm_compute. reflexivity. }
  intros b0 Hb. specialize (H b0). rewrite Hb in H.
  repeat (apply andb_true_iff in H as [H ?]).
  apply bool_decide_eq_true in H. repeat split; auto.
  - by apply N.leb_le.
  - by apply N.ltb_lt.
Qed.

Lemma forall_bytes2 (P : ascii → ascii → bool) :
  forallb (fun b0 => forallb (P b0) all_bytes) all_bytes = true →
  ∀ b0 b1, P b0 b1 = true.
Proof.
  intros H b0 b1.
  apply (forall_bytes (fun b0 => forallb (P b0) all_bytes)) with (c := b0) in H.
  by apply (forall_bytes (P b0)).
Qed.

Lemma lead3 b0 b1 :
  in_range 224 239 b0 = true → ok1_3 b0 b1 = true →
  chr (N.lor 224 (N.land (byte b0) 15)) = b0 ∧ high b0 = true ∧
  chr (N.lor 128 (low6 b1)) = b1 ∧ high b1 = true ∧
  32 <= push (N.land (byte b0) 15) (low6 b1) ∧
  push (N.land (byte b0) 15) (low6 b1) < 1024 ∧
  ¬ (864 <= push (N.land (byte b0) 15) (low6 b1) < 896).
Proof.
  revert b0 b1.
  assert (H : ∀ b0 b1,
             (if in_range 224 239 b0 then if ok1_3 b0 b1 then
                let a := push (N.land (byte b0) 15) (low6 b1) in
                bool_decide (chr (N.lor 224 (N.land (byte b0) 15)) = b0) && high b0 &&
                bool_decide (chr (N.lor 128 (low6 b1)) = b1) && high b1 &&
                (32 <=? a) && (a <? 1024) && negb ((864 <=? a) && (a <? 896))
              else true else true) = true).
  { apply forall_bytes2. vm_compute. reflexivity. }
  intros b0 b1 H0 H1. specialize (H b0 b1). rewrite H0, H1 in H. cbv zeta in H.
  repeat (apply andb_true_iff in H as [H ?]).
  apply bool_decide_eq_true in H.
  repeat match goal with
         | H : bool_decide _ = true |- _ => apply bool_decide_eq_true in H
         | H : (_ <=? _) = true |- _ => apply N.leb_le in H
         | H : (_ <? _) = true |- _ => apply N.ltb_lt in H
         end.
  repeat split; auto.
  intros [Ha Hb]. apply N.leb_le in Ha. apply N.ltb_lt in Hb.
  match goal with H : negb _ = true |- _ => rewrite Ha, Hb in H; done end.
Qed.

Lemma lead4 b0 b1 :
  in_range 240 244 b0 = true → ok1_4 b0 b1 = true →
  chr (N.lor 240 (N.land (byte b0) 7)) = b0 ∧ high b0 = true ∧
  chr (N.lor 128 (low6 b1)) = b1 ∧ high b1 = true ∧
  16 <= push (N.land (byte b0) 7) (low6 b1) ∧
  push (N.land (byte b0) 7) (low6 b1) < 272.
Proof.
  revert b0 b1.
  assert (H : ∀ b0 b1,
             (if in_range 240 244 b0 then if ok1_4 b0 b1 then
                let a := push (N.land (byte b0) 7) (low6 b1) in
                bool_decide (chr (N.lor 240 (N.land (byte b0) 7)) = b0) && high b0 &&
                bool_decide (chr (N.lor 128 (low6 b1)) = b1) && high b1 &&
                (16 <=? a) && (a <? 272)
              else true else true) = true).
  { apply forall_bytes2. vm_compute. reflexivity. }
  intros b0 b1 H0 H1. specialize (H b0 b1). rewrite H0, H1 in H. cbv zeta in H.
  repeat (apply andb_true_iff in H as [H ?]).
  apply bool_decide_eq_true in H.
  repeat match goal with
         | H : bool_decide _ = true |- _ => apply bool_decide_eq_true in H
         | H : (_ <=? _) = true |- _ => apply N.leb_le in H
         | H : (_ <? _) = true |- _ => apply N.ltb_lt in H
         end.
  repeat split; auto.
Qed.

Lemma push3 x0 x1 x2 :
  N.lor (N.shiftl x0 12) (N.lor (N.shiftl x1 6) x2) = push (push x0 x1) x2.
Proof.
  unfold push. rewrite N.shiftl_lor, N.shiftl_shiftl, N.lor_assoc. done.
Qed.

Lemma push4 x0 x1 x2 x3 :
  N.lor (N.shiftl x0 18) (N.lor (N.shiftl x1 12) (N.lor (N.shiftl x2 6) x3)) =
  push (push (push x0 x1) x2) x3.
Proof.
  unfold push. rewrite !N.shiftl_lor, !N.shiftl_shiftl, !N.lor_assoc. done.
Qed.

Lemma shiftr_12 r : N.shiftr r 12 = N.shiftr (N.shiftr r 6) 6.
Proof. by rewrite N.shiftr_shiftr. Qed.
Lemma shiftr_18 r : N.shiftr r 18 = N.shiftr (N.shiftr (N.shiftr r 6) 6) 6.
Proof. by rewrite !N.shiftr_shiftr. Qed.

Lemma EncodeRune_1 c : byte c < 128 → EncodeRune (byte c) = String c "".
Proof.
  intros H. unfold EncodeRune.
  replace (byte c <=? 127) with true by (symmetry; apply N.leb_le; lia).
  by rewrite chr_byte.
Qed.

Lemma EncodeRune_2 b0 b1 :
  in_range 194 223 b0 = true → cont b1 = true →
  EncodeRune (push (N.land (byte b0) 31) (low6 b1)) = String b0 (String b1 "") ∧
  128 <= push (N.land (byte b0) 31) (low6 b1).
Proof.
  intros (H0 & _ & Hlo & Hhi)%lead2 [H1 _]%cont_chr.
  pose proof (low6_lt b1) as Hx1.
  set (x0 := N.land (byte b0) 31) in *. set (x1 := low6 b1) in *.
  assert (Hr : push x0 x1 = x0 * 64 + x1) by by apply push_add.
  split; [|lia]. unfold EncodeRune.
  replace (push x0 x1 <=? 127) with false by (symmetry; apply N.leb_gt; lia).
  replace (push x0 x1 <=? 2047) with true by (symmetry; apply N.leb_le; lia).
  rewrite push_shiftr, push_land by done. by rewrite H0, H1.
Qed.

Lemma EncodeRune_3 b0 b1 b2 :
  in_range 224 239 b0 = true → ok1_3 b0 b1 = true → cont b2 = true →
  EncodeRune (push (push (N.land (byte b0) 15) (low6 b1)) (low6 b2)) =
    String b0 (String b1 (String b2 "")) ∧
  128 <= push (push (N.land (byte b0) 15) (low6 b1)) (low6 b2).
Proof.
  intros Hb0 Hb1 [H2 _]%cont_chr.
  destruct (lead3 b0 b1 Hb0 Hb1) as (H0 & _ & H1 & _ & Hlo & Hhi & Hsur).
  pose proof (low6_lt b1) as Hx1. pose proof (low6_lt b2) as Hx2.
  set (x0 := N.land (byte b0) 15) in *. set (x1 := low6 b1) in *.
  set (x2 := low6 b2) in *. set (a := push x0 x1) in *.
  assert (Hr : push a x2 = a * 64 + x2) by by apply push_add.
  split; [|lia]. unfold EncodeRune.
  replace (push a x2 <=? 127) with false by (symmetry; apply N.leb_gt; lia).
  replace (push a x2 <=? 2047) with false by (symmetry; apply N.leb_gt; lia).
  replace ((1114111 <? push a x2) || (55296 <=? push a x2) && (push a x2 <=? 57343))
    with false.
  2:{ symmetry. apply orb_false_iff. split; [apply N.ltb_ge; lia|].
      apply andb_false_iff.
      destruct (decide (a < 864)); [left; apply N.leb_gt; lia|].
      right. apply N.leb_gt. lia. }
  replace (push a x2 <=? 65535) with true by (symmetry; apply N.leb_le; lia).
  rewrite shiftr_12, !push_shiftr, !push_land by done.
  unfold a. rewrite push_shiftr, push_land by done. by rewrite H0, H1, H2.
Qed.

Lemma EncodeRune_4 b0 b1 b2 b3 :
  in_range 240 244 b0 = true → ok1_4 b0 b1 = true →
  cont b2 = true → cont b3 = true →
  EncodeRune (push (push (push (N.land (byte b0) 7) (low6 b1)) (low6 b2)) (low6 b3)) =
    String b0 (String b1 (String b2 (String b3 ""))) ∧
  128 <= push (push (push (N.land (byte b0) 7) (low6 b1)) (low6 b2)) (low6 b3).
Proof.
  intros Hb0 Hb1 [H2 _]%cont_chr [H3 _]%cont_chr.
  destruct (lead4 b0 b1 Hb0 Hb1) as (H0 & _ & H1 & _ & Hlo & Hhi).
  pose proof (low6_lt b1) as Hx1. pose proof (low6_lt b2) as Hx2.
  pose proof (low6_lt b3) as Hx3.
  set (x0 := N.land (byte b0) 7) in *. set (x1 := low6 b1) in *.
  set (x2 := low6 b2) in *. set (x3 := low6 b3) in *. set (a := push x0 x1) in *.
  assert (Hr1 : push a x2 = a * 64 + x2) by by apply push_add.
  set (a' := push a x2) in *.
  assert (Hr : push a' x3 = a' * 64 + x3) by by apply push_add.
  split; [|lia]. unfold EncodeRune.
  replace (push a' x3 <=? 127) with false by (symmetry; apply N.leb_gt; lia).
  replace (push a' x3 <=? 2047) with false by (symmetry; apply N.leb_gt; lia).
  replace ((1114111 <? push a' x3) || (55296 <=? push a' x3) && (push a' x3 <=? 57343))
    with false.
  2:{ symmetry. apply orb_false_iff. split; [apply N.ltb_ge; lia|].
      apply andb_false_iff. right. apply N.leb_gt. lia. }
  replace (push a' x3 <=? 65535) with false by (symmetry; apply N.leb_gt; lia).
  rewrite shiftr_18, shiftr_12, !push_shiftr, !push_land by done.
  unfold a'. rewrite !push_shiftr, !push_land by done.
  unfold a. rewrite !push_shiftr, !push_land by done. by rewrite H0, H1, H2, H3.
Qed.

Lemma RuneError_high : N.land RuneError 128 ≠ 0.
Proof. by vm_compute. Qed.

Lemma decode_ascii c s :
  byte c < 128 → DecodeRuneInString (String c s) = (byte c, 1%nat).
Proof.
  intros H. unfold DecodeRuneInString.
  by replace (byte c <? 128) with true by (symmetry; by apply N.ltb_lt).
Qed.

(** A rune whose bit 7 is clear was decoded from a valid encoding, which
    [EncodeRune] gives back; the decoding reads these bytes only. *)
Lemma decode_valid s r w :
  s ≠ "" → DecodeRuneInString s = (r, w) → N.land r 128 = 0 →
  EncodeRune r = Strings.take w s ∧ (1 ≤ w)%nat ∧ (w ≤ String.length s)%nat ∧
  (∀ t, DecodeRuneInString (Strings.take w s +:+ t) = (r, w)) ∧
  ((w = 1%nat ∧ ∃ c s', s = String c s' ∧ byte c < 128 ∧ r = byte c) ∨
   ((1 < w)%nat ∧ 128 <= r ∧ Strings.forallb high (Strings.take w s) = true)).
Proof.
  intros Hs Hd Hr. destruct s as [|b0 t]; [done|]. clear Hs.
  pose proof RuneError_high as HE.
  unfold DecodeRuneInString in Hd.
  destruct (byte b0 <? 128) eqn:H1.
  { injection Hd as <- <-. apply N.ltb_lt in H1.
    split; [by apply EncodeRune_1|]. split; [done|]. split; [simpl; lia|].
    split; [intros t'; by apply decode_ascii|]. left. eauto 10. }
  destruct (in_range 194 223 b0) eqn:H2.
  { destruct t as [|b1 t]; [injection Hd as <- <-; done|].
    destruct (cont b1) eqn:Hc1; [|injection Hd as <- <-; done].
    injection Hd as <- <-.
    destruct (EncodeRune_2 b0 b1 H2 Hc1) as [He Hge].
    destruct (lead2 b0 H2) as (_ & Hh0 & _). destruct (cont_chr b1 Hc1) as [_ Hh1].
    split; [done|]. split; [lia|]. split; [simpl; lia|]. split.
    - intros t'. simpl. sapp. unfold DecodeRuneInString. by rewrite H1, H2, Hc1.
    - right. split; [lia|]. split; [done|]. simpl. by rewrite Hh0, Hh1. }
  destruct (in_range 224 239 b0) eqn:H3.
  { destruct t as [|b1 [|b2 t]]; try (injection Hd as <- <-; done).
    destruct (in_range _ _ b1 && cont b2) eqn:Hc; [|injection Hd as <- <-; done].
    injection Hd as <- <-. apply andb_true_iff in Hc as [Hc1 Hc2].
    rewrite push3 in *.
    destruct (EncodeRune_3 b0 b1 b2 H3 Hc1 Hc2) as [He Hge].
    destruct (lead3 b0 b1 H3 Hc1) as (_ & Hh0 & _ & Hh1 & _).
    destruct (cont_chr b2 Hc2) as [_ Hh2].
    split; [done|]. split; [lia|]. split; [simpl; lia|]. split.
    - intros t'. simpl. sapp. unfold DecodeRuneInString. rewrite H1, H2, H3.
      unfold ok1_3 in Hc1. rewrite Hc1, Hc2. simpl. by rewrite push3.
    - right. split; [lia|]. split; [done|]. simpl. by rewrite Hh0, Hh1, Hh2. }
  destruct (in_range 240 244 b0) eqn:H4.
  { destruct t as [|b1 [|b2 [|b3 t]]]; try (injection Hd as <- <-; done).
    destruct (in_range _ _ b1 && cont b2 && cont b3) eqn:Hc;
      [|injection Hd as <- <-; done].
    injection Hd as <- <-.
    apply andb_true_iff in Hc as [[Hc1 Hc2]%andb_true_iff Hc3].
    rewrite push4 in *.
    destruct (EncodeRune_4 b0 b1 b2 b3 H4 Hc1 Hc2 Hc3) as [He Hge].
    destruct (lead4 b0 b1 H4 Hc1) as (_ & Hh0 & _ & Hh1 & _).
    destruct (cont_chr b2 Hc2) as [_ Hh2]. destruct (cont_chr b3 Hc3) as [_ Hh3].
    split; [done|]. split; [lia|]. split; [simpl; lia|]. split.
    - intros t'. simpl. sapp. unfold DecodeRuneInString. rewrite H1, H2, H3, H4.
      unfold ok1_4 in Hc1. rewrite Hc1, Hc2, Hc3. simpl. by rewrite push4.
    - right. split; [lia|]. split; [done|]. simpl. by rewrite Hh0, Hh1, Hh2, Hh3. }
  injection Hd as <- <-. done.
Qed.

(** A rune takes at least one byte, and no more than there are. *)
Lemma decode_width s :
  s ≠ "" → (1 ≤ (DecodeRuneInString s).2 ≤ String.length s)%nat.
Proof.
  intros Hs. destruct s as [|b0 t]; [done|]. unfold DecodeRuneInString.
  repeat case_match; simpl; lia.
Qed.

End Utf8Facts.

(** ** ASCII strings *)

(** ** ASCII *)

Section AsciiFacts.
Import Bytes.
Import Utf8 Unicode GoStrings Mime.

Lemma token_char_facts c :
  isTokenChar c = true →
  is_ascii c = true ∧ ascii_space c = false ∧
  isTokenChar (lower_byte c) = true ∧
  c ≠ ";"%char ∧ c ≠ "="%char ∧ c ≠ "/"%char ∧ c ≠ quote ∧ c ≠ backslash ∧
  c ≠ " "%char.
Proof.
  revert c.
  assert (H : ∀ c, (if isTokenChar c then
                      is_ascii c && negb (ascii_space c) && isTokenChar (lower_byte c) &&
                      negb (bool_decide (c = ";"%char)) &&
                      negb (bool_decide (c = "="%char)) &&
                      negb (bool_decide (c = "/"%char)) &&
                      negb (bool_decide (c = quote)) &&
                      negb (bool_decide (c = backslash)) &&
                      negb (bool_decide (c = " "%char))
                    else true) = true).
  { apply forall_bytes. vm_compute. reflexivity. }
  intros c Hc. specialize (H c). rewrite Hc in H.
  repeat (apply andb_true_iff in H as [H ?]).
  repeat match goal with
         | H : negb (bool_decide _) = true |- _ =>
           apply negb_true_iff, bool_decide_eq_false in H
         | H : negb _ = true |- _ => apply negb_true_iff in H
         end.
  repeat split; auto.
Qed.

Lemma lower_byte_facts c :
  lower_byte (lower_byte c) = lower_byte c ∧
  isTokenChar (lower_byte c) = isTokenChar c ∧
  is_ascii (lower_byte c) = is_ascii c ∧
  bool_decide (lower_byte c = "*"%char) = bool_decide (c = "*"%char) ∧
  bool_decide (lower_byte c = "+"%char) = bool_decide (c = "+"%char) ∧
  bool_decide (lower_byte c = "/"%char) = bool_decide (c = "/"%char).
Proof.
  revert c.
  assert (H : ∀ c,
    bool_decide (lower_byte (lower_byte c) = lower_byte c) &&
    bool_decide (isTokenChar (lower_byte c) = isTokenChar c) &&
    bool_decide (is_ascii (lower_byte c) = is_ascii c) &&
    bool_decide (bool_decide (lower_byte c = "*"%char) = bool_decide (c = "*"%char)) &&
    bool_decide (bool_decide (lower_byte c = "+"%char) = bool_decide (c = "+"%char)) &&
    bool_decide (bool_decide (lower_byte c = "/"%char) = bool_decide (c = "/"%char))
    = true).
  { apply forall_bytes. vm_compute. reflexivity. }
  intros c. specialize (H c).
  repeat (apply andb_true_iff in H as [H ?]).
  repeat match goal with
         | H : bool_decide _ = true |- _ => apply bool_decide_eq_true in H
         end.
  repeat split; auto.
Qed.

Lemma lower_ascii_idemp s : lower_ascii (lower_ascii s) = lower_ascii s.
Proof.
  induction s as [|c s IH]; simpl; [done|].
  rewrite IH. by destruct (lower_byte_facts c) as (-> & _).
Qed.

Lemma lower_ascii_app a b : lower_ascii (a +:+ b) = lower_ascii a +:+ lower_ascii b.
Proof. induction a as [|c a IH]; sapp; simpl; sapp; [done|]. by rewrite IH. Qed.

Lemma length_lower_ascii s : String.length (lower_ascii s) = String.length s.
Proof. induction s as [|c s IH]; simpl; [done|]. by rewrite IH. Qed.

Lemma forallb_lower_ascii (p : ascii → bool) s :
  (∀ c, p (lower_byte c) = p c) →
  Strings.forallb p (lower_ascii s) = Strings.forallb p s.
Proof.
  intros H. induction s as [|c s IH]; simpl; [done|]. by rewrite H, IH.
Qed.

Lemma isToken_lower_ascii s : isToken (lower_ascii s) = isToken s.
Proof.
  unfold isToken. rewrite forallb_lower_ascii.
  - f_equal. by destruct s.
  - intros c. by destruct (lower_byte_facts c) as (_ & -> & _).
Qed.

Lemma lower_ascii_take_while (p : ascii → bool) s :
  (∀ c, p (lower_byte c) = p c) →
  lower_ascii (Strings.take_while p s) = Strings.take_while p (lower_ascii s).
Proof.
  intros H. induction s as [|c s IH]; simpl; [done|].
  rewrite H. destruct (p c); simpl; [|done]. by rewrite IH.
Qed.

Lemma lower_ascii_drop_while (p : ascii → bool) s :
  (∀ c, p (lower_byte c) = p c) →
  lower_ascii (Strings.drop_while p s) = Strings.drop_while p (lower_ascii s).
Proof.
  intros H. induction s as [|c s IH]; simpl; [done|].
  rewrite H. destruct (p c); simpl; [|done]. by rewrite IH.
Qed.

Lemma contains_lower_ascii d s :
  (∀ c, bool_decide (lower_byte c = d) = bool_decide (c = d)) →
  GoStrings.contains d (lower_ascii s) = GoStrings.contains d s.
Proof.
  intros H. induction s as [|c s IH]; simpl; [done|]. by rewrite H, IH.
Qed.

Lemma isToken_ascii s : isToken s = true → Strings.forallb is_ascii s = true.
Proof.
  unfold isToken. intros [_ H]%andb_true_iff. revert H. apply forallb_impl_s.
  intros c Hc. by destruct (token_char_facts c Hc) as (? & _).
Qed.

Section WithTable.
Import Bytes.
Variable tbl : N → N.

Lemma map_runes_ascii fuel changed s :
  String.length s ≤ fuel → Strings.forallb is_ascii s = true →
  map_runes (unicode_ToLower tbl) fuel changed s = lower_ascii s.
Proof.
  revert changed s. induction fuel as [|fuel IH]; intros changed [|c s] Hl Ha;
    simpl in *; try done; try lia.
  apply andb_true_iff in Ha as [Hc Ha]. unfold is_ascii in Hc.
  rewrite Hc. apply N.ltb_lt in Hc.
  rewrite !(IH _ s) by (done || lia).
  unfold unicode_ToLower, lower_byte.
  replace (byte c <=? 127)%N with true by (symmetry; apply N.leb_le; lia).
  destruct ((65 <=? byte c) && (byte c <=? 90))%N eqn:Hu.
  - replace (byte c + 32 =? byte c)%N with false by (symmetry; apply N.eqb_neq; lia).
    rewrite andb_false_r. unfold EncodeRune.
    apply andb_true_iff in Hu as [_ Hu%N.leb_le].
    replace (byte c + 32 <=? 127)%N with true by (symmetry; apply N.leb_le; lia).
    by sapp.
  - rewrite N.eqb_refl, andb_true_r. destruct changed; simpl; sapp; [|done].
    by rewrite EncodeRune_1.
Qed.

Lemma ToLower_ascii s :
  Strings.forallb is_ascii s = true → GoStrings.ToLower tbl s = lower_ascii s.
Proof. intros. by apply map_runes_ascii. Qed.

End WithTable.

(** *** Trimming *)

Lemma trim_left_nonspace fuel c s :
  is_ascii c = true → ascii_space c = false →
  trim_left (S fuel) (String c s) = String c s.
Proof.
  intros Ha Hs. simpl. unfold is_ascii in Ha. rewrite Ha.
  unfold ascii_space in Hs. by rewrite Hs.
Qed.

Lemma TrimLeftSpace_nonspace c s :
  is_ascii c = true → ascii_space c = false →
  TrimLeftSpace (String c s) = String c s.
Proof. intros. by apply trim_left_nonspace. Qed.

Lemma TrimLeftSpace_nil : TrimLeftSpace "" = "".
Proof. done. Qed.

Lemma TrimLeftSpace_space s : TrimLeftSpace (String " " s) = TrimLeftSpace s.
Proof. reflexivity. Qed.

End AsciiFacts.

(** ** Trimming on the right *)

Section TrimRightFacts.
Import Bytes.
Import Utf8 Unicode GoStrings Mime.

Lemma get_app_r (a b : string) n :
  Path.get (String.length a + n) (a +:+ b) = Path.get n b.
Proof. induction a as [|x a IH]; sapp; simpl; [done|]. exact IH. Qed.

Lemma get_app_at (a : string) c (b : string) :
  Path.get (String.length a) (a +:+ String c b) = c.
Proof.
  rewrite <- (Nat.add_0_r (String.length a)). by rewrite get_app_r.
Qed.

Lemma take_app_ge (p b : string) n :
  Strings.take (String.length p + n) (p +:+ b) = p +:+ Strings.take n b.
Proof. induction p as [|x p IH]; sapp; simpl; sapp; [done|]. by rewrite IH. Qed.

Lemma drop_app_ge (p b : string) n :
  Strings.drop (String.length p + n) (p +:+ b) = Strings.drop n b.
Proof. induction p as [|x p IH]; sapp; simpl; [done|]. by rewrite IH. Qed.

Lemma ascii_RuneStart c : is_ascii c = true → RuneStart c = true.
Proof.
  revert c.
  assert (H : ∀ c, (if is_ascii c then RuneStart c else true) = true).
  { apply forall_bytes. vm_compute. reflexivity. }
  intros c Hc. specialize (H c). by rewrite Hc in H.
Qed.

Lemma find_start_spec s n st :
  match find_start s n st with
  | Some i => i ≤ st ∧ st < i + n ∧ RuneStart (Path.get i s) = true ∧
              ∀ j, i < j → j ≤ st → RuneStart (Path.get j s) = false
  | None => ∀ j, j ≤ st → st < j + n → RuneStart (Path.get j s) = false
  end.
Proof.
  revert st. induction n as [|n IH]; intros st; simpl.
  - intros j ??. lia.
  - destruct (RuneStart (Path.get st s)) eqn:Hst.
    + repeat split; [lia..|done|]. intros j ??. lia.
    + destruct st as [|st'].
      * intros j Hj _. by replace j with 0 by lia.
      * specialize (IH st'). destruct (find_start s n st') as [i|].
        -- destruct IH as (? & ? & ? & Hj). repeat split; [lia..|done|].
           intros j ??. destruct (decide (j = S st')) as [->|]; [done|].
           apply Hj; lia.
        -- intros j Hj1 Hj2. destruct (decide (j = S st')) as [->|]; [done|].
           apply IH; lia.
Qed.

(** Decoding the last rune does not reach back beyond an ASCII byte. *)
Lemma DecodeLast_size (a : string) c (b : string) :
  is_ascii c = true → b ≠ "" →
  1 ≤ (DecodeLastRuneInString (a +:+ String c b)).2 ≤ String.length b.
Proof.
  intros Hc Hb. set (s := a +:+ String c b).
  assert (Hlen : String.length s = String.length a + 1 + String.length b).
  { unfold s. rewrite length_app_s. simpl. lia. }
  assert (Hbl : 1 ≤ String.length b) by (destruct b; [done|simpl; lia]).
  unfold DecodeLastRuneInString.
  destruct (String.length s) as [|start] eqn:Hs; [lia|].
  case_match; [simpl; lia|].
  destruct start as [|st]; [lia|].
  remember (S (S st) - 4) as lim eqn:Hlim.
  pose proof (find_start_spec s (S st - lim) st) as Hf.
  assert (Hca : RuneStart (Path.get (String.length a) s) = true).
  { unfold s. rewrite get_app_at. by apply ascii_RuneStart. }
  set (start' := match find_start s (S st - lim) st with
                 | Some i => i
                 | None => if lim =? 0 then 0 else lim - 1
                 end).
  assert (Hst : String.length a ≤ start' < S (S st)).
  { unfold start'. destruct (find_start s (S st - lim) st) as [i|].
    - destruct Hf as (Hi1 & Hi2 & Hi3 & Hi4). split; [|lia].
      destruct (decide (String.length a ≤ i)); [done|]. exfalso.
      rewrite (Hi4 (String.length a)) in Hca; [done|lia|lia].
    - destruct (lim =? 0) eqn:Hl.
      + apply Nat.eqb_eq in Hl. exfalso.
        rewrite (Hf (String.length a)) in Hca; [done|lia|lia].
      + apply Nat.eqb_neq in Hl. split; [|lia].
        destruct (decide (String.length a ≤ lim - 1)); [done|]. exfalso.
        rewrite (Hf (String.length a)) in Hca; [done|lia|lia]. }
  clearbody start'.
  destruct (DecodeRuneInString (Strings.drop start' s)) as [r size] eqn:Hd.
  destruct (start' + size =? S (S st)) eqn:He; simpl; [|lia].
  apply Nat.eqb_eq in He.
  assert (Hne : Strings.drop start' s ≠ "").
  { intros E. apply (f_equal String.length) in E. rewrite length_drop_s in E.
    simpl in E. lia. }
  pose proof (decode_width _ Hne) as Hw. rewrite Hd in Hw. simpl in Hw.
  destruct (decide (start' = String.length a)) as [Heq|Hneq]; [|lia].
  exfalso. rewrite Heq in Hd. unfold s in Hd.
  pose proof (drop_app_ge a (String c b) 0) as Hdr.
  rewrite Nat.add_0_r in Hdr. rewrite Hdr in Hd.
  change (Strings.drop 0 (String c b)) with (String c b) in Hd.
  rewrite decode_ascii in Hd by (by apply N.ltb_lt). injection Hd as <- <-. lia.
Qed.

Lemma length_take_s n (s : string) :
  String.length (Strings.take n s) = n `min` String.length s.
Proof.
  revert s. induction n as [|n IH]; intros [|c s]; simpl; try done.
  by rewrite IH.
Qed.

Lemma last_index_unfold fuel s :
  s ≠ "" →
  last_index_not_space (S fuel) s =
  if IsSpace (DecodeLastRuneInString s).1
  then last_index_not_space fuel
         (Strings.take (String.length s - (DecodeLastRuneInString s).2) s)
  else Some (String.length s - (DecodeLastRuneInString s).2).
Proof.
  intros Hs. destruct s as [|c s]; [done|]. simpl.
  by destruct (DecodeLastRuneInString (String c s)).
Qed.

Lemma app_not_nil (a : string) c (b : string) : a +:+ String c b ≠ "".
Proof. destruct a; sapp; done. Qed.

Lemma DecodeLast_ascii (a : string) c :
  is_ascii c = true → DecodeLastRuneInString (a +:+ String c "") = (byte c, 1).
Proof.
  intros Hc. unfold DecodeLastRuneInString.
  assert (Hlen : String.length (a +:+ String c "") = S (String.length a)).
  { rewrite length_app_s. simpl. lia. }
  rewrite Hlen, get_app_at. unfold is_ascii in Hc. by rewrite Hc.
Qed.

(** The last rune that is not white space is not before an ASCII byte that
    is not white space. *)
Lemma last_index_ge fuel (a : string) c (b : string) :
  is_ascii c = true → ascii_space c = false →
  String.length (a +:+ String c b) ≤ fuel →
  ∃ i, last_index_not_space fuel (a +:+ String c b) = Some i ∧
       String.length a ≤ i ∧ (b = "" → i = String.length a).
Proof.
  intros Hc Hs. revert b. induction fuel as [|fuel IH]; intros b Hl.
  { rewrite length_app_s in Hl. simpl in Hl. lia. }
  rewrite last_index_unfold by apply app_not_nil.
  rewrite length_app_s in *. simpl in Hl |- *.
  destruct (decide (b = "")) as [->|Hb].
  - rewrite DecodeLast_ascii by done. simpl.
    unfold ascii_space in Hs. rewrite Hs. eexists. split; [done|]. lia.
  - pose proof (DecodeLast_size a c b Hc Hb) as Hsz.
    destruct (DecodeLastRuneInString (a +:+ String c b)) as [r size]. simpl in *.
    destruct (IsSpace r).
    + replace (String.length a + S (String.length b) - size)
        with (String.length a + S (String.length b - size)) by lia.
      rewrite take_app_ge. simpl.
      destruct (IH (Strings.take (String.length b - size) b)) as (i & Hi & Hge & _).
      { rewrite length_app_s. simpl. rewrite length_take_s. lia. }
      exists i. split; [done|]. split; [done|]. by intros.
    + eexists. split; [done|]. split; [lia|]. by intros.
Qed.

Lemma TrimRightSpace_length (a : string) c (b : string) :
  is_ascii c = true → ascii_space c = false →
  String.length a ≤ String.length (TrimRightSpace (a +:+ String c b)).
Proof.
  intros Hc Hs. unfold TrimRightSpace.
  destruct (last_index_ge (String.length (a +:+ String c b)) a c b Hc Hs)
    as (i & -> & Hi & _); [done|].
  assert (String.length a < String.length (a +:+ String c b)).
  { rewrite length_app_s. simpl. lia. }
  case_match; rewrite length_take_s; lia.
Qed.

Lemma TrimRightSpace_ascii_end (a : string) c :
  is_ascii c = true → ascii_space c = false →
  TrimRightSpace (a +:+ String c "") = a +:+ String c "".
Proof.
  intros Hc Hs. unfold TrimRightSpace.
  destruct (last_index_ge (String.length (a +:+ String c "")) a c "" Hc Hs)
    as (i & -> & _ & Hi); [done|].
  rewrite Hi by done. rewrite get_app_at.
  unfold is_ascii in Hc. apply N.ltb_lt in Hc.
  replace (128 <=? byte c)%N with false by (symmetry; apply N.leb_gt; lia).
  replace (String.length a + 1) with (String.length (a +:+ String c ""))
    by (rewrite length_app_s; simpl; lia).
  rewrite <- (app_nil_r_s (a +:+ String c "")) at 2.
  by rewrite take_app_length_s.
Qed.

Lemma snoc_inv (s : string) : s ≠ "" → ∃ a c, s = a +:+ String c "".
Proof.
  induction s as [|x s IH]; [done|]. intros _.
  destruct (decide (s = "")) as [->|Hs].
  - by exists "", x.
  - destruct (IH Hs) as (a & c & ->). exists (String x a), c. by sapp.
Qed.

(** Trimming keeps a string of ASCII bytes without white space. *)
Lemma TrimSpace_plain s : Strings.forallb plain s = true → TrimSpace s = s.
Proof.
  intros H. destruct (decide (s = "")) as [->|Hs]; [done|].
  unfold TrimSpace.
  assert (Hl : TrimLeftSpace s = s).
  { destruct s as [|c s]; [done|]. simpl in H.
    apply andb_true_iff in H as [[? ?%negb_true_iff]%andb_true_iff _].
    by apply TrimLeftSpace_nonspace. }
  rewrite Hl. destruct (snoc_inv s Hs) as (a & c & ->).
  rewrite forallb_app_s in H. apply andb_true_iff in H as [_ H]. simpl in H.
  rewrite andb_true_r in H. apply andb_true_iff in H as [? ?%negb_true_iff].
  by apply TrimRightSpace_ascii_end.
Qed.

(** What is left of a semicolon, a space and a token is not a lone
    semicolon. *)
Lemma TrimSpace_param c t :
  isTokenChar c = true → TrimSpace (String ";" (String " " (String c t))) ≠ ";".
Proof.
  intros Hc. destruct (token_char_facts c Hc) as (Ha & Hs & _).
  unfold TrimSpace. rewrite TrimLeftSpace_nonspace by done.
  pose proof (TrimRightSpace_length "; " c t Ha Hs) as Hl.
  intros E. change ("; " +:+ String c t) with (String ";" (String " " (String c t))) in Hl.
  rewrite E in Hl. simpl in Hl. lia.
Qed.

End TrimRightFacts.

(** ** Quoted values *)

Section QuotedFacts.
Import Bytes Written.
Import Utf8 Unicode GoStrings Mime.

Lemma quoted_unfold fuel rest buffer lit :
  rest ≠ "" →
  quoted (S fuel) rest buffer lit =
  let r := (DecodeRuneInString rest).1 in
  let rest' := Strings.drop (DecodeRuneInString rest).2 rest in
  if lit then quoted fuel rest' (buffer +:+ EncodeRune r) false
  else if (r =? byte quote)%N then Some (buffer, rest')
  else if (r =? byte backslash)%N then quoted fuel rest' buffer true
  else if negb (r =? 13)%N && negb (r =? 10)%N
       then quoted fuel rest' (buffer +:+ EncodeRune r) false
  else None.
Proof.
  intros H. destruct rest as [|c rest]; [done|]. cbn [quoted].
  by destruct (DecodeRuneInString (String c rest)).
Qed.

Lemma has_high_rune_unfold fuel value :
  value ≠ "" →
  has_high_rune (S fuel) value =
  negb (N.land (DecodeRuneInString value).1 128 =? 0)%N
  || has_high_rune fuel (Strings.drop (DecodeRuneInString value).2 value).
Proof.
  intros H. destruct value as [|c v]; [done|]. cbn [has_high_rune].
  by destruct (DecodeRuneInString (String c v)).
Qed.

Lemma byte_inj c d : byte c = byte d → c = d.
Proof. intros H. by rewrite <- (chr_byte c), <- (chr_byte d), H. Qed.

Lemma high_not_special c :
  high c = true → bool_decide (c = quote) || bool_decide (c = backslash) = false.
Proof.
  revert c.
  assert (H : ∀ c, (if high c
                    then negb (bool_decide (c = quote) || bool_decide (c = backslash))
                    else true) = true).
  { apply forall_bytes. vm_compute. reflexivity. }
  intros c Hc. specialize (H c). rewrite Hc in H. by apply negb_true_iff.
Qed.

Lemma escape_high (a b : string) :
  Strings.forallb high a = true → escape (a +:+ b) = a +:+ escape b.
Proof.
  induction a as [|c a IH]; sapp; [done|]. simpl.
  intros [Hc Ha]%andb_true_iff. rewrite (high_not_special c Hc). sapp.
  by rewrite IH.
Qed.

Lemma length_escape v : String.length v ≤ String.length (escape v).
Proof.
  induction v as [|c v IH]; simpl; [done|]. case_match; simpl; lia.
Qed.

(** Reading back a value that was written between quotes gives the value,
    unless it is refused. *)
Lemma quoted_escape n : ∀ v fuel buffer tail,
  String.length v ≤ n → has_high_rune n v = false →
  String.length (escape v) < fuel →
  quoted fuel (escape v +:+ String quote tail) buffer false = None ∨
  quoted fuel (escape v +:+ String quote tail) buffer false
    = Some (buffer +:+ v, tail).
Proof.
  assert (Hend : ∀ fuel buffer tail,
    quoted (S fuel) (String quote tail) buffer false = Some (buffer +:+ "", tail)).
  { intros. by rewrite app_nil_r_s. }
  induction n as [|n IH]; intros v fuel buffer tail Hl Hh Hf.
  { destruct v; [|simpl in Hl; lia]. destruct fuel; [simpl in Hf; lia|].
    right. simpl escape. sapp. apply Hend. }
  destruct (decide (v = "")) as [->|Hv].
  { destruct fuel; [simpl in Hf; lia|]. right. simpl escape. sapp. apply Hend. }
  rewrite has_high_rune_unfold in Hh by done.
  apply orb_false_iff in Hh as [Hr Hh]. apply negb_false_iff, N.eqb_eq in Hr.
  destruct (DecodeRuneInString v) as [r w] eqn:Hd. simpl in Hr, Hh.
  destruct (decode_valid v r w Hv Hd Hr) as (He & Hw1 & Hw2 & Hpre & Hcase).
  destruct Hcase as [(-> & c & v' & -> & Hc & ->)|(Hw & Hge & Hhigh)].
  - (* an ASCII byte *)
    simpl in Hh, Hl. cbn [escape] in Hf |- *.
    destruct (bool_decide (c = quote) || bool_decide (c = backslash)) eqn:Hq.
    + sapp. destruct fuel as [|[|fuel]]; [simpl in Hf; lia..|]. simpl in Hf.
      rewrite quoted_unfold by done. rewrite decode_ascii by done.
      cbn [fst snd Strings.drop].
      replace (byte backslash =? byte quote)%N with false by done.
      replace (byte backslash =? byte backslash)%N with true by done.
      cbv zeta. rewrite quoted_unfold by done. rewrite decode_ascii by done.
      cbn [fst snd Strings.drop]. cbv zeta. rewrite EncodeRune_1 by done.
      destruct (IH v' fuel (buffer +:+ String c "") tail) as [E|E];
        [lia|done|lia|by left|].
      right. rewrite E. rewrite app_assoc_s. by sapp.
    + sapp. destruct fuel as [|fuel]; [simpl in Hf; lia|]. simpl in Hf.
      rewrite quoted_unfold by done. rewrite decode_ascii by done.
      cbn [fst snd Strings.drop]. cbv zeta.
      apply orb_false_iff in Hq as [Hq1%bool_decide_eq_false Hq2%bool_decide_eq_false].
      replace (byte c =? byte quote)%N with false
        by (symmetry; apply N.eqb_neq; intros E; by apply byte_inj in E).
      replace (byte c =? byte backslash)%N with false
        by (symmetry; apply N.eqb_neq; intros E; by apply byte_inj in E).
      destruct (negb (byte c =? 13)%N && negb (byte c =? 10)%N); [|by left].
      rewrite EncodeRune_1 by done.
      destruct (IH v' fuel (buffer +:+ String c "") tail) as [E|E];
        [lia|done|lia|by left|].
      right. rewrite E. rewrite app_assoc_s. by sapp.
  - (* a rune beyond ASCII *)
    assert (Hlt : String.length (Strings.take w v) = w).
    { rewrite length_take_s. lia. }
    assert (Hsplit : escape v = Strings.take w v +:+ escape (Strings.drop w v)).
    { rewrite <- (take_drop_s w v) at 1. by apply escape_high. }
    rewrite Hsplit in *. rewrite length_app_s, Hlt in Hf.
    rewrite app_assoc_s.
    destruct fuel as [|fuel]; [lia|].
    rewrite quoted_unfold.
    2:{ destruct v; [done|]. destruct w; [lia|]. simpl. by sapp. }
    rewrite Hpre. cbn [fst snd]. cbv zeta.
    assert (Hdrop : ∀ X, Strings.drop w (Strings.take w v +:+ X) = X).
    { intros X. rewrite <- Hlt at 1. apply drop_app_length_s. }
    rewrite Hdrop.
    replace (r =? byte quote)%N with false
      by (symmetry; apply N.eqb_neq; change (byte quote) with 34%N; lia).
    replace (r =? byte backslash)%N with false
      by (symmetry; apply N.eqb_neq; change (byte backslash) with 92%N; lia).
    replace (r =? 13)%N with false by (symmetry; apply N.eqb_neq; lia).
    replace (r =? 10)%N with false by (symmetry; apply N.eqb_neq; lia).
    cbn [negb andb]. rewrite He.
    destruct (IH (Strings.drop w v) fuel (buffer +:+ Strings.take w v) tail) as [E|E].
    + rewrite length_drop_s. lia.
    + done.
    + lia.
    + by left.
    + right. rewrite E. by rewrite app_assoc_s, take_drop_s.
Qed.

Lemma take_while_stops (a tail : string) :
  Strings.forallb isTokenChar a = true → stops tail →
  Strings.take_while isTokenChar (a +:+ tail) = a ∧
  Strings.drop_while isTokenChar (a +:+ tail) = tail.
Proof.
  intros Ha [->|[t ->]].
  - rewrite app_nil_r_s. split; [by apply take_while_all|by apply drop_while_all].
  - split; [by apply take_while_app|by apply drop_while_app].
Qed.

Lemma isToken_inv v :
  isToken v = true →
  ∃ c v', v = String c v' ∧ isTokenChar c = true ∧
          Strings.forallb isTokenChar v = true.
Proof.
  unfold isToken. intros [Hn Hf]%andb_true_iff.
  destruct v as [|c v]; [done|]. exists c, v. split; [done|]. split; [|done].
  simpl in Hf. by apply andb_true_iff in Hf as [? _].
Qed.

Lemma consumeValue_token v tail :
  isToken v = true → stops tail → consumeValue (v +:+ tail) = (v, tail).
Proof.
  intros Hv Ht. destruct (isToken_inv v Hv) as (c & v' & -> & Hc & Hf).
  destruct (token_char_facts c Hc) as (_ & _ & _ & _ & _ & _ & Hq & _).
  destruct (take_while_stops _ _ Hf Ht) as [E1 E2].
  sapp. unfold consumeValue. rewrite bool_decide_eq_false_2 by done.
  cbn [negb]. unfold consumeToken. rewrite <- app_cons_s. by rewrite E1, E2.
Qed.

Lemma consumeValue_quoted v tail :
  has_high_rune (String.length v) v = false →
  let input := String quote (escape v +:+ String quote tail) in
  consumeValue input = ("", input) ∨ consumeValue input = (v, tail).
Proof.
  intros Hh input. unfold input, consumeValue.
  rewrite bool_decide_eq_true_2 by done. cbn [negb].
  destruct (quoted_escape (String.length v) v
              (String.length (escape v +:+ String quote tail)) "" tail) as [E|E].
  - done.
  - done.
  - rewrite length_app_s. simpl. lia.
  - rewrite E. by left.
  - rewrite E. right. by sapp.
Qed.

End QuotedFacts.

(** ** Parameters that were written are read back *)

Section ParamFacts.
Import Bytes Written.
Import Utf8 Unicode GoStrings Mime.

Variable tbl : N → N.

Lemma ToLower_token k :
  isToken k = true → lower_ascii k = k → GoStrings.ToLower tbl k = k.
Proof.
  intros Hk Hl. rewrite ToLower_ascii; [done|]. by apply isToken_ascii.
Qed.

Lemma HasPrefix_cons c s : Strings.HasPrefix (String c s) (String c "") = true.
Proof.
  unfold Strings.HasPrefix. simpl. destruct (ascii_dec c c); [|done].
  by destruct s.
Qed.

(** The start of [consumeMediaParam] on a semicolon, a space, a lower case
    token and an equals sign: the token is the parameter, and the value is
    read from what follows. *)
Lemma consumeMediaParam_head k x :
  isToken k = true → lower_ascii k = k →
  plain (Path.get 0 x) = true →
  consumeMediaParam tbl (String ";" (String " " (k +:+ String "=" x))) =
  let input := String ";" (String " " (k +:+ String "=" x)) in
  if bool_decide ((consumeValue x).1 = "") then ("", "", input)
  else (k, (consumeValue x).1, (consumeValue x).2).
Proof.
  intros Hk Hl Hx.
  destruct (isToken_inv k Hk) as (c & k' & Ek & Hc & Hf).
  destruct (token_char_facts c Hc) as (Hca & Hcs & _).
  unfold consumeMediaParam.
  rewrite (TrimLeftSpace_nonspace ";"%char) by done.
  rewrite HasPrefix_cons. cbn [negb].
  change (Strings.drop 1 (String ";" ?s)) with s.
  rewrite TrimLeftSpace_space.
  assert (Hk1 : TrimLeftSpace (k +:+ String "=" x) = k +:+ String "=" x).
  { rewrite Ek. sapp. by apply TrimLeftSpace_nonspace. }
  rewrite Hk1. unfold consumeToken.
  rewrite take_while_app, drop_while_app by done.
  rewrite ToLower_token by done.
  rewrite bool_decide_eq_false_2 by (by rewrite Ek).
  rewrite (TrimLeftSpace_nonspace "="%char) by done.
  rewrite HasPrefix_cons. cbn [negb].
  change (Strings.drop 1 (String "=" ?s)) with s.
  assert (Hx1 : TrimLeftSpace x = x).
  { destruct x as [|d x]; [done|]. simpl in Hx.
    apply andb_true_iff in Hx as [? ?%negb_true_iff].
    by apply TrimLeftSpace_nonspace. }
  rewrite Hx1. by destruct (consumeValue x).
Qed.

Lemma written_plain value tail : plain (Path.get 0 (written value tail)) = true.
Proof.
  unfold written. destruct (isToken value) eqn:Hv.
  - destruct (isToken_inv value Hv) as (c & v' & -> & Hc & _). sapp.
    destruct (token_char_facts c Hc) as (Ha & Hs & _).
    unfold plain. change (Path.get 0 (String c ?s)) with c. by rewrite Ha, Hs.
  - by sapp.
Qed.

Lemma consumeValue_written value tail :
  (isToken value = true ∨ has_high_rune (String.length value) value = false) →
  stops tail →
  (consumeValue (written value tail)).1 = "" ∨
  consumeValue (written value tail) = (value, tail).
Proof.
  intros Hv Ht. unfold written. destruct (isToken value) eqn:Htok.
  - right. by apply consumeValue_token.
  - destruct Hv as [|Hh]; [done|]. sapp.
    destruct (consumeValue_quoted value tail Hh) as [E|E]; rewrite E; auto.
Qed.

(** One parameter that [FormatMediaType] wrote is read back, or
    refused. *)
Lemma consumeMediaParam_written k value tail :
  isToken k = true → lower_ascii k = k →
  (isToken value = true ∨ has_high_rune (String.length value) value = false) →
  stops tail →
  let input := String ";" (String " " (k +:+ String "=" (written value tail))) in
  consumeMediaParam tbl input = ("", "", input) ∨
  (value ≠ "" ∧ consumeMediaParam tbl input = (k, value, tail)).
Proof.
  intros Hk Hl Hv Ht input. unfold input.
  rewrite consumeMediaParam_head by (done || apply written_plain). cbv zeta.
  destruct (consumeValue_written value tail Hv Ht) as [E|E].
  - rewrite E. by left.
  - rewrite E. cbn [fst snd]. case_bool_decide; [by left|by right].
Qed.

(** What [format_params] writes for one attribute. *)
Lemma format_params_cons attribute attrs param ps :
  format_params tbl (attribute :: attrs) param = Some ps →
  let value := default "" (param !! attribute) in
  ∃ tail,
    format_params tbl attrs param = Some tail ∧
    isToken attribute = true ∧
    (isToken value = true ∨ has_high_rune (String.length value) value = false) ∧
    ps = String ";" (String " "
           (GoStrings.ToLower tbl attribute +:+ String "=" (written value tail))).
Proof.
  intros H. cbn [format_params] in H. cbv zeta in H |- *.
  set (value := default "" (param !! attribute)) in *.
  destruct (isToken attribute) eqn:Ha; [|done]. cbn [negb] in H.
  unfold written. destruct (isToken value) eqn:Hv.
  - destruct (format_params tbl attrs param) as [tail|]; [|done].
    simpl in H. injection H as <-. exists tail.
    split; [done|]. split; [done|]. split; [by left|].
    rewrite !app_assoc_s. by sapp.
  - destruct (has_high_rune (String.length value) value) eqn:Hh; [done|].
    destruct (format_params tbl attrs param) as [tail|]; [|done].
    simpl in H. injection H as <-. exists tail.
    split; [done|]. split; [done|]. split; [by right|].
    rewrite !app_assoc_s. by sapp.
Qed.

Lemma format_params_stops attrs param ps :
  format_params tbl attrs param = Some ps → stops ps.
Proof.
  destruct attrs as [|a attrs].
  - intros [= <-]. by left.
  - intros H. destruct (format_params_cons _ _ _ _ H) as (tail & _ & _ & _ & ->).
    right. eauto.
Qed.

Lemma parse_params_unfold fuel v st :
  v ≠ "" → TrimLeftSpace v = v →
  parse_params tbl (S fuel) v st =
  let key := (consumeMediaParam tbl v).1.1 in
  let value := (consumeMediaParam tbl v).1.2 in
  let rest := (consumeMediaParam tbl v).2 in
  if bool_decide (key = "") then
    if bool_decide (TrimSpace rest = ";") then TrailingSemicolon st else Invalid
  else if GoStrings.contains "*"%char key then
    let baseName := GoStrings.before "*"%char key in
    let pmap := default ∅ (continuation st !! baseName) in
    match pmap !! key with
    | Some _ => Invalid
    | None =>
      parse_params tbl fuel rest
        (mkParsing (params st)
                   (<[baseName := <[key := value]> pmap]> (continuation st)))
    end
  else
    match params st !! key with
    | Some _ => Invalid
    | None =>
      parse_params tbl fuel rest
        (mkParsing (<[key := value]> (params st)) (continuation st))
    end.
Proof.
  intros Hv Ht. cbn [parse_params].
  rewrite bool_decide_eq_false_2 by done. rewrite Ht.
  rewrite bool_decide_eq_false_2 by done.
  by destruct (consumeMediaParam tbl v) as [[key value] rest].
Qed.

(** The loop of [ParseMediaType] over what [format_params] wrote reads
    the same parameters, unless it refuses the text. *)
Lemma parse_params_written attrs : ∀ param ps st fuel,
  format_params tbl attrs param = Some ps →
  (∀ k, k ∈ attrs → lower_ascii k = k ∧ GoStrings.contains "*"%char k = false) →
  NoDup attrs →
  (∀ k, k ∈ attrs → params st !! k = None) →
  String.length ps < fuel →
  parse_params tbl fuel ps st = Invalid ∨
  parse_params tbl fuel ps st
    = Finished (mkParsing (inserted attrs param (params st)) (continuation st)).
Proof.
  induction attrs as [|k attrs IH]; intros param ps st fuel Hfmt Hkeys Hnd Hfresh Hfuel.
  { injection Hfmt as <-. destruct fuel; [simpl in Hfuel; lia|]. right.
    by destruct st. }
  destruct (format_params_cons _ _ _ _ Hfmt) as (tail & Htail & Hk & Hv & ->).
  destruct (Hkeys k) as [Hlow Hstar]; [by left|].
  rewrite ToLower_token in * by done.
  set (value := default "" (param !! k)) in *.
  pose proof (format_params_stops _ _ _ Htail) as Hst.
  destruct fuel as [|fuel]; [lia|].
  rewrite parse_params_unfold by (done || by apply TrimLeftSpace_nonspace).
  destruct (isToken_inv k Hk) as (c & k' & Ek & Hc & _).
  destruct (consumeMediaParam_written k value tail Hk Hlow Hv Hst) as [E|[Hne E]];
    rewrite E; cbn [fst snd]; cbv zeta.
  - rewrite bool_decide_eq_true_2 by done.
    rewrite bool_decide_eq_false_2; [by left|].
    rewrite Ek. sapp. by apply TrimSpace_param.
  - rewrite bool_decide_eq_false_2 by (by rewrite Ek).
    rewrite Hstar. rewrite Hfresh by (by left).
    apply NoDup_cons in Hnd as [Hnk Hnd].
    destruct (IH param tail (mkParsing (<[k:=value]> (params st)) (continuation st)) fuel)
      as [R|R]; try done.
    + intros k0 Hk0. apply Hkeys. by right.
    + intros k0 Hk0. cbn [params]. rewrite lookup_insert_ne.
      * apply Hfresh. by right.
      * intros ->. done.
    + simpl in Hfuel. rewrite length_app_s in Hfuel. simpl in Hfuel.
      unfold written in Hfuel. destruct (isToken value).
      * rewrite length_app_s in Hfuel. lia.
      * rewrite app_cons_s in Hfuel. simpl in Hfuel.
        rewrite length_app_s in Hfuel. simpl in Hfuel. lia.
    + by left.
    + right. by rewrite R.
Qed.

Lemma lookup_inserted attrs param : ∀ acc j,
  inserted attrs param acc !! j =
  if decide (j ∈ attrs) then Some (default "" (param !! j)) else acc !! j.
Proof.
  unfold inserted. induction attrs as [|k attrs IH]; intros acc j.
  { destruct (decide (j ∈ [])) as [H|H]; [|done]. by apply elem_of_nil in H. }
  cbn [foldl]. rewrite IH.
  destruct (decide (j ∈ attrs)) as [Hj|Hj]; destruct (decide (j ∈ k :: attrs)) as [Hk|Hk].
  - done.
  - exfalso. apply Hk. by right.
  - apply elem_of_cons in Hk as [->|?]; [|done]. by rewrite lookup_insert_eq.
  - rewrite lookup_insert_ne; [done|]. intros ->. apply Hk. by left.
Qed.

Lemma inserted_all attrs (param : gmap string string) :
  (∀ k, k ∈ attrs ↔ is_Some (param !! k)) → inserted attrs param ∅ = param.
Proof.
  intros H. apply map_eq. intros j. rewrite lookup_inserted.
  destruct (decide (j ∈ attrs)) as [Hj|Hj].
  - apply H in Hj as [x ->]. done.
  - rewrite lookup_empty. symmetry. apply eq_None_not_Some. by rewrite <- H.
Qed.

End ParamFacts.

(** ** What the first parse gives *)

Section SplitFacts.
Import Bytes Written.
Import Utf8 Unicode GoStrings Mime.

Lemma contains_forallb d s :
  GoStrings.contains d s = negb (Strings.forallb (is_not d) s).
Proof.
  induction s as [|c s IH]; simpl; [done|]. rewrite IH. unfold is_not.
  by destruct (bool_decide (c = d)).
Qed.

Lemma contains_before d s : GoStrings.contains d (GoStrings.before d s) = false.
Proof.
  rewrite contains_forallb. apply negb_false_iff. apply forallb_take_while.
Qed.

Lemma before_all d s : Strings.forallb (is_not d) s = true → GoStrings.before d s = s.
Proof. apply take_while_all. Qed.

Lemma forallb_take_while_other p q s :
  Strings.forallb p s = true → Strings.forallb p (Strings.take_while q s) = true.
Proof.
  induction s as [|c s IH]; simpl; [done|]. intros [Hc Hs]%andb_true_iff.
  destruct (q c); simpl; [|done]. by rewrite Hc, IH.
Qed.

Lemma forallb_drop_while_other p q s :
  Strings.forallb p s = true → Strings.forallb p (Strings.drop_while q s) = true.
Proof.
  induction s as [|c s IH]; simpl; [done|]. intros [Hc Hs]%andb_true_iff.
  destruct (q c); simpl; [by apply IH|]. by rewrite Hc, Hs.
Qed.

Lemma forallb_drop p n s :
  Strings.forallb p s = true → Strings.forallb p (Strings.drop n s) = true.
Proof.
  revert s. induction n as [|n IH]; intros [|c s]; simpl; try done.
  intros [_ Hs]%andb_true_iff. by apply IH.
Qed.

Lemma token_is_not d s :
  isTokenChar d = false → Strings.forallb isTokenChar s = true →
  Strings.forallb (is_not d) s = true.
Proof.
  intros Hd. apply forallb_impl_s. intros c Hc. unfold is_not.
  apply negb_true_iff, bool_decide_eq_false. by intros ->; rewrite Hd in Hc.
Qed.

Lemma split_at d (a tail : string) :
  Strings.forallb (is_not d) a = true →
  tail = "" ∨ (∃ t, tail = String d t) →
  GoStrings.before d (a +:+ tail) = a ∧ GoStrings.from d (a +:+ tail) = tail.
Proof.
  intros Ha [->|[t ->]]; unfold before, from.
  - rewrite app_nil_r_s. split; [by apply take_while_all|by apply drop_while_all].
  - assert (Hd : is_not d d = false).
    { unfold is_not. by rewrite bool_decide_eq_true_2. }
    split; [by apply take_while_app|by apply drop_while_app].
Qed.

Lemma HasPrefix_single s d :
  Strings.HasPrefix s (String d "") =
  match s with String c _ => bool_decide (c = d) | "" => false end.
Proof.
  destruct s as [|c s]; [done|]. unfold Strings.HasPrefix. cbn [String.prefix].
  destruct (ascii_dec d c) as [->|Hne].
  - rewrite bool_decide_eq_true_2 by done. by destruct s.
  - by rewrite bool_decide_eq_false_2 by (by intros ->).
Qed.

(** What [checkMediaTypeDisposition] accepts: a token, or two tokens and
    a slash between them. *)
Lemma checkMediaTypeDisposition_inv s :
  checkMediaTypeDisposition s = true →
  Strings.forallb (fun c => isTokenChar c || bool_decide (c = "/"%char)) s = true.
Proof.
  unfold checkMediaTypeDisposition, consumeToken.
  pose proof (take_while_drop_while isTokenChar s) as Hs.
  pose proof (forallb_take_while isTokenChar s) as Hmaj.
  set (maj := Strings.take_while isTokenChar s) in *.
  set (rest := Strings.drop_while isTokenChar s) in *.
  assert (Hmaj' : Strings.forallb
            (fun c => isTokenChar c || bool_decide (c = "/"%char)) maj = true).
  { revert Hmaj. apply forallb_impl_s. by intros c ->. }
  case_bool_decide; [done|]. case_bool_decide as Hr.
  { intros _. by rewrite <- Hs, Hr, app_nil_r_s. }
  destruct rest as [|c rest']; [done|].
  rewrite HasPrefix_single. case_bool_decide as Hc; [subst c|done].
  cbn [negb Strings.drop].
  pose proof (take_while_drop_while isTokenChar rest') as Hs'.
  pose proof (forallb_take_while isTokenChar rest') as Hsub.
  case_bool_decide; [done|]. intros Hr'%bool_decide_eq_true.
  rewrite Hr', app_nil_r_s in Hs'. rewrite Hs' in Hsub.
  rewrite <- Hs, forallb_app_s, Hmaj'. simpl. revert Hsub.
  apply forallb_impl_s. by intros c ->.
Qed.

End SplitFacts.

Section FirstParse.
Import Bytes Written.
Import Utf8 Unicode GoStrings Mime.

Variable tbl : N → N.

Lemma good_keys_insert {V} (m : gmap string V) k v :
  good k → good_keys m → good_keys (<[k:=v]> m).
Proof.
  intros Hk Hm j. destruct (decide (j = k)) as [->|Hne]; [done|].
  rewrite lookup_insert_ne by done. apply Hm.
Qed.

Lemma consumeMediaParam_key v :
  lower_ascii (consumeMediaParam tbl v).1.1 = (consumeMediaParam tbl v).1.1.
Proof.
  unfold consumeMediaParam, consumeToken.
  destruct (negb _); [done|].
  set (tok := Strings.take_while isTokenChar _).
  assert (Htok : GoStrings.ToLower tbl tok = lower_ascii tok).
  { apply ToLower_ascii. generalize (forallb_take_while isTokenChar
      (TrimLeftSpace (Strings.drop 1 (TrimLeftSpace v)))). fold tok.
    apply forallb_impl_s. intros c Hc. by destruct (token_char_facts c Hc). }
  rewrite Htok. case_bool_decide; [done|]. destruct (negb _); [done|].
  destruct (consumeValue _) as [value rest]. case_bool_decide; [done|].
  apply lower_ascii_idemp.
Qed.

Lemma good_before k : lower_ascii k = k → good (GoStrings.before "*"%char k).
Proof.
  intros Hk. split; [|apply contains_before].
  unfold before. rewrite lower_ascii_take_while, Hk; [done|].
  intros c. unfold is_not. f_equal.
  by destruct (lower_byte_facts c) as (_ & _ & _ & -> & _).
Qed.

(** The names that the loop of [ParseMediaType] keeps are in lower case;
    those of the parameters have no star, and neither have the base names
    of the continuations. *)
Lemma parse_params_keys fuel : ∀ v st st',
  good_keys (params st) → good_keys (continuation st) →
  parse_params tbl fuel v st = Finished st' ∨
  parse_params tbl fuel v st = TrailingSemicolon st' →
  good_keys (params st') ∧ good_keys (continuation st').
Proof.
  induction fuel as [|fuel IH]; intros v st st' Hp Hc H.
  { by destruct H. }
  cbn [parse_params] in H.
  case_bool_decide. { destruct H as [[= <-]|?]; done. }
  case_bool_decide. { destruct H as [[= <-]|?]; done. }
  pose proof (consumeMediaParam_key (TrimLeftSpace v)) as Hkey.
  destruct (consumeMediaParam tbl (TrimLeftSpace v)) as [[key value] rest].
  cbn [fst snd] in Hkey.
  case_bool_decide.
  { case_bool_decide; [|by destruct H]. destruct H as [?|[= <-]]; done. }
  destruct (GoStrings.contains "*"%char key) eqn:Hstar.
  - destruct (default ∅ (continuation st !! _) !! key); [by destruct H|].
    apply IH in H; [done|done|]. cbn [continuation].
    apply good_keys_insert; [|done]. by apply good_before.
  - destruct (params st !! key); [by destruct H|].
    apply IH in H; [done| |done]. cbn [params].
    by apply good_keys_insert.
Qed.

Lemma stitch_keys key pieceMap ps k :
  is_Some (stitch tbl key pieceMap ps !! k) → k = key ∨ is_Some (ps !! k).
Proof.
  unfold stitch. destruct (pieceMap !! (key +:+ "*")).
  - destruct (decide (k = key)); [by left|]. rewrite lookup_insert_ne by done.
    by right.
  - destruct (pieces _ _ _ _ _); [by right|].
    destruct (decide (k = key)); [by left|]. rewrite lookup_insert_ne by done.
    by right.
Qed.

Lemma stitched_keys (ps : gmap string string)
    (cont : gmap string (gmap string string)) :
  good_keys ps → good_keys cont → good_keys (map_fold (stitch tbl) ps cont).
Proof.
  intros Hps. revert cont.
  apply (map_fold_weak_ind (fun r (m : gmap string (gmap string string)) =>
           good_keys m → good_keys r)).
  { done. }
  intros i x m r Hi IH Hm k [->|Hk]%stitch_keys.
  - apply Hm. rewrite lookup_insert_eq. eauto.
  - apply IH; [|done]. intros j Hj. apply Hm.
    destruct (decide (j = i)) as [->|]; [by rewrite Hi in Hj; destruct Hj|].
    by rewrite lookup_insert_ne.
Qed.

(** What [ParseMediaType] returns: a media type that
    [checkMediaTypeDisposition] accepts, and parameters whose names are in
    lower case and have no star. *)
Lemma ParseMediaType_inv v base m :
  ParseMediaType tbl v = Some (base, m) →
  checkMediaTypeDisposition base = true ∧ good_keys m.
Proof.
  unfold ParseMediaType.
  destruct (checkMediaTypeDisposition _) eqn:Hc; [|done]. cbn [negb].
  destruct (parse_params _ _ _ _) as [st|st|] eqn:Hp; [| |done].
  - intros [= <- <-]. split; [done|].
    edestruct parse_params_keys as [H1 H2];
      [| |left; exact Hp|]; [by intros k [? ?]..|].
    by apply stitched_keys.
  - intros [= <- <-]. split; [done|].
    edestruct parse_params_keys as [H1 H2];
      [| |right; exact Hp|]; [by intros k [? ?]..|done].
Qed.

Lemma ParseMediaType_nil : ParseMediaType tbl "" = None.
Proof. reflexivity. Qed.

End FirstParse.

(** ** Formatting and parsing *)

Section FormatFacts.
Import Bytes Written.
Import Utf8 Unicode GoStrings Mime.

Variable tbl : N → N.

Lemma isToken_forallb s : isToken s = true → Strings.forallb isTokenChar s = true.
Proof. unfold isToken. by intros [_ ?]%andb_true_iff. Qed.

Lemma isToken_not_nil s : isToken s = true → s ≠ "".
Proof. unfold isToken. by intros [?%negb_true_iff%bool_decide_eq_false _]%andb_true_iff. Qed.

Lemma token_no_slash s :
  isToken s = true → Strings.forallb (is_not "/") s = true.
Proof. intros H. apply token_is_not; [done|]. by apply isToken_forallb. Qed.

Lemma from_head d s :
  GoStrings.contains d s = true → ∃ t, GoStrings.from d s = String d t.
Proof.
  induction s as [|c s IH]; simpl; [done|]. unfold from. simpl.
  destruct (bool_decide (c = d)) eqn:Hc; simpl.
  - apply bool_decide_eq_true in Hc as ->. eauto.
  - apply IH.
Qed.

(** What [FormatMediaType] writes, when it writes something. *)
Lemma FormatMediaType_inv t m :
  FormatMediaType tbl t m ≠ "" →
  ∃ maj sub ps,
    t = maj +:+ String "/" sub ∧ isToken maj = true ∧ isToken sub = true ∧
    format_params tbl (Sort.Strings (range_keys m)) m = Some ps ∧
    FormatMediaType tbl t m
      = lower_ascii maj +:+ String "/" (lower_ascii sub +:+ ps).
Proof.
  unfold FormatMediaType.
  destruct (GoStrings.contains "/"%char t) eqn:Hc; [|done]. cbn [negb].
  destruct (from_head _ _ Hc) as [sub Hsub]. rewrite Hsub.
  cbn [Strings.drop].
  destruct (isToken (before "/" t)) eqn:Hmaj; [|done].
  destruct (isToken sub) eqn:Hs; [|done]. cbn [negb orb].
  destruct (format_params _ _ _) as [ps|]; [|done]. intros _.
  exists (before "/" t), sub, ps. split.
  { rewrite <- Hsub. symmetry. apply take_while_drop_while. }
  do 3 (split; [done|]).
  rewrite !ToLower_ascii by (by apply isToken_ascii). by sapp.
Qed.

(** What [FormatMediaType] writes for two tokens and a slash. *)
Lemma FormatMediaType_tokens maj sub m :
  isToken maj = true → isToken sub = true →
  FormatMediaType tbl (maj +:+ String "/" sub) m =
  match format_params tbl (Sort.Strings (range_keys m)) m with
  | Some ps => lower_ascii maj +:+ String "/" (lower_ascii sub +:+ ps)
  | None => ""
  end.
Proof.
  intros Hmaj Hsub. unfold FormatMediaType.
  destruct (split_at "/" maj (String "/" sub)) as [E1 E2];
    [by apply token_no_slash|by eauto|].
  rewrite contains_forallb, forallb_app_s. simpl.
  rewrite andb_false_r. cbn [negb].
  rewrite E1, E2. cbn [Strings.drop]. rewrite Hmaj, Hsub. cbn [negb orb].
  rewrite !ToLower_ascii by (by apply isToken_ascii).
  destruct (format_params _ _ _); by sapp.
Qed.

Lemma checkMediaTypeDisposition_tokens maj sub :
  isToken maj = true → isToken sub = true →
  checkMediaTypeDisposition (maj +:+ String "/" sub) = true.
Proof.
  intros Hmaj Hsub. unfold checkMediaTypeDisposition, consumeToken.
  rewrite take_while_app, drop_while_app by (done || by apply isToken_forallb).
  rewrite bool_decide_eq_false_2 by (by apply isToken_not_nil).
  rewrite bool_decide_eq_false_2 by done.
  rewrite HasPrefix_cons. cbn [negb Strings.drop].
  rewrite take_while_all, drop_while_all by (by apply isToken_forallb).
  rewrite bool_decide_eq_false_2 by (by apply isToken_not_nil).
  by rewrite bool_decide_eq_true_2.
Qed.

Lemma token_plain s :
  Strings.forallb (fun c => isTokenChar c || bool_decide (c = "/"%char)) s = true →
  Strings.forallb plain s = true ∧ Strings.forallb is_ascii s = true ∧
  Strings.forallb (is_not ";") s = true.
Proof.
  intros H. repeat split; revert H; apply forallb_impl_s; intros c Hc;
    apply orb_true_iff in Hc as [Hc|Hc%bool_decide_eq_true]; subst; try done.
  - destruct (token_char_facts c Hc) as (Ha & Hs & _). unfold plain.
    by rewrite Ha, Hs.
  - by destruct (token_char_facts c Hc) as (Ha & _).
  - destruct (token_char_facts c Hc) as (_ & _ & _ & Hsemi & _). unfold is_not.
    by apply negb_true_iff, bool_decide_eq_false.
Qed.

Lemma tokens_forallb maj sub :
  isToken maj = true → isToken sub = true →
  Strings.forallb (fun c => isTokenChar c || bool_decide (c = "/"%char))
    (maj +:+ String "/" sub) = true.
Proof.
  intros Hmaj Hsub. rewrite forallb_app_s. simpl.
  apply andb_true_iff. split.
  - generalize (isToken_forallb _ Hmaj). apply forallb_impl_s. by intros c ->.
  - generalize (isToken_forallb _ Hsub). apply forallb_impl_s. by intros c ->.
Qed.

Lemma lower_tokens maj sub :
  lower_ascii (maj +:+ String "/" sub)
  = lower_ascii maj +:+ String "/" (lower_ascii sub).
Proof. by rewrite lower_ascii_app. Qed.

(** [ParseMediaType] on two tokens with a slash between them and the text
    of the parameters: the media type is the two tokens in lower case,
    and the parameters are those that the loop reads. *)
Lemma ParseMediaType_tokens maj sub rest :
  isToken maj = true → isToken sub = true → stops rest →
  ParseMediaType tbl ((maj +:+ String "/" sub) +:+ rest) =
  match parse_params tbl (S (String.length rest)) rest (mkParsing ∅ ∅) with
  | Invalid => None
  | TrailingSemicolon st => Some (lower_ascii (maj +:+ String "/" sub), params st)
  | Finished st =>
    Some (lower_ascii (maj +:+ String "/" sub),
          map_fold (stitch tbl) (params st) (continuation st))
  end.
Proof.
  intros Hmaj Hsub Hrest. set (base := maj +:+ String "/" sub).
  destruct (token_plain base (tokens_forallb _ _ Hmaj Hsub)) as (_ & Hascii & Hsemi).
  destruct (split_at ";" base rest Hsemi Hrest) as [E1 E2].
  unfold ParseMediaType. rewrite E1, E2. rewrite ToLower_ascii by done.
  assert (Hlow : Strings.forallb plain (lower_ascii base) = true ∧
                 checkMediaTypeDisposition (lower_ascii base) = true).
  { unfold base. rewrite lower_tokens. split.
    - apply token_plain, tokens_forallb; by rewrite isToken_lower_ascii.
    - apply checkMediaTypeDisposition_tokens; by rewrite isToken_lower_ascii. }
  destruct Hlow as [Hplain Hchk].
  rewrite TrimSpace_plain by done. by rewrite Hchk.
Qed.

(** [ParseMediaType] reads what [FormatMediaType] wrote, or refuses it. *)
Lemma ParseMediaType_written maj sub (m : gmap string string) ps :
  isToken maj = true → isToken sub = true →
  lower_ascii maj = maj → lower_ascii sub = sub →
  good_keys m →
  format_params tbl (Sort.Strings (range_keys m)) m = Some ps →
  let text := maj +:+ String "/" (sub +:+ ps) in
  ParseMediaType tbl text = None ∨
  ParseMediaType tbl text = Some (maj +:+ String "/" sub, m).
Proof.
  intros Hmaj Hsub Hlmaj Hlsub Hgood Hfmt text.
  set (base := maj +:+ String "/" sub).
  assert (Etext : text = base +:+ ps).
  { unfold text, base. rewrite app_assoc_s. by sapp. }
  destruct (token_plain base (tokens_forallb _ _ Hmaj Hsub)) as (Hplain & Hascii & Hsemi).
  destruct (split_at ";" base ps Hsemi) as [E1 E2].
  { by apply (format_params_stops tbl) in Hfmt. }
  unfold ParseMediaType. rewrite Etext, E1, E2.
  rewrite ToLower_ascii by done.
  assert (Elow : lower_ascii base = base).
  { unfold base. rewrite lower_ascii_app. simpl. by rewrite Hlmaj, Hlsub. }
  rewrite Elow, TrimSpace_plain by done.
  assert (Hchk : checkMediaTypeDisposition base = true)
    by (by apply checkMediaTypeDisposition_tokens).
  rewrite Hchk. cbn [negb].
  set (attrs := Sort.Strings (range_keys m)) in *.
  destruct (parse_params_written tbl attrs m ps (mkParsing ∅ ∅) (S (String.length ps)))
    as [R|R].
  - done.
  - intros k Hk. apply Hgood. apply elem_of_range_keys.
    unfold attrs in Hk. by rewrite Strings_Permutation in Hk.
  - unfold attrs. rewrite Strings_Permutation. apply NoDup_range_keys.
  - intros k _. apply lookup_empty.
  - lia.
  - rewrite R. by left.
  - rewrite R. right. cbn [params continuation]. rewrite map_fold_empty.
    rewrite inserted_all; [done|]. intros k. unfold attrs.
    by rewrite Strings_Permutation, elem_of_range_keys.
Qed.

End FormatFacts.

Section CanonicalFacts.
Import Bytes Written.
Import Utf8 Unicode GoStrings Mime MediaTypes.

Variable tbl : N → N.

Lemma CanonicalIdentifier_verbatim identifier :
  ParseMediaType tbl identifier = None →
  CanonicalIdentifier tbl identifier = identifier.
Proof. intros H. unfold CanonicalIdentifier. by rewrite H. Qed.

Lemma is_not_lower d s :
  (∀ c, bool_decide (lower_byte c = d) = bool_decide (c = d)) →
  Strings.forallb (is_not d) (lower_ascii s) = Strings.forallb (is_not d) s.
Proof.
  intros H. apply forallb_lower_ascii. intros c. unfold is_not. by rewrite H.
Qed.

(** The canonical form of a canonical form is the canonical form. *)
Lemma CanonicalIdentifier_fixed identifier :
  CanonicalIdentifier tbl (CanonicalIdentifier tbl identifier)
  = CanonicalIdentifier tbl identifier.
Proof.
  destruct (ParseMediaType tbl identifier) as [[base m]|] eqn:Hp.
  2:{ by rewrite !(CanonicalIdentifier_verbatim identifier). }
  destruct (ParseMediaType_inv tbl _ _ _ Hp) as [_ Hgood].
  unfold CanonicalIdentifier at 2. unfold CanonicalIdentifier at 2. rewrite Hp.
  set (t := before "+" base).
  destruct (decide (FormatMediaType tbl t m = "")) as [E|Hne].
  { rewrite E. by apply CanonicalIdentifier_verbatim. }
  destruct (FormatMediaType_inv tbl t m Hne) as (maj & sub & ps & Et & Hmaj & Hsub & Hfmt & ->).
  assert (Hplus : Strings.forallb (is_not "+") maj = true ∧
                  Strings.forallb (is_not "+") sub = true).
  { assert (H : Strings.forallb (is_not "+") t = true)
      by exact (forallb_take_while (is_not "+") base).
    rewrite Et, forallb_app_s in H.
    simpl in H. by apply andb_true_iff in H. }
  destruct Hplus as [Pmaj Psub].
  destruct (ParseMediaType_written tbl (lower_ascii maj) (lower_ascii sub) m ps)
    as [R|R]; rewrite ?isToken_lower_ascii, ?lower_ascii_idemp; try done.
  { by apply CanonicalIdentifier_verbatim. }
  unfold CanonicalIdentifier. rewrite R.
  rewrite before_all.
  2:{ rewrite forallb_app_s. simpl.
      rewrite !is_not_lower, Pmaj, Psub; [done|intros c..];
        by destruct (lower_byte_facts c) as (_ & _ & _ & _ & -> & _). }
  rewrite FormatMediaType_tokens by (by rewrite isToken_lower_ascii).
  by rewrite Hfmt, !lower_ascii_idemp.
Qed.

Lemma before_app_stop d (a b : string) :
  GoStrings.before d (a +:+ String d b) = GoStrings.before d a.
Proof.
  unfold before. induction a as [|c a IH]; sapp; simpl.
  - by rewrite bool_decide_eq_true_2.
  - destruct (negb (bool_decide (c = d))); [|done]. by rewrite IH.
Qed.

Lemma isToken_suffix sub sfx :
  isToken sub = true → isToken sfx = true → isToken (sub +:+ String "+" sfx) = true.
Proof.
  intros Hsub Hsfx. unfold isToken. apply andb_true_iff. split.
  - apply negb_true_iff, bool_decide_eq_false. apply app_not_nil.
  - rewrite forallb_app_s. simpl.
    by rewrite (isToken_forallb _ Hsub), (isToken_forallb _ Hsfx).
Qed.

(** A suffix after the media type does not change the canonical
    identifier of an identifier that parses. *)
Lemma CanonicalIdentifier_suffix maj sub sfx rest base m :
  isToken maj = true → isToken sub = true → isToken sfx = true → stops rest →
  ParseMediaType tbl ((maj +:+ String "/" sub) +:+ rest) = Some (base, m) →
  CanonicalIdentifier tbl ((maj +:+ String "/" (sub +:+ String "+" sfx)) +:+ rest)
  = CanonicalIdentifier tbl ((maj +:+ String "/" sub) +:+ rest).
Proof.
  intros Hmaj Hsub Hsfx Hrest Hp.
  pose proof (isToken_suffix _ _ Hsub Hsfx) as Hsub'.
  unfold CanonicalIdentifier. rewrite Hp.
  rewrite ParseMediaType_tokens in Hp |- * by done.
  assert (E : GoStrings.before "+"
                (lower_ascii (maj +:+ String "/" (sub +:+ String "+" sfx)))
              = GoStrings.before "+" (lower_ascii (maj +:+ String "/" sub))).
  { rewrite !lower_tokens, lower_ascii_app. simpl lower_ascii.
    change (lower_byte "+") with "+"%char.
    rewrite <- app_cons_s, <- app_assoc_s. apply before_app_stop. }
  destruct (parse_params _ _ _ _) as [st|st|]; [| |done];
    injection Hp as <- <-; by rewrite E.
Qed.

End CanonicalFacts.

(** ** The loops of the library end within their bounds *)

Section BoundFacts.
Import Bytes Written.
Import Utf8 Unicode GoStrings Mime.

(** Every loop over the runes of a string reads at least one byte in a
    turn, so as many turns as the string has bytes are enough: with that
    many turns or more the result is the same. *)
Lemma trim_left_bound fuel : ∀ fuel' s,
  String.length s ≤ fuel → String.length s ≤ fuel' →
  trim_left fuel s = trim_left fuel' s.
Proof.
  induction fuel as [|fuel IH]; intros fuel' s H H'.
  { destruct s; [|simpl in H; lia]. by destruct fuel'. }
  destruct s as [|c s]; [by destruct fuel'|].
  destruct fuel' as [|fuel']; [simpl in H'; lia|]. cbn [trim_left].
  pose proof (decode_width (String c s) ltac:(done)) as Hw.
  destruct (DecodeRuneInString (String c s)) as [r w]. simpl in Hw, H, H'.
  destruct (IsSpace r); [|done].
  apply IH; rewrite length_drop_s; simpl; lia.
Qed.

Lemma length_trim_left fuel : ∀ s,
  String.length (trim_left fuel s) ≤ String.length s.
Proof.
  induction fuel as [|fuel IH]; intros s; [simpl; lia|].
  destruct s as [|c s]; [done|]. cbn [trim_left].
  destruct (DecodeRuneInString (String c s)) as [r w].
  destruct (IsSpace r); [|done].
  etransitivity; [apply IH|]. rewrite length_drop_s. lia.
Qed.

Lemma length_TrimLeftSpace s : String.length (TrimLeftSpace s) ≤ String.length s.
Proof. apply length_trim_left. Qed.

Lemma DecodeLast_width s :
  s ≠ "" → 1 ≤ (DecodeLastRuneInString s).2.
Proof.
  intros Hs. unfold DecodeLastRuneInString.
  destruct (String.length s) as [|start] eqn:Hl; [by destruct s|].
  case_match; [simpl; lia|]. cbv zeta.
  match goal with
  | |- context [DecodeRuneInString (Strings.drop ?n s)] => set (start' := n)
  end.
  assert (Hle : start' ≤ start).
  { unfold start'. destruct start as [|st]; [done|].
    pose proof (find_start_spec s (S st - (S (S st) - 4)) st) as Hf.
    destruct (find_start _ _ _); [lia|]. case_match; lia. }
  clearbody start'.
  pose proof (decode_width (Strings.drop start' s)) as Hw.
  destruct (DecodeRuneInString (Strings.drop start' s)) as [r size].
  destruct (start' + size =? S start) eqn:He; simpl; [|lia].
  apply Nat.eqb_eq in He. simpl in Hw.
  lia.
Qed.

Lemma last_index_bound fuel : ∀ fuel' s,
  String.length s ≤ fuel → String.length s ≤ fuel' →
  last_index_not_space fuel s = last_index_not_space fuel' s.
Proof.
  induction fuel as [|fuel IH]; intros fuel' s H H'.
  { destruct s; [|simpl in H; lia]. by destruct fuel'. }
  destruct (decide (s = "")) as [->|Hs]; [by destruct fuel'|].
  destruct fuel' as [|fuel']; [destruct s; [done|simpl in H'; lia]|].
  rewrite !last_index_unfold by done.
  pose proof (DecodeLast_width s Hs) as Hw.
  destruct (IsSpace _); [|done].
  assert (String.length s ≠ 0) by (by destruct s).
  apply IH; rewrite length_take_s; lia.
Qed.

Lemma map_runes_bound mapping fuel : ∀ fuel' changed s,
  String.length s ≤ fuel → String.length s ≤ fuel' →
  map_runes mapping fuel changed s = map_runes mapping fuel' changed s.
Proof.
  induction fuel as [|fuel IH]; intros fuel' changed s H H'.
  { destruct s; [|simpl in H; lia]. by destruct fuel'. }
  destruct s as [|c s]; [by destruct fuel'|].
  destruct fuel' as [|fuel']; [simpl in H'; lia|]. cbn [map_runes].
  pose proof (decode_width (String c s) ltac:(done)) as Hw.
  destruct (DecodeRuneInString (String c s)) as [r w]. simpl in Hw, H, H'.
  assert (String.length (Strings.drop w (String c s)) ≤ fuel ∧
          String.length (Strings.drop w (String c s)) ≤ fuel') as [? ?].
  { rewrite length_drop_s. simpl. lia. }
  destruct (negb changed && _); f_equal; by apply IH.
Qed.

Lemma has_high_rune_bound fuel : ∀ fuel' s,
  String.length s ≤ fuel → String.length s ≤ fuel' →
  has_high_rune fuel s = has_high_rune fuel' s.
Proof.
  induction fuel as [|fuel IH]; intros fuel' s H H'.
  { destruct s; [|simpl in H; lia]. by destruct fuel'. }
  destruct s as [|c s]; [by destruct fuel'|].
  destruct fuel' as [|fuel']; [simpl in H'; lia|]. cbn [has_high_rune].
  pose proof (decode_width (String c s) ltac:(done)) as Hw.
  destruct (DecodeRuneInString (String c s)) as [r w]. simpl in Hw, H, H'.
  f_equal. apply IH; rewrite length_drop_s; simpl; lia.
Qed.

Lemma quoted_bound fuel : ∀ fuel' rest buffer lit,
  String.length rest ≤ fuel → String.length rest ≤ fuel' →
  quoted fuel rest buffer lit = quoted fuel' rest buffer lit.
Proof.
  induction fuel as [|fuel IH]; intros fuel' rest buffer lit H H'.
  { destruct rest; [|simpl in H; lia]. by destruct fuel'. }
  destruct (decide (rest = "")) as [->|Hr]; [by destruct fuel'|].
  destruct fuel' as [|fuel']; [destruct rest; [done|simpl in H'; lia]|].
  rewrite !quoted_unfold by done. cbv zeta.
  pose proof (decode_width rest Hr) as Hw.
  assert (String.length (Strings.drop (DecodeRuneInString rest).2 rest) ≤ fuel ∧
          String.length (Strings.drop (DecodeRuneInString rest).2 rest) ≤ fuel')
    as [? ?].
  { rewrite length_drop_s. lia. }
  repeat case_match; try done; by apply IH.
Qed.

Lemma length_quoted fuel : ∀ rest buffer lit value rest',
  quoted fuel rest buffer lit = Some (value, rest') →
  String.length rest' < String.length rest.
Proof.
  induction fuel as [|fuel IH]; intros rest buffer lit value rest' H; [done|].
  destruct (decide (rest = "")) as [->|Hr]; [done|].
  rewrite quoted_unfold in H by done. cbv zeta in H.
  pose proof (decode_width rest Hr) as Hw.
  assert (Hd : String.length (Strings.drop (DecodeRuneInString rest).2 rest)
               < String.length rest).
  { rewrite length_drop_s. lia. }
  repeat case_match; try done;
    try (apply IH in H; lia).
  by injection H as <- <-.
Qed.

Lemma length_consumeValue v :
  String.length (consumeValue v).2 ≤ String.length v.
Proof.
  unfold consumeValue. destruct v as [|c rest]; [done|].
  destruct (negb _).
  - apply length_drop_while_le.
  - destruct (quoted _ _ _ _) as [[value rest']|] eqn:Hq; [|done].
    apply length_quoted in Hq. simpl. lia.
Qed.

(** A parameter that is read takes at least its semicolon. *)
Lemma length_consumeMediaParam tbl v :
  (consumeMediaParam tbl v).1.1 ≠ "" →
  String.length (consumeMediaParam tbl v).2 < String.length v.
Proof.
  unfold consumeMediaParam, consumeToken.
  pose proof (length_TrimLeftSpace v) as H1.
  rewrite HasPrefix_single.
  destruct (TrimLeftSpace v) as [|c r1] eqn:E1; [done|].
  case_bool_decide; [subst c|done]. cbn [negb Strings.drop].
  pose proof (length_TrimLeftSpace r1) as H2.
  pose proof (length_drop_while_le isTokenChar (TrimLeftSpace r1)) as H3.
  case_bool_decide; [done|].
  pose proof (length_TrimLeftSpace (Strings.drop_while isTokenChar (TrimLeftSpace r1)))
    as H4.
  rewrite HasPrefix_single.
  destruct (TrimLeftSpace (Strings.drop_while isTokenChar (TrimLeftSpace r1)))
    as [|d r2] eqn:E2; [done|].
  case_bool_decide; [subst d|done]. cbn [negb Strings.drop].
  pose proof (length_TrimLeftSpace r2) as H5.
  pose proof (length_consumeValue (TrimLeftSpace r2)) as H6.
  destruct (consumeValue (TrimLeftSpace r2)) as [value rest].
  case_bool_decide; [done|]. intros _. simpl in *. lia.
Qed.

(** The loop of [ParseMediaType] ends within [len(v)] turns and one. *)
Lemma parse_params_bound tbl fuel : ∀ fuel' v st,
  String.length v < fuel → String.length v < fuel' →
  parse_params tbl fuel v st = parse_params tbl fuel' v st.
Proof.
  induction fuel as [|fuel IH]; intros fuel' v st H H'; [lia|].
  destruct fuel' as [|fuel']; [lia|]. cbn [parse_params].
  case_bool_decide; [done|]. case_bool_decide; [done|].
  pose proof (length_TrimLeftSpace v) as Ht.
  pose proof (length_consumeMediaParam tbl (TrimLeftSpace v)) as Hc.
  destruct (consumeMediaParam tbl (TrimLeftSpace v)) as [[key value] rest].
  cbn [fst snd] in Hc.
  case_bool_decide; [done|].
  assert (String.length rest < fuel ∧ String.length rest < fuel') as [? ?].
  { specialize (Hc ltac:(done)). lia. }
  repeat case_match; try done; by apply IH.
Qed.

End BoundFacts.

(** ** Media types by identifier *)

Section MediaTypeFacts.
Import Bytes Written.
Import GoStrings Mime MediaType API MediaTypes Examples.

(** [MediaTypeWithIdentifier] is the loop over the media types in the
    order in which the map yields them. *)
Lemma MediaTypeWithIdentifier_range tbl a id :
  MediaTypeWithIdentifier tbl a id
  = find_media_type tbl (CanonicalIdentifier tbl id) (map_to_list (MediaTypes a)).
Proof. reflexivity. Qed.

(** C7: whatever the order in which [range] yields the registered media
    types, [MediaTypeWithIdentifier] returns the first of them whose
    canonical identifier is the canonical identifier of [id], none of the
    media types before it matches, and the result is nil exactly when no
    registered media type matches; there is no other outcome. *)
Theorem MediaTypeWithIdentifier_first (tbl : N → N) (a : APIDefinition)
    (id : string) (order : list (string * MediaTypeDefinition)) :
  order ≡ₚ map_to_list (MediaTypes a) →
  match find_media_type tbl (CanonicalIdentifier tbl id) order with
  | Some mt =>
    ∃ i k, order !! i = Some (k, mt) ∧ MediaTypes a !! k = Some mt ∧
      CanonicalIdentifier tbl (Identifier mt) = CanonicalIdentifier tbl id ∧
      ∀ j k' mt', j < i → order !! j = Some (k', mt') →
        CanonicalIdentifier tbl (Identifier mt') ≠ CanonicalIdentifier tbl id
  | None =>
    ∀ k mt, MediaTypes a !! k = Some mt →
      CanonicalIdentifier tbl (Identifier mt) ≠ CanonicalIdentifier tbl id
  end.
Proof.
  intros Hperm. unfold find_media_type.
  destruct (list_find _ order) as [[i [k mt]]|] eqn:Hfind; simpl.
  - apply list_find_Some in Hfind as (Hi & Heq & Hbefore). simpl in Heq.
    exists i, k. split; [done|]. split.
    + apply elem_of_map_to_list. rewrite <- Hperm.
      by apply list_elem_of_lookup_2 in Hi.
    + split; [done|]. intros j k' mt' Hj Hlook Hcan.
      by apply (Hbefore j (k', mt') Hlook Hj).
  - apply list_find_None in Hfind. intros k mt Hk Hcan.
    apply elem_of_map_to_list in Hk. rewrite <- Hperm in Hk.
    rewrite Forall_forall in Hfind. by apply (Hfind _ Hk).
Qed.

Lemma MediaTypeWithIdentifier_first_witness :
  map_to_list (MediaTypes media_api) ≡ₚ map_to_list (MediaTypes media_api) ∧
  match find_media_type no_table
          (CanonicalIdentifier no_table "application/vnd.foo+xml")
          (map_to_list (MediaTypes media_api)) with
  | Some mt =>
    ∃ i k, map_to_list (MediaTypes media_api) !! i = Some (k, mt) ∧
      MediaTypes media_api !! k = Some mt ∧
      CanonicalIdentifier no_table (Identifier mt)
        = CanonicalIdentifier no_table "application/vnd.foo+xml" ∧
      ∀ j k' mt', j < i → map_to_list (MediaTypes media_api) !! j = Some (k', mt') →
        CanonicalIdentifier no_table (Identifier mt')
          ≠ CanonicalIdentifier no_table "application/vnd.foo+xml"
  | None =>
    ∀ k mt, MediaTypes media_api !! k = Some mt →
      CanonicalIdentifier no_table (Identifier mt)
        ≠ CanonicalIdentifier no_table "application/vnd.foo+xml"
  end.
Proof.
  split; [reflexivity|].
  apply (MediaTypeWithIdentifier_first no_table media_api
           "application/vnd.foo+xml" (map_to_list (MediaTypes media_api))).
  reflexivity.
Defined.

(** The media type [application/vnd.foo+json] is found under another
    suffix and with other letter case; an identifier that is not
    registered gives nil. *)
Lemma MediaTypeWithIdentifier_samples :
  MediaTypeWithIdentifier no_table media_api "application/vnd.foo+xml" = Some foo_media ∧
  MediaTypeWithIdentifier no_table media_api "Application/VND.Foo" = Some foo_media ∧
  MediaTypeWithIdentifier no_table media_api "application/vnd.bar+json;type=collection"
    = Some bar_media ∧
  MediaTypeWithIdentifier no_table media_api "application/vnd.bar" = None ∧
  MediaTypeWithIdentifier no_table media_api "application/vnd.baz" = None.
Proof. vm_compute. repeat split. Qed.

(** The canonical identifiers of some identifiers: parameters are kept,
    sorted and in lower case, a value that is no token is quoted; a media
    type without a slash after the suffix is dropped gives the empty
    string; what does not parse is kept. *)
Lemma CanonicalIdentifier_samples :
  CanonicalIdentifier no_table "application/vnd.foo+json; Q=1; charset=utf-8"
    = "application/vnd.foo; charset=utf-8; q=1" ∧
  CanonicalIdentifier no_table
      ("text/plain;title=" +:+ String quote ("a b" +:+ String quote ""))
    = "text/plain; title=" +:+ String quote ("a b" +:+ String quote "") ∧
  CanonicalIdentifier no_table "text" = "" ∧
  CanonicalIdentifier no_table "application+json/foo" = "" ∧
  CanonicalIdentifier no_table "not a media type" = "not a media type".
Proof. vm_compute. repeat split. Qed.

(** C8: the canonical identifier of a canonical identifier is itself, for
    every string; a suffix after the media type of an identifier that
    parses does not change the canonical identifier, so that the
    identifiers [application/vnd.foo+json], [application/vnd.foo+xml] and
    [application/vnd.foo] have the same canonical identifier; and an
    identifier that [mime.ParseMediaType] refuses is its own canonical
    identifier. *)
Theorem CanonicalIdentifier_idempotent (tbl : N → N) (id : string) :
  CanonicalIdentifier tbl (CanonicalIdentifier tbl id) = CanonicalIdentifier tbl id ∧
  (∀ maj sub sfx rest base m,
     isToken maj = true → isToken sub = true → isToken sfx = true → stops rest →
     ParseMediaType tbl ((maj +:+ String "/" sub) +:+ rest) = Some (base, m) →
     CanonicalIdentifier tbl ((maj +:+ String "/" (sub +:+ String "+" sfx)) +:+ rest)
     = CanonicalIdentifier tbl ((maj +:+ String "/" sub) +:+ rest)) ∧
  (CanonicalIdentifier tbl "application/vnd.foo+json"
     = CanonicalIdentifier tbl "application/vnd.foo+xml" ∧
   CanonicalIdentifier tbl "application/vnd.foo+xml"
     = CanonicalIdentifier tbl "application/vnd.foo" ∧
   CanonicalIdentifier tbl "application/vnd.foo" = "application/vnd.foo") ∧
  (ParseMediaType tbl id = None → CanonicalIdentifier tbl id = id).
Proof.
  split; [apply CanonicalIdentifier_fixed|].
  split; [intros *; apply CanonicalIdentifier_suffix|]. split.
  - repeat split; vm_compute; reflexivity.
  - apply CanonicalIdentifier_verbatim.
Qed.

Lemma CanonicalIdentifier_idempotent_witness :
  (ParseMediaType no_table "not a media type" = None ∧
   CanonicalIdentifier no_table "not a media type" = "not a media type") ∧
  (ParseMediaType no_table "application/vnd.foo; q=1"
     = Some ("application/vnd.foo", {[ "q" := "1" ]}) ∧
   CanonicalIdentifier no_table "application/vnd.foo+json; q=1"
     = CanonicalIdentifier no_table "application/vnd.foo; q=1").
Proof.
  destruct (CanonicalIdentifier_idempotent no_table "not a media type")
    as (_ & Hsuffix & _ & Hverbatim).
  split.
  - split; [reflexivity|]. apply Hverbatim. reflexivity.
  - split; [vm_compute; reflexivity|].
    apply (Hsuffix "application" "vnd.foo" "json" "; q=1"
             "application/vnd.foo" {[ "q" := "1" ]}).
    + reflexivity.
    + reflexivity.
    + reflexivity.
    + right. eexists. reflexivity.
    + vm_compute. reflexivity.
Defined.

End MediaTypeFacts.

(** ** Cleaned paths *)

Section ElementFacts.
Import Path PathSpec Cleaning.

Lemma is_slash_true c : is_slash c = true ↔ c = "/"%char.
Proof. unfold is_slash. apply bool_decide_eq_true. Qed.

Lemma not_slash_false c : not_slash c = false ↔ c = "/"%char.
Proof. unfold not_slash. rewrite negb_false_iff. apply is_slash_true. Qed.

Lemma not_slash_true c : not_slash c = true ↔ is_slash c = false.
Proof. unfold not_slash. apply negb_true_iff. Qed.

Lemma elements_nil : elements "" = [""].
Proof. reflexivity. Qed.

Lemma elements_slash p : elements (String "/" p) = "" :: elements p.
Proof. reflexivity. Qed.

Lemma elements_not_nil p : elements p ≠ [].
Proof.
  induction p as [|c p IH]; simpl; [done|].
  destruct (is_slash c); [done|]. by destruct (elements p).
Qed.

Lemma elements_split p :
  elements p = Strings.take_while not_slash p :: after (Strings.drop_while not_slash p).
Proof.
  induction p as [|c p IH]; [done|]. cbn [elements Strings.take_while Strings.drop_while].
  unfold not_slash at 1 3. destruct (is_slash c); cbn [negb]; [done|].
  by rewrite IH.
Qed.

Lemma elements_no_slash p :
  Forall (fun e => Strings.forallb not_slash e = true) (elements p).
Proof.
  induction p as [|c p IH]; cbn [elements]; [by repeat constructor|].
  destruct (is_slash c) eqn:Hc; [by constructor|].
  destruct (elements p) as [|e rest] eqn:E; [by apply elements_not_nil in E|].
  inversion_clear IH. constructor; [|done]. simpl.
  apply andb_true_iff. split; [by apply not_slash_true|done].
Qed.

(** What is left after an element is nothing, or starts with a slash. *)
Lemma drop_while_slash p :
  Strings.drop_while not_slash p = "" ∨
  ∃ q, Strings.drop_while not_slash p = String "/" q.
Proof.
  pose proof (drop_while_head not_slash p) as H.
  destruct (Strings.drop_while not_slash p) as [|c q]; [by left|].
  right. exists q. by apply not_slash_false in H as ->.
Qed.

Lemma last_cons_not_nil {A} (x : A) l : l ≠ [] → last (x :: l) = last l.
Proof. by destruct l. Qed.

(** The elements of what is left after an element resolve like those
    after its slash, and end like them. *)
Lemma resolve_after rest kept :
  rest = "" ∨ (∃ q, rest = String "/" q) →
  resolve (elements rest) kept = resolve (after rest) kept.
Proof.
  intros [->|[q ->]]; [done|]. by rewrite elements_slash.
Qed.

Lemma last_after e rest :
  e ≠ "." → rest = "" ∨ (∃ q, rest = String "/" q) →
  bool_decide (last (e :: after rest) = Some ".")
  = bool_decide (last (elements rest) = Some ".").
Proof.
  intros He [->|[q ->]].
  - simpl. rewrite !bool_decide_eq_false_2; congruence.
  - rewrite elements_slash. cbn [after].
    rewrite !(last_cons_not_nil _ (elements q)) by apply elements_not_nil. done.
Qed.

Lemma resolve_empty es kept : resolve ("" :: es) kept = resolve es kept.
Proof. reflexivity. Qed.

Lemma resolve_dot es kept : resolve ("." :: es) kept = resolve es kept.
Proof. reflexivity. Qed.

Lemma resolve_dotdot es kept : resolve (".." :: es) kept = resolve es (removelast kept).
Proof. reflexivity. Qed.

Lemma resolve_real e es kept :
  real e → resolve (e :: es) kept = resolve es (kept ++ [e]).
Proof.
  intros (H1 & H2 & H3 & _). cbn [resolve].
  rewrite decide_False by (intros [?|?]; done). by rewrite decide_False.
Qed.

Lemma join_slash_cons e es :
  es ≠ [] → join_slash (e :: es) = e +:+ String "/" (join_slash es).
Proof. by destruct es. Qed.

Lemma join_slash_snoc es e :
  es ≠ [] → join_slash (es ++ [e]) = join_slash es +:+ String "/" e.
Proof.
  induction es as [|x es IH]; [done|]. intros _.
  destruct es as [|y es]; [done|].
  change ((x :: y :: es) ++ [e]) with (x :: ((y :: es) ++ [e])).
  rewrite (join_slash_cons x ((y :: es) ++ [e])) by done. rewrite IH by done.
  rewrite (join_slash_cons x (y :: es)) by done. by rewrite app_assoc_s.
Qed.

Lemma join_slash_not_nil e es : e ≠ "" → join_slash (e :: es) ≠ "".
Proof. intros He. destruct es; [done|]. by destruct e. Qed.

Lemma length_rooted es :
  Forall real es → es ≠ [] → 1 < String.length (rooted es).
Proof.
  intros Hall Hes. destruct es as [|e es]; [done|].
  inversion_clear Hall as [|? ? [He _] _].
  unfold rooted. rewrite length_app_s.
  pose proof (join_slash_not_nil e es He).
  destruct (join_slash (e :: es)); [done|]. simpl. lia.
Qed.

(** Writing an element: a slash first when something is written. *)
Lemma rooted_snoc es e :
  Forall real es →
  rooted (es ++ [e]) =
  (if 1 <? String.length (rooted es) then rooted es +:+ "/" else rooted es) +:+ e.
Proof.
  intros Hall. destruct es as [|x es]; [done|].
  pose proof (length_rooted _ Hall ltac:(done)) as Hlen.
  apply Nat.ltb_lt in Hlen. rewrite Hlen.
  unfold rooted. rewrite join_slash_snoc by done.
  rewrite !app_assoc_s. by sapp.
Qed.

(** Reading the output buffer. *)
Lemma get_after pre s i : get (String.length pre + i) (pre +:+ s) = get i s.
Proof. induction pre as [|c pre IH]; sapp; [done|]. exact IH. Qed.

Lemma get_head c s : get 0 (String c s) = c.
Proof. reflexivity. Qed.

Lemma get_no_slash e : ∀ i,
  i < String.length e → Strings.forallb not_slash e = true →
  not_slash (get i e) = true.
Proof.
  induction e as [|c e IH]; intros i Hi He; simpl in *; [lia|].
  apply andb_true_iff in He as [Hc He].
  destruct i as [|i]; [done|]. apply (IH i); [lia|done].
Qed.

(** Going back over the last element of the output: to the slash before
    it, but not further than [stop]. *)
Lemma back_over pre e stop : ∀ i,
  i ≤ String.length e → stop ≤ String.length pre + i →
  Strings.forallb not_slash e = true →
  back (pre +:+ String "/" e) stop (String.length pre + i)
  = Nat.max stop (String.length pre).
Proof.
  induction i as [|i IH]; intros Hi Hstop He.
  - rewrite Nat.add_0_r in *. destruct (String.length pre) as [|n] eqn:Hn.
    + simpl. lia.
    + cbn [back]. rewrite <- Hn, <- (Nat.add_0_r (String.length pre)).
      rewrite get_after, get_head. rewrite Nat.add_0_r, Hn.
      change (not_slash "/") with false. rewrite andb_false_r. lia.
  - rewrite Nat.add_succ_r in *. cbn [back].
    rewrite <- Nat.add_succ_r. rewrite get_after.
    change (get (S i) (String "/" e)) with (get i e).
    rewrite get_no_slash by (done || lia). rewrite andb_true_r.
    rewrite Nat.add_succ_r.
    destruct (stop <? S (String.length pre + i)) eqn:Hlt.
    + apply Nat.ltb_lt in Hlt. apply IH; [lia|lia|done].
    + apply Nat.ltb_ge in Hlt. lia.
Qed.

Lemma real_no_slash e : real e → Strings.forallb not_slash e = true.
Proof. by intros (_ & _ & _ & ?). Qed.

(** Taking away the last element that was written. *)
Lemma rooted_pop kept :
  Forall real kept →
  (if 1 <? String.length (rooted kept)
   then Strings.take (back (rooted kept) 1 (String.length (rooted kept) - 1))
                     (rooted kept)
   else rooted kept) = rooted (removelast kept).
Proof.
  intros Hall. destruct kept as [|x kept] using rev_ind; [done|]. clear IHkept.
  apply Forall_app in Hall as [Hinit Hx]. inversion_clear Hx as [|? ? Hx' _].
  rewrite removelast_last.
  pose proof (length_rooted (kept ++ [x])) as Hlen.
  rewrite (proj2 (Nat.ltb_lt _ _)).
  2:{ apply Hlen; [|by destruct kept]. apply Forall_app. split; [done|by constructor]. }
  clear Hlen. destruct kept as [|y kept].
  - change (rooted ([] ++ [x])) with ("" +:+ String "/" x).
    replace (String.length ("" +:+ String "/" x) - 1) with (String.length "" + String.length x)
      by (sapp; simpl; lia).
    rewrite back_over; [done|done| |by apply real_no_slash].
    destruct Hx' as [Hne _]. destruct x; [done|simpl; lia].
  - assert (E : rooted ((y :: kept) ++ [x]) = rooted (y :: kept) +:+ String "/" x).
    { unfold rooted. rewrite join_slash_snoc by done. by rewrite app_assoc_s. }
    rewrite E.
    pose proof (length_rooted (y :: kept) Hinit ltac:(done)) as Hlen.
    replace (String.length (rooted (y :: kept) +:+ String "/" x) - 1)
      with (String.length (rooted (y :: kept)) + String.length x)
      by (rewrite length_app_s; cbn [String.length]; lia).
    rewrite back_over; [|done|lia|by apply real_no_slash].
    rewrite Nat.max_r by lia. apply take_app_length_s.
Qed.

Lemma real_removelast kept : Forall real kept → Forall real (removelast kept).
Proof.
  intros H. destruct kept as [|x kept] using rev_ind; [done|].
  rewrite removelast_last. by apply Forall_app in H as [? _].
Qed.

End ElementFacts.

Section CleanPathFacts.
Import Path PathSpec Cleaning.

(** The element that a path starts with, when its first byte is no
    slash: [.] at the end, [.] before a slash, [..], or an element that
    is kept. *)
Lemma first_element c p1 :
  is_slash c = false →
  let dot := bool_decide (c = "."%char) in
  let dotdot := match p1 with
                | String d "" => bool_decide (d = "."%char)
                | String d (String e _) => bool_decide (d = "."%char) && is_slash e
                | "" => false
                end in
  (dot && bool_decide (p1 = "") = true ∧ c = "."%char ∧ p1 = "") ∨
  (dot && bool_decide (p1 = "") = false ∧
   dot && match p1 with String d _ => is_slash d | "" => false end = true ∧
   c = "."%char ∧ ∃ q, p1 = String "/" q) ∨
  (dot && bool_decide (p1 = "") = false ∧
   dot && match p1 with String d _ => is_slash d | "" => false end = false ∧
   dot && dotdot = true ∧
   c = "."%char ∧ ∃ rest, p1 = String "." rest ∧ (rest = "" ∨ ∃ q, rest = String "/" q)) ∨
  (dot && bool_decide (p1 = "") = false ∧
   dot && match p1 with String d _ => is_slash d | "" => false end = false ∧
   dot && dotdot = false ∧
   real (Strings.take_while not_slash (String c p1))).
Proof.
  intros Hc dot dotdot.
  assert (Hreal : Strings.take_while not_slash (String c p1) ≠ "." →
                  Strings.take_while not_slash (String c p1) ≠ ".." →
                  real (Strings.take_while not_slash (String c p1))).
  { intros H1 H2. split; [|split; [done|split; [done|apply forallb_take_while]]].
    cbn [Strings.take_while]. by rewrite (proj2 (not_slash_true c) Hc). }
  cbn [Strings.take_while] in Hreal. rewrite (proj2 (not_slash_true c) Hc) in Hreal.
  cbn [Strings.take_while]. rewrite (proj2 (not_slash_true c) Hc).
  subst dot dotdot.
  destruct (decide (c = "."%char)) as [->|Hne].
  2:{ rewrite (bool_decide_eq_false_2 _ Hne). cbn [andb].
      do 3 right. do 3 (split; [done|]). apply Hreal; congruence. }
  rewrite bool_decide_eq_true_2 by done. cbn [andb].
  destruct p1 as [|d p2]; [left; by rewrite bool_decide_eq_true_2|].
  rewrite bool_decide_eq_false_2 by done.
  destruct (is_slash d) eqn:Hd.
  { right; left. apply is_slash_true in Hd as ->. eauto. }
  cbn [Strings.take_while] in *. rewrite (proj2 (not_slash_true d) Hd) in *.
  destruct (decide (d = "."%char)) as [->|Hnd].
  2:{ do 3 right. split; [done|]. split; [done|]. split.
      - destruct p2; by rewrite bool_decide_eq_false_2.
      - apply Hreal; congruence. }
  destruct p2 as [|e p3].
  { right; right; left. rewrite bool_decide_eq_true_2 by done. eauto 10. }
  rewrite bool_decide_eq_true_2 by done. cbn [andb].
  destruct (is_slash e) eqn:He.
  { right; right; left. apply is_slash_true in He as ->. eauto 10. }
  do 3 right. do 3 (split; [done|]).
  cbn [Strings.take_while] in *. rewrite (proj2 (not_slash_true e) He) in *.
  apply Hreal; congruence.
Qed.

(** The loop of [CleanPath], started where an element starts with the
    elements [kept] written: it resolves the elements that are left, and
    notes an element [.] at the end. *)
Lemma clean_loop_resolves fuel : ∀ p kept trailing,
  String.length p ≤ fuel → Forall real kept →
  Httprouter.clean_loop fuel p (rooted kept) trailing =
  (rooted (resolve (elements p) kept),
   trailing || bool_decide (last (elements p) = Some ".")).
Proof.
  induction fuel as [|fuel IH]; intros p kept trailing Hlen Hkept.
  { destruct p; [|simpl in Hlen; lia]. by destruct trailing. }
  destruct p as [|c p1]; [by destruct trailing|].
  cbn [Httprouter.clean_loop]. simpl in Hlen.
  destruct (is_slash c) eqn:Hc.
  { apply is_slash_true in Hc as ->. rewrite IH by (done || lia).
    rewrite elements_slash.
    by rewrite (last_cons_not_nil _ (elements p1)) by apply elements_not_nil. }
  destruct (first_element c p1 Hc)
    as [(-> & -> & ->)|[(-> & -> & -> & q & ->)
       |[(-> & -> & -> & -> & rest & -> & Hrest)|(-> & -> & -> & Hreal)]]].
  - (* [.] at the end *)
    rewrite IH by (done || simpl; lia).
    change (elements ".") with ["."]. change (elements "") with [""].
    change (resolve [""] kept) with kept. change (resolve ["."] kept) with kept.
    cbn [last].
    rewrite (bool_decide_eq_true_2 (Some "." = Some ".")) by done.
    by rewrite !orb_true_r.
  - (* [.] before a slash *)
    rewrite IH by (done || lia). rewrite elements_slash.
    change (elements (String "." (String "/" q))) with ("." :: elements q).
    rewrite resolve_dot, resolve_empty.
    by rewrite !(last_cons_not_nil _ (elements q)) by apply elements_not_nil.
  - (* [..] *)
    cbn [Strings.drop]. rewrite rooted_pop by done.
    rewrite IH; [|simpl in Hlen; lia|by apply real_removelast].
    rewrite (elements_split (String "." (String "." rest))).
    assert (Etw : Strings.take_while not_slash (String "." (String "." rest)) = ".."
                ∧ Strings.drop_while not_slash (String "." (String "." rest)) = rest).
    { destruct Hrest as [->|[q ->]]; done. }
    destruct Etw as [-> ->]. rewrite resolve_dotdot.
    rewrite (resolve_after rest) by done.
    by rewrite (last_after ".." rest) by done.
  - (* an element that is kept *)
    set (p := String c p1) in *.
    rewrite <- rooted_snoc by done.
    pose proof (length_take_while_drop_while not_slash p) as Hl.
    assert (Strings.take_while not_slash p ≠ "") by apply Hreal.
    assert (0 < String.length (Strings.take_while not_slash p))
      by (destruct (Strings.take_while not_slash p); [done|simpl; lia]).
    rewrite IH.
    2:{ assert (String.length p = S (String.length p1)) by done. lia. }
    2:{ apply Forall_app. split; [done|by constructor]. }
    rewrite (elements_split p). rewrite resolve_real by done.
    destruct Hreal as (H1 & H2 & H3 & _).
    rewrite (resolve_after (Strings.drop_while not_slash p)) by apply drop_while_slash.
    by rewrite (last_after _ (Strings.drop_while not_slash p))
      by (done || apply drop_while_slash).
Qed.

(** What is resolved is made of elements that are kept. *)
Lemma resolve_keeps_real es : ∀ kept,
  Forall (fun e => Strings.forallb not_slash e = true) es →
  Forall real kept → Forall real (resolve es kept).
Proof.
  induction es as [|e es IH]; intros kept Hes Hkept; [done|].
  inversion_clear Hes as [|? ? He Hes']. cbn [resolve].
  destruct (decide (e = "" ∨ e = ".")) as [|Hn]; [by apply IH|].
  destruct (decide (e = "..")); [by apply IH, real_removelast|].
  apply IH; [done|]. apply Forall_app. split; [done|]. constructor; [|done].
  split; [tauto|]. split; [tauto|]. done.
Qed.

Lemma resolved_real p : Forall real (resolve (elements p) []).
Proof. apply resolve_keeps_real; [apply elements_no_slash|done]. Qed.

(** A path without slash is its one element. *)
Lemma elements_single p e : elements p = [e] → e = p.
Proof.
  rewrite elements_split. intros [= <- Hafter].
  pose proof (take_while_drop_while not_slash p) as E.
  destruct (Strings.drop_while not_slash p) as [|c q].
  - by rewrite app_nil_r_s in E.
  - by apply elements_not_nil in Hafter.
Qed.

(** The last byte of a path is a slash when its last element is empty. *)
Lemma ends_with_slash p :
  p ≠ "" →
  is_slash (get (String.length p - 1) p)
  = bool_decide (last (elements p) = Some "").
Proof.
  induction p as [|c p IH]; [done|]. intros _.
  destruct (decide (p = "")) as [->|Hp].
  - change (get (String.length (String c "") - 1) (String c "")) with c.
    cbn [elements]. change (elements "") with [""].
    destruct (is_slash c); symmetry;
      [by apply bool_decide_eq_true_2|by apply bool_decide_eq_false_2].
  - replace (String.length (String c p) - 1) with (S (String.length p - 1))
      by (destruct p; [done|simpl; lia]).
    change (get (S (String.length p - 1)) (String c p))
      with (get (String.length p - 1) p).
    rewrite IH by done. cbn [elements].
    destruct (is_slash c).
    + by rewrite (last_cons_not_nil _ (elements p)) by apply elements_not_nil.
    + destruct (elements p) as [|e [|e' rest]] eqn:E.
      * by apply elements_not_nil in E.
      * apply elements_single in E as ->. cbn [last].
        rewrite (bool_decide_eq_false_2 (Some p = Some "")) by congruence.
        by rewrite bool_decide_eq_false_2.
      * done.
Qed.

(** [CleanPath] gives the cleaned path, for every string. *)
Lemma CleanPath_cleaned p : Httprouter.CleanPath p = cleaned p.
Proof.
  destruct p as [|c p1]; [done|]. unfold Httprouter.CleanPath.
  set (p := String c p1).
  set (rest := if is_slash c then Strings.drop 1 p else p).
  assert (Hrest : elements p = elements rest ∨ elements p = "" :: elements rest).
  { unfold rest, p. destruct (is_slash c) eqn:Hc; [right|by left].
    by apply is_slash_true in Hc as ->. }
  assert (Hlen : String.length rest ≤ String.length p).
  { unfold rest. destruct (is_slash c); [|done]. rewrite length_drop_s. lia. }
  change "/" with (rooted []) at 1.
  rewrite clean_loop_resolves by done.
  rewrite ends_with_slash by done.
  assert (E1 : resolve (elements rest) [] = resolve (elements p) []).
  { destruct Hrest as [->| ->]; done. }
  assert (E2 : last (elements rest) = last (elements p)).
  { destruct Hrest as [->| ->]; [done|].
    by rewrite (last_cons_not_nil _ (elements rest)) by apply elements_not_nil. }
  rewrite E1, E2. unfold cleaned. fold (keeps_slash p).
  pose proof (resolved_real p) as Hreal.
  destruct (resolve (elements p) []) as [|e es] eqn:Ees.
  - rewrite andb_false_r. by rewrite andb_false_r, app_nil_r_s.
  - rewrite (proj2 (Nat.ltb_lt _ _)) by (by apply length_rooted).
    rewrite bool_decide_eq_false_2 by done. rewrite !andb_true_r.
    destruct (keeps_slash p); [done|by rewrite app_nil_r_s].
Qed.

End CleanPathFacts.

Section CleanFacts.
Import Path PathSpec Cleaning.

Lemma elements_app a b : elements (a +:+ String "/" b) = elements a ++ elements b.
Proof.
  induction a as [|c a IH]; sapp; [done|]. cbn [elements]. rewrite IH.
  destruct (is_slash c); [done|].
  destruct (elements a) as [|e rest] eqn:E; [by apply elements_not_nil in E|done].
Qed.

Lemma elements_plain e : Strings.forallb not_slash e = true → elements e = [e].
Proof.
  induction e as [|c e IH]; [done|]. simpl.
  intros [Hc He]%andb_true_iff. apply not_slash_true in Hc. rewrite Hc.
  by rewrite IH.
Qed.

Lemma solid_no_slash e : solid e → Strings.forallb not_slash e = true.
Proof. by intros (_ & _ & ?). Qed.

Lemma real_solid e : real e → solid e.
Proof. intros (? & ? & _ & ?). by repeat split. Qed.

Lemma dotdot_solid : solid "..".
Proof. by repeat split. Qed.

(** The elements of what was written are the elements written. *)
Lemma elements_join l :
  l ≠ [] → Forall solid l → elements (join_slash l) = l.
Proof.
  induction l as [|e l IH]; [done|]. intros _ Hall.
  inversion_clear Hall as [|? ? He Hl].
  destruct l as [|e' l]; [by apply elements_plain, solid_no_slash|].
  rewrite join_slash_cons by done. rewrite elements_app.
  rewrite IH by done. by rewrite elements_plain by by apply solid_no_slash.
Qed.

Lemma resolve_reals es : ∀ kept, Forall real es → resolve es kept = kept ++ es.
Proof.
  induction es as [|e es IH]; intros kept Hes; [by rewrite app_nil_r|].
  inversion_clear Hes. rewrite resolve_real by done. rewrite IH by done.
  by rewrite <- app_assoc.
Qed.

Lemma resolve_dotdots k es : resolve (repeat ".." k ++ es) [] = resolve es [].
Proof. induction k as [|k IH]; [done|]. simpl repeat. exact IH. Qed.

Lemma join_slash_empty l : Forall solid l → join_slash l = "" → l = [].
Proof.
  intros Hall E. destruct l as [|e l]; [done|].
  inversion_clear Hall as [|? ? [He _] _]. by apply join_slash_not_nil in E.
Qed.

Lemma length_join_le a : ∀ b,
  String.length (join_slash a) ≤ String.length (join_slash (a ++ b)).
Proof.
  intros b. induction b as [|x b IH] using rev_ind; [by rewrite app_nil_r|].
  rewrite app_assoc. destruct (decide (a ++ b = [])) as [E|Hne].
  - apply app_eq_nil in E as [-> ->]. simpl. lia.
  - rewrite join_slash_snoc by done. rewrite length_app_s. lia.
Qed.

Lemma length_join_lt a b :
  Forall solid b → b ≠ [] →
  String.length (join_slash a) < String.length (join_slash (a ++ b)).
Proof.
  intros Hb Hne. destruct b as [|x b _] using rev_ind; [done|].
  apply Forall_app in Hb as [_ Hx]. inversion_clear Hx as [|? ? [Hx' _] _].
  rewrite app_assoc. destruct (decide (a ++ b = [])) as [E|Hn].
  - apply app_eq_nil in E as [-> ->]. simpl. destruct x; [done|simpl; lia].
  - rewrite join_slash_snoc by done. rewrite length_app_s.
    pose proof (length_join_le a b). cbn [String.length]. lia.
Qed.

(** Going back in an output without slash reaches its start. *)
Lemma back_none e : ∀ i,
  i < String.length e → Strings.forallb not_slash e = true → back e 0 i = 0.
Proof.
  induction i as [|i IH]; intros Hi He; [done|]. cbn [back].
  rewrite get_no_slash by done. cbn [Nat.ltb Nat.leb andb]. apply IH; [lia|done].
Qed.

(** Taking away the last element written by [path.Clean], down to the
    index [stop]. *)
Lemma join_pop l e stop :
  Forall solid l → solid e → stop ≤ String.length (join_slash l) →
  Strings.take
    (back (join_slash (l ++ [e])) stop (String.length (join_slash (l ++ [e])) - 1))
    (join_slash (l ++ [e]))
  = join_slash l.
Proof.
  intros Hl He Hstop. destruct (decide (l = [])) as [->|Hne].
  - simpl in Hstop. assert (stop = 0) as -> by lia.
    destruct He as (He & _ & Hs). cbn [app join_slash].
    rewrite back_none; [done| |done]. destruct e; [done|simpl; lia].
  - rewrite join_slash_snoc by done.
    replace (String.length (join_slash l +:+ String "/" e) - 1)
      with (String.length (join_slash l) + String.length e)
      by (rewrite length_app_s; cbn [String.length]; lia).
    rewrite back_over; [|done|lia|by apply solid_no_slash].
    rewrite Nat.max_r by lia. apply take_app_length_s.
Qed.

Lemma solid_output k kept : Forall real kept → Forall solid (repeat ".." k ++ kept).
Proof.
  intros H. apply Forall_app. split.
  - induction k; simpl; constructor; [apply dotdot_solid|done].
  - eapply Forall_impl; [exact H|]. apply real_solid.
Qed.

Lemma solid_dotdots k : Forall solid (repeat ".." k).
Proof. rewrite <- (app_nil_r (repeat ".." k)). by apply solid_output. Qed.

(** The element that a path starts with, for the loop of [path.Clean]. *)
Lemma first_element_clean c p1 :
  is_slash c = false →
  let dot := bool_decide (c = "."%char) in
  let at_end := match p1 with "" => true | String d _ => is_slash d end in
  let dotdot := match p1 with
                | String d "" => bool_decide (d = "."%char)
                | String d (String e _) => bool_decide (d = "."%char) && is_slash e
                | "" => false
                end in
  (dot && at_end = true ∧ c = "."%char ∧ (p1 = "" ∨ ∃ q, p1 = String "/" q)) ∨
  (dot && at_end = false ∧ dot && dotdot = true ∧
   c = "."%char ∧ ∃ rest, p1 = String "." rest ∧ (rest = "" ∨ ∃ q, rest = String "/" q)) ∨
  (dot && at_end = false ∧ dot && dotdot = false ∧
   real (Strings.take_while not_slash (String c p1))).
Proof.
  intros Hc. cbv zeta.
  destruct (first_element c p1 Hc)
    as [(_ & -> & ->)|[(_ & _ & -> & q & ->)
       |[(_ & _ & H3 & -> & rest & -> & Hrest)|(H1 & H2 & H3 & Hreal)]]].
  - left. split; [done|]. split; [done|]. by left.
  - left. split; [done|]. split; [done|]. right. by exists q.
  - right; left. split; [done|]. split; [exact H3|]. split; [done|]. by exists rest.
  - right; right. split; [|by split].
    destruct p1 as [|d p2]; [|exact H2].
    destruct (bool_decide (c = "."%char)); [|done].
    by rewrite bool_decide_eq_true_2 in H1.
Qed.

(** The step of [path.Clean] for an element [..]. *)
Lemma dotdot_step r k kept :
  Forall real kept →
  ∃ k1, ∀ f : state → state,
    (if stop_at r k <? String.length (output r k kept)
     then f (mkState
               (Strings.take (back (output r k kept) (stop_at r k)
                                   (String.length (output r k kept) - 1))
                             (output r k kept))
               (stop_at r k))
     else if negb r
          then f (mkState
                    ((if 0 <? String.length (output r k kept)
                      then output r k kept +:+ "/" else output r k kept) +:+ "..")
                    (String.length
                       ((if 0 <? String.length (output r k kept)
                         then output r k kept +:+ "/" else output r k kept) +:+ "..")))
          else f (mkState (output r k kept) (stop_at r k)))
    = f (mkState (output r k1 (removelast kept)) (stop_at r k1)).
Proof.
  intros Hkept. destruct r; cbn [output stop_at negb].
  - (* rooted *)
    exists k. intros f. pose proof (rooted_pop kept Hkept) as Hpop.
    destruct (1 <? String.length (rooted kept)); by rewrite Hpop.
  - (* not rooted *)
    destruct kept as [|x kept _] using rev_ind.
    + exists (S k). intros f. rewrite app_nil_r. rewrite Nat.ltb_irrefl.
      cbn [removelast]. rewrite app_nil_r.
      assert (E : (if 0 <? String.length (join_slash (repeat ".." k))
                   then join_slash (repeat ".." k) +:+ "/"
                   else join_slash (repeat ".." k)) +:+ ".."
                  = join_slash (repeat ".." (S k))).
      { change (repeat ".." (S k)) with (".." :: repeat ".." k).
        rewrite repeat_cons. destruct k as [|k]; [done|].
        rewrite join_slash_snoc by done.
        pose proof (join_slash_not_nil ".." (repeat ".." k) ltac:(done)) as Hn.
        change (repeat ".." (S k)) with (".." :: repeat ".." k).
        destruct (join_slash (".." :: repeat ".." k)) as [|c s]; [done|].
        cbn [String.length Nat.ltb Nat.leb]. rewrite !app_assoc_s. by sapp. }
      by rewrite E.
    + exists k. intros f. rewrite removelast_last.
      apply Forall_app in Hkept as [Hinit Hx]. inversion_clear Hx as [|? ? Hx' _].
      rewrite (proj2 (Nat.ltb_lt _ _)).
      2:{ apply length_join_lt; [|by destruct kept].
          apply Forall_app. split; [|by constructor; [apply real_solid|]].
          eapply Forall_impl; [exact Hinit|]. apply real_solid. }
      rewrite app_assoc. rewrite join_pop; [done| |by apply real_solid|].
      * by apply solid_output.
      * apply length_join_le.
Qed.

(** The step of [path.Clean] for an element that is kept. *)
Lemma element_step r k kept e :
  Forall real kept → real e →
  (if (r && negb (String.length (output r k kept) =? 1))
      || (negb r && negb (String.length (output r k kept) =? 0))
   then output r k kept +:+ "/" else output r k kept) +:+ e
  = output r k (kept ++ [e]).
Proof.
  intros Hkept He. destruct r; cbn [output andb orb negb].
  - rewrite orb_false_r. rewrite rooted_snoc by done.
    destruct kept as [|x kept]; [done|].
    pose proof (length_rooted (x :: kept) Hkept ltac:(done)) as Hlen.
    rewrite (proj2 (Nat.ltb_lt _ _)) by done.
    by rewrite (proj2 (Nat.eqb_neq _ _)) by lia.
  - rewrite app_assoc.
    pose proof (solid_output k kept Hkept) as Hl.
    destruct (repeat ".." k ++ kept) as [|x l]; [done|].
    rewrite join_slash_snoc by done.
    inversion_clear Hl as [|? ? [Hx _] _].
    pose proof (join_slash_not_nil x l Hx) as Hn.
    destruct (join_slash (x :: l)) as [|c s]; [done|].
    cbn [String.length Nat.eqb negb]. rewrite !app_assoc_s. by sapp.
Qed.

(** The loop of [path.Clean], started where an element starts: it
    resolves the elements that are left. *)
Lemma Clean_loop_resolves fuel : ∀ p r k kept,
  String.length p ≤ fuel → Forall real kept →
  ∃ k', Path.clean_loop fuel r p (mkState (output r k kept) (stop_at r k))
        = mkState (output r k' (resolve (elements p) kept)) (stop_at r k').
Proof.
  induction fuel as [|fuel IH]; intros p r k kept Hlen Hkept.
  { destruct p; [|simpl in Hlen; lia]. by exists k. }
  destruct p as [|c p1]; [by exists k|].
  cbn [Path.clean_loop out dotdot]. simpl in Hlen.
  destruct (is_slash c) eqn:Hc.
  { apply is_slash_true in Hc as ->. rewrite elements_slash, resolve_empty.
    apply IH; [lia|done]. }
  destruct (first_element_clean c p1 Hc)
    as [(-> & -> & Hp1)|[(-> & -> & -> & rest & -> & Hrest)|(-> & -> & Hreal)]].
  - (* [.] *)
    destruct (IH p1 r k kept ltac:(lia) Hkept) as [k' Hk']. exists k'.
    rewrite Hk'. destruct Hp1 as [->|[q ->]]; [done|].
    change (elements (String "." (String "/" q))) with ("." :: elements q).
    by rewrite elements_slash, resolve_dot, resolve_empty.
  - (* [..] *)
    cbn [Strings.drop].
    destruct (dotdot_step r k kept Hkept) as [k1 Hstep].
    destruct (IH rest r k1 (removelast kept)) as [k' Hk'];
      [simpl in Hlen; lia|by apply real_removelast|].
    exists k'. etransitivity; [apply (Hstep (Path.clean_loop fuel r rest))|].
    rewrite Hk'.
    rewrite (elements_split (String "." (String "." rest))).
    assert (Etw : Strings.take_while not_slash (String "." (String "." rest)) = ".."
                ∧ Strings.drop_while not_slash (String "." (String "." rest)) = rest).
    { destruct Hrest as [->|[q ->]]; done. }
    destruct Etw as [-> ->]. rewrite resolve_dotdot.
    by rewrite (resolve_after rest) by done.
  - (* an element that is kept *)
    set (p := String c p1) in *.
    rewrite element_step by done.
    pose proof (length_take_while_drop_while not_slash p) as Hl.
    assert (Strings.take_while not_slash p ≠ "") by apply Hreal.
    assert (0 < String.length (Strings.take_while not_slash p))
      by (destruct (Strings.take_while not_slash p); [done|simpl; lia]).
    destruct (IH (Strings.drop_while not_slash p) r k
                 (kept ++ [Strings.take_while not_slash p])) as [k' Hk'].
    { assert (String.length p = S (String.length p1)) by done. lia. }
    { apply Forall_app. split; [done|by constructor]. }
    exists k'. rewrite Hk'.
    rewrite (elements_split p). rewrite resolve_real by done.
    by rewrite (resolve_after (Strings.drop_while not_slash p)) by apply drop_while_slash.
Qed.

Lemma last_solid l e : Forall solid l → last l = Some e → e ≠ "" ∧ e ≠ ".".
Proof.
  intros Hl He. apply last_Some in He as [l' ->].
  apply Forall_app in Hl as [_ Hl]. inversion_clear Hl as [|? ? (? & ? & _) _]. done.
Qed.

(** No slash is kept at the end of what the loops wrote. *)
Lemma keeps_slash_solid l p :
  Forall solid l → l ≠ [] → last (elements p) = last l → keeps_slash p = false.
Proof.
  intros Hl Hne E. unfold keeps_slash. rewrite E.
  destruct (last l) as [e|] eqn:Hlast; [|by apply last_None in Hlast].
  destruct (last_solid l e Hl Hlast) as [H1 H2].
  rewrite !bool_decide_eq_false_2 by congruence. by rewrite andb_false_r.
Qed.

(** Cleaning as a URL path what [path.Clean] returns gives the elements
    that were kept, under the root. *)
Lemma cleaned_output r k kept :
  Forall real kept →
  cleaned (match output r k kept with "" => "." | _ => output r k kept end)
  = rooted kept.
Proof.
  intros Hkept. destruct r; cbn [output].
  - assert (E : rooted kept = String "/" (join_slash kept)) by (unfold rooted; by sapp).
    rewrite E. cbv iota. unfold cleaned. rewrite elements_slash, resolve_empty.
    destruct kept as [|x kept]; [done|].
    assert (Hs : Forall solid (x :: kept))
      by (eapply Forall_impl; [exact Hkept|apply real_solid]).
    assert (Hel : elements (join_slash (x :: kept)) = x :: kept)
      by (by apply elements_join).
    rewrite Hel, (resolve_reals (x :: kept) []) by done. cbn [app].
    rewrite (keeps_slash_solid (x :: kept)); [|done|done|].
    + rewrite app_nil_r_s. exact E.
    + by rewrite elements_slash, Hel.
  - pose proof (solid_output k kept Hkept) as Hs.
    assert (Hres : resolve (repeat ".." k ++ kept) [] = kept).
    { by rewrite resolve_dotdots, resolve_reals. }
    destruct (repeat ".." k ++ kept) as [|x l] eqn:El.
    { cbn [join_slash]. cbn [resolve] in Hres. by subst kept. }
    pose proof (join_slash_not_nil x l) as Hn.
    pose proof Hs as Hs'. inversion_clear Hs' as [|? ? [Hx _] _]. specialize (Hn Hx).
    destruct (join_slash (x :: l)) as [|c s] eqn:Ej; [done|]. rewrite <- Ej.
    assert (Hel : elements (join_slash (x :: l)) = x :: l) by (by apply elements_join).
    unfold cleaned. rewrite Hel, Hres.
    rewrite (keeps_slash_solid (x :: l)); [apply app_nil_r_s|done|done|by rewrite Hel].
Qed.

(** Cleaning as a URL path a path that [path.Clean] has cleaned: the
    elements of the path, resolved, under the root. *)
Lemma CleanPath_Clean x :
  x ≠ "" → Httprouter.CleanPath (Clean x) = rooted (resolve (elements x) []).
Proof.
  intros Hx. rewrite CleanPath_cleaned. destruct x as [|c x1]; [done|].
  unfold Clean. set (x := String c x1).
  set (r := is_slash c).
  assert (Hst : (if r then mkState "/" 1 else mkState "" 0)
                = mkState (output r 0 []) (stop_at r 0)) by (by destruct r).
  rewrite Hst.
  destruct (Clean_loop_resolves (String.length x) (if r then Strings.drop 1 x else x)
              r 0 []) as [k' Hk']; [|done|].
  { destruct r; [|done]. rewrite length_drop_s. lia. }
  rewrite Hk'. cbn [out].
  assert (E : resolve (elements (if r then Strings.drop 1 x else x)) []
              = resolve (elements x) []).
  { unfold r, x. destruct (is_slash c) eqn:Hc; [|done].
    by apply is_slash_true in Hc as ->. }
  rewrite E. apply cleaned_output, resolved_real.
Qed.

(** Cleaning as a URL path the join of two paths gives their clean join. *)
Lemma CleanPath_Join base path :
  Httprouter.CleanPath (Join [base; path]) = clean_join base path.
Proof.
  unfold clean_join. cbn [Join].
  destruct (decide (base = "")) as [->|Hb].
  - change (elements "" ++ elements path) with ("" :: elements path).
    rewrite resolve_empty.
    destruct (decide (path = "")) as [->|Hp]; [done|].
    by apply CleanPath_Clean.
  - rewrite CleanPath_Clean by (cbn [join_slash]; by destruct base).
    cbn [join_slash]. sapp. by rewrite elements_app.
Qed.

End CleanFacts.

Section RouteFullPath.
Import Route Action Resource API Design PathSpec Examples.

(** C4.  A route is absolute when its path starts with two slashes; its
    full path is then the path without its first slash, cleaned: a
    slash, then the elements of the path with one slash between them,
    where empty elements (duplicate slashes) and [.] are dropped and
    [..] takes away the element before it; the resource, the root and
    the version play no part.  Otherwise it is the clean join of the
    full path of the owning resource and of the path of the route: the
    elements of both, resolved in the same way, under the root.  In both
    cases the result starts with a slash and has no empty element, no
    [.] and no [..] left, but for a slash that may be kept at its
    end. *)
Theorem RouteDefinition_FullPath_spec (fuel : nat) (D : APIDefinition)
    (version : option Version.APIVersionDefinition)
    (owner : option ResourceDefinition) (r : RouteDefinition) :
  (IsAbsolute r = true ↔ String.prefix "//" (Path r) = true) ∧
  (IsAbsolute r = true →
     RouteDefinition_FullPath fuel D version owner r =
     Ok (cleaned (Strings.drop 1 (Path r)))) ∧
  (IsAbsolute r = false →
     RouteDefinition_FullPath fuel D version owner r =
     (base ←r match owner with
              | Some res => ResourceDefinition_FullPath fuel D version res
              | None => Ok ""
              end ;;
      Ok (clean_join base (Path r)))) ∧
  (∀ full, RouteDefinition_FullPath fuel D version owner r = Ok full →
     ∃ es, Forall real es ∧ (full = rooted es ∨ full = rooted es +:+ "/")).
Proof.
  unfold RouteDefinition_FullPath, route_full_path.
  split; [done|]. split; [|split].
  - intros ->. by rewrite CleanPath_cleaned.
  - intros ->. destruct (match owner with Some _ => _ | None => _ end) as [base| |];
      [|done..]. cbn [rbind]. by rewrite CleanPath_Join.
  - intros full. destruct (IsAbsolute r).
    + rewrite CleanPath_cleaned. intros [= <-]. unfold cleaned.
      exists (resolve (elements (Strings.drop 1 (Path r))) []).
      split; [apply resolved_real|].
      destruct (_ && _); [by right|left; by rewrite app_nil_r_s].
    + destruct (match owner with Some _ => _ | None => _ end) as [base| |];
        [|done..]. cbn [rbind]. rewrite CleanPath_Join. intros [= <-].
      exists (resolve (elements base ++ elements (Path r)) []).
      split; [|by left]. apply resolve_keeps_real; [|done].
      apply Forall_app. split; apply elements_no_slash.
Qed.

Lemma RouteDefinition_FullPath_spec_witness :
  (IsAbsolute absolute_route = true ∧
   RouteDefinition_FullPath 0 nested None (Some child) absolute_route =
     Ok "/health/check") ∧
  (IsAbsolute (mkRoute "GET" "/:id/../:childID/") = false ∧
   RouteDefinition_FullPath 2 nested (Some (Default nested)) (Some child)
     (mkRoute "GET" "/:id/../:childID/") =
     Ok "/parents/:parentID/children/:childID") ∧
  (RouteDefinition_FullPath 0 nested None (Some child) absolute_route =
     Ok "/health/check" ∧
   ∃ es, Forall real es ∧
     ("/health/check" = rooted es ∨ "/health/check" = rooted es +:+ "/")).
Proof.
  destruct (RouteDefinition_FullPath_spec 0 nested None (Some child) absolute_route)
    as (_ & Habs & _ & Hclean).
  destruct (RouteDefinition_FullPath_spec 2 nested (Some (Default nested))
              (Some child) (mkRoute "GET" "/:id/../:childID/"))
    as (_ & _ & Hrel & _).
  split; [|split].
  - split; [reflexivity|]. rewrite (Habs eq_refl). vm_compute. reflexivity.
  - split; [reflexivity|]. rewrite (Hrel eq_refl). vm_compute. reflexivity.
  - assert (E : RouteDefinition_FullPath 0 nested None (Some child) absolute_route
                = Ok "/health/check") by (vm_compute; reflexivity).
    split; [exact E|]. exact (Hclean _ E).
Defined.

End RouteFullPath.

(** ** Merging responses again, in sequence, and into a copy *)

Section MergeAlgebra.
Import Att Response ResponseDup Examples.

Lemma merge_headers_absorb (h o : gmap string AttributeDefinition) :
  merge_headers (merge_headers h o) o = merge_headers h o.
Proof.
  apply map_eq. intros n. rewrite !merge_headers_lookup.
  by destruct (h !! n), (o !! n).
Qed.

Lemma merge_headers_self (h : gmap string AttributeDefinition) :
  merge_headers h h = h.
Proof.
  apply map_eq. intros n. rewrite merge_headers_lookup. by destruct (h !! n).
Qed.

Lemma merge_headers_assoc (h a b : gmap string AttributeDefinition) :
  merge_headers (merge_headers h a) b = merge_headers h (merge_headers a b).
Proof.
  apply map_eq. intros n. rewrite !merge_headers_lookup.
  by destruct (h !! n), (a !! n).
Qed.

Lemma merge_headers_empty_l (o : gmap string AttributeDefinition) :
  merge_headers ∅ o = o.
Proof. apply map_eq. intros n. by rewrite merge_headers_lookup, lookup_empty. Qed.

Lemma merge_headers_empty_r (h : gmap string AttributeDefinition) :
  merge_headers h ∅ = h.
Proof.
  apply map_eq. intros n. rewrite merge_headers_lookup, lookup_empty.
  by destruct (h !! n).
Qed.

Lemma size_merge_headers (h o : gmap string AttributeDefinition) :
  size (merge_headers h o) = 0 ↔ size h = 0 ∧ size o = 0.
Proof.
  rewrite !map_size_empty_iff. split.
  - intros E. split; apply map_eq; intros n; rewrite lookup_empty;
      pose proof (f_equal (.!! n) E) as En; cbn beta in En;
      rewrite merge_headers_lookup, lookup_empty in En;
      by destruct (h !! n).
  - intros [-> ->]. apply merge_headers_empty_r.
Qed.

Lemma pick_left (x y : string) :
  (if decide ((if decide (x = "") then y else x) = "") then y
   else (if decide (x = "") then y else x))
  = (if decide (x = "") then y else x).
Proof. repeat case_decide; congruence. Qed.

Lemma pick_left_Z (x y : Z) :
  (if decide ((if decide (x = 0%Z) then y else x) = 0%Z) then y
   else (if decide (x = 0%Z) then y else x))
  = (if decide (x = 0%Z) then y else x).
Proof. repeat case_decide; congruence. Qed.

(** X1.  Merging is idempotent: a response merged with itself is
    unchanged, and merging the same definition a second time changes
    nothing more. *)
Theorem Merge_idempotent (r : ResponseDefinition) :
  Merge r (Some r) = Ok r ∧
  ∀ other r', Merge r (Some other) = Ok r' → Merge r' (Some other) = Ok r'.
Proof.
  split.
  - unfold Merge. destruct r as [n s d t m [h|] st g]; simpl.
    + destruct (ToObject (Att.Type_ h)) as [o|] eqn:Ho; simpl.
      * case_decide.
        -- rewrite merge_headers_self. destruct h as [ty nz]. simpl in *.
           destruct ty; simplify_eq/=. repeat case_decide; congruence.
        -- repeat case_decide; congruence.
      * repeat case_decide; (lia || congruence).
    + repeat case_decide; congruence.
  - intros other r' H. unfold Merge in *.
    destruct (Headers other) as [oh|] eqn:Hoh.
    + destruct (decide (0 < len_obj (ToObject (Att.Type_ oh)))) as [Hlen|Hlen].
      * destruct (ToObject (Att.Type_ (match Headers r with
                                       | Some h => h
                                       | None => mkAttribute (Object ∅) ∅
                                       end))) as [headers|] eqn:Hrh; [|done].
        injection H as <-. simpl. rewrite !pick_left, !pick_left_Z.
        by rewrite merge_headers_absorb.
      * injection H as <-. simpl. by rewrite !pick_left, !pick_left_Z.
    + injection H as <-. simpl. by rewrite !pick_left, !pick_left_Z.
Qed.

Lemma Merge_idempotent_witness :
  Merge resp_ok (Some api_ok) = Ok (mkResponse "OK" 200 "" None "" None false false) ∧
  Merge (mkResponse "OK" 200 "" None "" None false false) (Some api_ok)
    = Ok (mkResponse "OK" 200 "" None "" None false false).
Proof.
  split; [reflexivity|].
  apply (Merge_idempotent resp_ok). reflexivity.
Defined.

Lemma pick_assoc (x y z : string) :
  (if decide ((if decide (x = "") then y else x) = "") then z
   else (if decide (x = "") then y else x))
  = (if decide (x = "") then (if decide (y = "") then z else y) else x).
Proof. repeat case_decide; congruence. Qed.

Lemma pick_assoc_Z (x y z : Z) :
  (if decide ((if decide (x = 0%Z) then y else x) = 0%Z) then z
   else (if decide (x = 0%Z) then y else x))
  = (if decide (x = 0%Z) then (if decide (y = 0%Z) then z else y) else x).
Proof. repeat case_decide; congruence. Qed.

Lemma size_pos_merge (h o : gmap string AttributeDefinition) :
  0 < size (merge_headers h o) ↔ 0 < size h ∨ 0 < size o.
Proof. pose proof (size_merge_headers h o). lia. Qed.

(** [Merge] in two steps: the four fields, then the headers [om] of the
    other definition. *)
Lemma Merge_steps (r o : ResponseDefinition) :
  Merge r (Some o) =
  put_headers (set_fields r (pick_fields (fields_of r) (fields_of o))) (headers_of o).
Proof.
  unfold Merge, put_headers, headers_of, set_fields, pick_fields, fields_of.
  destruct r as [rn rs rd rt rm rh rst rg], o as [on os od ot om oh ost og]; simpl.
  destruct oh as [oh|]; simpl.
  - destruct (ToObject (Att.Type_ oh)) as [m|]; simpl.
    + case_decide; [|done]. by destruct rh.
    + repeat case_decide; rewrite ?map_size_empty in *; (lia || done).
  - repeat case_decide; rewrite ?map_size_empty in *; (lia || done).
Qed.

Lemma pick_fields_assoc f g h :
  pick_fields (pick_fields f g) h = pick_fields f (pick_fields g h).
Proof.
  unfold pick_fields. destruct f, g, h. simpl.
  by rewrite !pick_assoc, !pick_assoc_Z.
Qed.

Lemma put_headers_twice (r : ResponseDefinition) (A B : gmap string AttributeDefinition)
    (g : fields) :
  (r1 ←r put_headers r A ;; put_headers (set_fields r1 g) B)
  = put_headers (set_fields r g) (merge_headers A B).
Proof.
  unfold put_headers, set_fields.
  destruct r as [rn rs rd rt rm rh rst rg]; simpl.
  destruct (decide (0 < size (merge_headers A B))) as [HAB|HAB];
    rewrite size_pos_merge in HAB.
  - destruct (decide (0 < size A)) as [HA|HA], (decide (0 < size B)) as [HB|HB];
      try lia.
    + destruct rh as [[[k|h] nz]|]; simpl; try done; by rewrite merge_headers_assoc.
    + assert (B = ∅) as -> by (apply map_size_empty_iff; lia).
      destruct rh as [[[k|h] nz]|]; simpl;
        by rewrite ?merge_headers_empty_r, ?merge_headers_empty_l.
    + assert (A = ∅) as -> by (apply map_size_empty_iff; lia).
      destruct rh as [[[k|h] nz]|]; simpl;
        by rewrite ?merge_headers_empty_r, ?merge_headers_empty_l.
  - rewrite !decide_False by lia. simpl. by rewrite decide_False by lia.
Qed.

Lemma put_headers_fields r om r1 :
  put_headers r om = Ok r1 → fields_of r1 = fields_of r.
Proof.
  unfold put_headers. case_decide; [|by intros [= <-]].
  destruct (Headers r) as [rh|]; [|by intros [= <-]].
  destruct (ToObject (Att.Type_ rh)); [|done]. by intros [= <-].
Qed.

(** X2.  Merging two definitions one after the other is merging their
    merge: the receiver comes first, then the first definition, then the
    second. *)
Theorem Merge_in_sequence (r a b : ResponseDefinition) :
  headers_are_object a →
  (r1 ←r Merge r (Some a) ;; Merge r1 (Some b))
  = (ab ←r Merge a (Some b) ;; Merge r (Some ab)).
Proof.
  intros Ha.
  assert (Hab : ∃ ab, Merge a (Some b) = Ok ab ∧
                      fields_of ab = pick_fields (fields_of a) (fields_of b) ∧
                      headers_of ab = merge_headers (headers_of a) (headers_of b)).
  { rewrite Merge_steps. unfold put_headers, headers_are_object in *.
    destruct a as [an as_ ad at_ am ah ast ag]; simpl in *.
    unfold headers_of at 3. simpl.
    case_decide as HB.
    - destruct ah as [ah|]; simpl.
      + destruct Ha as [oa Hoa]. rewrite Hoa. eexists. split; [done|].
        split; [done|]. unfold headers_of. simpl. by rewrite Hoa.
      + eexists. split; [done|]. split; [done|]. done.
    - eexists. split; [done|]. split; [done|].
      assert (headers_of b = ∅) as -> by (apply map_size_empty_iff; lia).
      by rewrite merge_headers_empty_r. }
  destruct Hab as (ab & -> & Hf & Hh). cbn [rbind].
  rewrite (Merge_steps r ab), Hf, Hh, <- pick_fields_assoc.
  set (f := pick_fields (fields_of r) (fields_of a)).
  set (g := pick_fields f (fields_of b)).
  replace (set_fields r g) with (set_fields (set_fields r f) g) by (by destruct r).
  rewrite <- put_headers_twice. rewrite Merge_steps. fold f.
  destruct (put_headers (set_fields r f) (headers_of a)) as [r1| |] eqn:E1;
    cbn [rbind]; try done.
  rewrite Merge_steps.
  by rewrite (put_headers_fields _ _ _ E1).
Qed.

Lemma Merge_in_sequence_witness :
  headers_are_object api_ok ∧
  (r1 ←r Merge resp_ok (Some api_ok) ;; Merge r1 (Some zero))
  = (ab ←r Merge api_ok (Some zero) ;; Merge resp_ok (Some ab)).
Proof.
  split; [exact I|].
  apply (Merge_in_sequence resp_ok api_ok zero). exact I.
Defined.

(** X3.  Merging a response into an empty one gives what [Dup] gives: the
    same four fields and the same headers, no type and no flag; and
    merging the copy of a response into the response changes nothing. *)
Theorem Merge_zero_is_Dup (r : ResponseDefinition) :
  (∃ r', Merge zero (Some r) = Ok r' ∧
         fields_of r' = fields_of (Dup r) ∧
         (∀ n, header r' n = header (Dup r) n) ∧
         Response.Type_ r' = Response.Type_ (Dup r) ∧
         Standard r' = Standard (Dup r) ∧ Global r' = Global (Dup r)) ∧
  Merge r (Some (Dup r)) = Ok r.
Proof.
  split.
  - rewrite Merge_steps. unfold put_headers, headers_of, Dup, zero, header.
    destruct r as [n s d t m h st g]; simpl.
    assert (Hp : pick_fields (mkFields "" 0 "" "") (mkFields n s d m) = mkFields n s d m)
      by done.
    case_decide as Hsz.
    + eexists. split; [done|]. repeat split. intros k. simpl.
      rewrite merge_headers_empty_l.
      destruct h as [h|]; simpl in *; [|by rewrite map_size_empty in Hsz; lia].
      unfold DupAtt. destruct (ToObject (Att.Type_ h)); simpl in *; [done|].
      rewrite map_size_empty in Hsz. lia.
    + eexists. split; [done|]. repeat split. intros k. simpl.
      destruct h as [h|]; simpl in *; [|done].
      unfold DupAtt. destruct (ToObject (Att.Type_ h)) as [o|]; simpl in *; [|done].
      assert (o = ∅) as -> by (apply map_size_empty_iff; lia).
      by rewrite lookup_empty.
  - rewrite Merge_steps. unfold put_headers, headers_of, Dup.
    destruct r as [n s d t m h st g]; simpl.
    assert (Hp : set_fields (mkResponse n s d t m h st g)
                   (pick_fields (mkFields n s d m) (mkFields n s d m))
                 = mkResponse n s d t m h st g).
    { unfold set_fields, pick_fields. simpl. repeat case_decide; congruence. }
    unfold fields_of. simpl. rewrite Hp. simpl.
    case_decide as Hsz; [|done].
    destruct h as [h|]; simpl in *; [|by rewrite map_size_empty in Hsz; lia].
    unfold DupAtt. destruct h as [[k|o] nz]; simpl in *.
    + rewrite map_size_empty in Hsz. lia.
    + rewrite merge_headers_self. by repeat case_decide.
Qed.

End MergeAlgebra.

(** ** Encoders and the packages that support them *)

Section EncodingFacts.
Import Encoding.

Lemma encoded_by_snoc p ms m :
  encoded_by p (ms ++ [m]) =
  encoded_by p ms ++ (if decide (package m = p) then [m] else []).
Proof.
  unfold encoded_by. rewrite filter_app. by f_equal.
Qed.

(** The loop adds every MIME type to the list of its package, after
    those that are there. *)
Lemma supporting_loop_spec ms : ∀ paths,
  supporting_loop ms paths =
  if forallb HasKnownEncoder ms then
    Some (foldl (fun acc m => <[package m := default [] (acc !! package m) ++ [m]]> acc)
                paths ms)
  else None.
Proof.
  induction ms as [|m ms IH]; intros paths; cbn [supporting_loop forallb foldl]; [done|].
  destruct (HasKnownEncoder m); cbn [negb andb]; [|done].
  rewrite IH. by destruct (paths !! package m).
Qed.

Lemma lookup_grouped ms : ∀ (paths : gmap string (list string)) p,
  foldl (fun acc m => <[package m := default [] (acc !! package m) ++ [m]]> acc)
        paths ms !! p =
  match encoded_by p ms with
  | [] => paths !! p
  | l => Some (default [] (paths !! p) ++ l)
  end.
Proof.
  induction ms as [|m ms IH] using rev_ind; intros paths p; [done|].
  rewrite foldl_app, encoded_by_snoc. cbn [foldl].
  destruct (decide (package m = p)) as [<-|Hne].
  - rewrite lookup_insert_eq, IH.
    destruct (encoded_by (package m) ms) as [|x l] eqn:E; cbn [from_option id app];
      [by destruct (paths !! package m)|].
    f_equal. by rewrite <- !app_assoc.
  - rewrite lookup_insert_ne by done. rewrite IH, app_nil_r. done.
Qed.

(** X4.  [SupportingPackages]: with a package path, the one package
    supports all the MIME types; without, the result is nil exactly when
    there is no MIME type or one of them has no known encoder, and
    otherwise every package is mapped to the MIME types it encodes, in
    the order of the definition, and no other package is listed. *)
Theorem SupportingPackages_spec (enc : EncodingDefinition) :
  (PackagePath enc ≠ "" →
   SupportingPackages enc = Some {[ PackagePath enc := MIMETypes enc ]}) ∧
  (PackagePath enc = "" →
   (SupportingPackages enc = None ↔
    MIMETypes enc = [] ∨ ∃ m, m ∈ MIMETypes enc ∧ HasKnownEncoder m = false) ∧
   ∀ paths, SupportingPackages enc = Some paths →
     ∀ p, paths !! p =
          match encoded_by p (MIMETypes enc) with
          | [] => None
          | l => Some l
          end).
Proof.
  unfold SupportingPackages. split.
  - intros H. by rewrite bool_decide_eq_false_2.
  - intros H. rewrite bool_decide_eq_true_2 by done. cbn [negb].
    destruct (MIMETypes enc) as [|m0 rest]; [by split; [split; eauto|]|].
    assert (Hloop : (if negb (HasKnownEncoder m0) then None
                     else match rest with
                          | [] => Some ({[ package m0 := [m0] ]} : gmap string (list string))
                          | _ => supporting_loop rest {[ package m0 := [m0] ]}
                          end)
                    = if forallb HasKnownEncoder (m0 :: rest) then
                        Some (foldl (fun acc m =>
                                       <[package m := default [] (acc !! package m) ++ [m]]> acc)
                                    ∅ (m0 :: rest))
                      else None).
    { cbn [forallb foldl]. destruct (HasKnownEncoder m0); cbn [negb andb]; [|done].
      rewrite lookup_empty. cbn [from_option id app]. rewrite insert_empty.
      destruct rest; [done|]. by rewrite supporting_loop_spec. }
    rewrite Hloop. clear Hloop.
    destruct (forallb HasKnownEncoder (m0 :: rest)) eqn:Hall.
    + split.
      * split; [done|]. intros [?|(m & Hm & Hk)]; [done|].
        rewrite forallb_forall in Hall.
        apply list_elem_of_In in Hm. apply Hall in Hm. congruence.
      * intros paths Hp p. apply (f_equal (default ∅)) in Hp.
        cbn [from_option id] in Hp. subst paths.
        rewrite lookup_grouped, lookup_empty.
        by destruct (encoded_by p (m0 :: rest)).
    + split; [|done]. split; [|done]. intros _. right.
      apply not_true_iff_false in Hall. rewrite forallb_forall in Hall.
      destruct (existsb (fun m => negb (HasKnownEncoder m)) (m0 :: rest)) eqn:Hex.
      * apply existsb_exists in Hex as (m & Hm & Hk).
        exists m. split; [by apply list_elem_of_In|]. by apply negb_true_iff.
      * exfalso. apply Hall. intros m Hm.
        destruct (HasKnownEncoder m) eqn:Hk; [done|].
        assert (existsb (fun m => negb (HasKnownEncoder m)) (m0 :: rest) = true);
          [|congruence].
        apply existsb_exists. exists m. split; [exact Hm|]. rewrite Hk. reflexivity.
Qed.

Lemma SupportingPackages_spec_witness :
  (∃ paths,
     SupportingPackages
       (mkEncoding ["application/xml"; "application/json"; "text/xml"] "") = Some paths ∧
     paths !! "xml" = Some ["application/xml"; "text/xml"] ∧
     paths !! "gob" = None) ∧
  SupportingPackages (mkEncoding ["application/json"] "my/pkg")
  = Some {[ "my/pkg" := ["application/json"] ]}.
Proof.
  split.
  - destruct (SupportingPackages_spec
                (mkEncoding ["application/xml"; "application/json"; "text/xml"] ""))
      as [_ H1].
    destruct (H1 eq_refl) as [Hnil H2]. clear H1.
    destruct (SupportingPackages _) as [paths|].
    + exists paths. split; [reflexivity|].
      split; (etransitivity; [exact (H2 paths eq_refl _)|vm_compute; reflexivity]).
    + exfalso. destruct Hnil as [Hnil _].
      destruct (Hnil eq_refl) as [E|(m & Hm & Hk)]; [discriminate E|].
      revert Hk. cbn [MIMETypes] in Hm.
      repeat (apply elem_of_cons in Hm as [->|Hm]; [vm_compute; discriminate|]).
      by apply elem_of_nil in Hm.
  - apply (SupportingPackages_spec (mkEncoding ["application/json"] "my/pkg")).
    discriminate.
Defined.

(** The packages of a definition without package path are those of the
    known encoders of its MIME types. *)
Lemma encoded_by_elem p ms m : m ∈ encoded_by p ms ↔ m ∈ ms ∧ package m = p.
Proof. unfold encoded_by. rewrite list_elem_of_filter. tauto. Qed.

(** X5.  [APIVersionDefinition.Finalize] leaves a version with encoders
    and decoders: both lists are non-empty afterwards, a list that was
    declared is kept, running it again changes nothing, and every
    definition that it put there by default is valid: its supporting
    packages are not nil, each of them is a package of goa itself, and
    every MIME type of the definition is listed under one of them. *)
Theorem Finalize_gives_valid_defaults (v : codecs) :
  Consumes (Finalize v) ≠ [] ∧ Produces (Finalize v) ≠ [] ∧
  (Consumes v ≠ [] → Consumes (Finalize v) = Consumes v) ∧
  (Produces v ≠ [] → Produces (Finalize v) = Produces v) ∧
  Finalize (Finalize v) = Finalize v ∧
  ∀ enc, (Consumes v = [] ∧ enc ∈ Consumes (Finalize v)) ∨
         (Produces v = [] ∧ enc ∈ Produces (Finalize v)) →
    ∃ paths, SupportingPackages enc = Some paths ∧
      (∀ p l, paths !! p = Some l → IsGoaEncoder p = true) ∧
      ∀ m, m ∈ MIMETypes enc → ∃ p l, paths !! p = Some l ∧ m ∈ l.
Proof.
  assert (Hdef : ∀ enc, enc ∈ init →
    ∃ paths, SupportingPackages enc = Some paths ∧
      (∀ p l, paths !! p = Some l → IsGoaEncoder p = true) ∧
      ∀ m, m ∈ MIMETypes enc → ∃ p l, paths !! p = Some l ∧ m ∈ l).
  { intros enc ->%list_elem_of_singleton.
    set (types := (([] ++ JSONContentTypes) ++ XMLContentTypes) ++ GobContentTypes).
    assert (Hknown : ∀ m, m ∈ types →
              HasKnownEncoder m = true ∧ IsGoaEncoder (package m) = true).
    { intros m Hm. unfold types in Hm. cbn in Hm.
      repeat (apply elem_of_cons in Hm as [->|Hm]; [by vm_compute|]).
      by apply elem_of_nil in Hm. }
    destruct (SupportingPackages_spec (mkEncoding types "")) as [_ H].
    destruct (H eq_refl) as [Hnil Hpaths]. clear H.
    destruct (SupportingPackages (mkEncoding types "")) as [paths|].
    2:{ exfalso. destruct Hnil as [Hnil _].
        destruct (Hnil eq_refl) as [E|(m & Hm & Hk)]; [discriminate E|].
        apply Hknown in Hm as [Hm _]. congruence. }
    exists paths. split; [reflexivity|].
    specialize (Hpaths _ eq_refl). cbn [MIMETypes] in Hpaths |- *. split.
    - intros p l Hl. rewrite Hpaths in Hl.
      destruct (encoded_by p types) as [|m l'] eqn:E; [done|].
      assert (Hm : m ∈ encoded_by p types) by (rewrite E; left).
      apply encoded_by_elem in Hm as [Hm <-]. by apply Hknown.
    - intros m Hm. exists (package m).
      assert (Hin : m ∈ encoded_by (package m) types) by (by apply encoded_by_elem).
      rewrite Hpaths.
      destruct (encoded_by (package m) types) as [|m' l'].
      + by apply elem_of_nil in Hin.
      + eexists. split; [reflexivity|]. exact Hin. }
  unfold Finalize. cbn [Consumes Produces].
  split; [case_decide; [done|by destruct (Consumes v)]|].
  split; [case_decide; [done|by destruct (Produces v)]|].
  split; [intros H; case_decide; [by destruct (Consumes v)|done]|].
  split; [intros H; case_decide; [by destruct (Produces v)|done]|].
  split.
  - f_equal.
    + destruct (decide (length (Consumes v) = 0)); [done|]. by rewrite decide_False.
    + destruct (decide (length (Produces v) = 0)); [done|]. by rewrite decide_False.
  - intros enc [[E Hin]|[E Hin]]; rewrite E in Hin; cbn [length] in Hin;
      rewrite decide_True in Hin by done; by apply Hdef.
Qed.

Lemma Finalize_gives_valid_defaults_witness :
  Consumes (Finalize (mkCodecs [mkEncoding ["application/msgpack"] ""] []))
  = [mkEncoding ["application/msgpack"] ""] ∧
  ∃ paths, SupportingPackages (mkEncoding
             ["application/json"; "application/xml"; "text/xml";
              "application/gob"; "application/x-gob"] "") = Some paths ∧
    (∀ p l, paths !! p = Some l → IsGoaEncoder p = true) ∧
    ∀ m, m ∈ ["application/json"; "application/xml"; "text/xml";
              "application/gob"; "application/x-gob"] →
      ∃ p l, paths !! p = Some l ∧ m ∈ l.
Proof.
  destruct (Finalize_gives_valid_defaults
              (mkCodecs [mkEncoding ["application/msgpack"] ""] []))
    as (_ & _ & Hkeep & _ & _ & Hdef).
  split; [by apply Hkeep|].
  apply (Hdef (mkEncoding ["application/json"; "application/xml"; "text/xml";
                           "application/gob"; "application/x-gob"] "")).
  right. split; [reflexivity|]. left.
Defined.

End EncodingFacts.

(** ** Full paths are clean *)

Section CleanAgain.
Import Path PathSpec Cleaning.

Lemma resolve_app a : ∀ b kept,
  resolve (a ++ b) kept = resolve b (resolve a kept).
Proof.
  induction a as [|e a IH]; intros b kept; [done|].
  cbn [app resolve]. repeat case_decide; apply IH.
Qed.

Lemma rooted_cons es : rooted es = String "/" (join_slash es).
Proof. unfold rooted. by sapp. Qed.

Lemma elements_rooted es :
  Forall real es → resolve (elements (rooted es)) [] = es.
Proof.
  intros Hes. rewrite rooted_cons, elements_slash, resolve_empty.
  destruct es as [|e es]; [done|].
  rewrite elements_join; [by rewrite resolve_reals|done|].
  eapply Forall_impl; [exact Hes|apply real_solid].
Qed.

(** A cleaned path without slash at its end is clean. *)
Lemma cleaned_rooted es : Forall real es → cleaned (rooted es) = rooted es.
Proof.
  intros Hes. pose proof (cleaned_output true 0 es Hes) as H.
  cbn [output] in H. rewrite rooted_cons in H. cbv iota in H.
  by rewrite <- rooted_cons in H.
Qed.

(** A cleaned path with the slash that was kept at its end is clean. *)
Lemma cleaned_rooted_slash es :
  Forall real es → es ≠ [] → cleaned (rooted es +:+ "/") = rooted es +:+ "/".
Proof.
  intros Hes Hne.
  assert (Hs : Forall solid es) by (eapply Forall_impl; [exact Hes|apply real_solid]).
  assert (E : elements (rooted es +:+ "/") = "" :: es ++ [""]).
  { rewrite rooted_cons. sapp. rewrite elements_slash.
    change "/" with (String "/" ""). rewrite elements_app.
    rewrite elements_join; [reflexivity|exact Hne|exact Hs]. }
  unfold cleaned, keeps_slash. rewrite E, resolve_empty, resolve_app.
  rewrite (resolve_reals es []) by done. cbn [app]. rewrite resolve_empty.
  rewrite (bool_decide_eq_false_2 (es = [])) by done.
  assert (Hlast : last ("" :: es ++ [""]) = Some "").
  { rewrite (last_cons_not_nil _ (es ++ [""])) by (by destruct es).
    apply last_snoc. }
  rewrite Hlast. rewrite (bool_decide_eq_true_2 (Some "" = Some "")) by done.
  assert (Hlen : 2 < String.length (rooted es +:+ "/")).
  { rewrite length_app_s. pose proof (length_rooted es Hes Hne).
    change (String.length "/") with 1. lia. }
  apply Nat.ltb_lt in Hlen. by rewrite Hlen.
Qed.

Lemma cleaned_idempotent p : cleaned (cleaned p) = cleaned p.
Proof.
  unfold cleaned at 2 3. pose proof (resolved_real p) as Hreal.
  destruct (keeps_slash p && negb (bool_decide (resolve (elements p) [] = []))) eqn:E.
  - apply andb_true_iff in E as [_ E]. apply negb_true_iff, bool_decide_eq_false in E.
    by apply cleaned_rooted_slash.
  - rewrite app_nil_r_s. by apply cleaned_rooted.
Qed.

(** The elements of what [path.Clean] returns resolve to the elements
    that it kept. *)
Lemma resolve_output r k kept :
  Forall real kept →
  resolve (elements (match output r k kept with "" => "." | _ => output r k kept end)) []
  = kept.
Proof.
  intros Hkept. destruct r; cbn [output].
  - rewrite rooted_cons. cbv iota. rewrite <- rooted_cons. by apply elements_rooted.
  - pose proof (solid_output k kept Hkept) as Hs.
    assert (Hres : resolve (repeat ".." k ++ kept) [] = kept).
    { by rewrite resolve_dotdots, resolve_reals. }
    destruct (repeat ".." k ++ kept) as [|x l] eqn:El.
    { cbn [join_slash]. cbn [resolve] in Hres. by subst kept. }
    pose proof (join_slash_not_nil x l) as Hn.
    pose proof Hs as Hs'. inversion_clear Hs' as [|? ? [Hx _] _]. specialize (Hn Hx).
    destruct (join_slash (x :: l)) as [|c s] eqn:Ej; [done|]. rewrite <- Ej.
    by rewrite elements_join.
Qed.

(** What [path.Clean] returns has the resolved elements of its
    argument. *)
Lemma resolve_Clean x :
  x ≠ "" → resolve (elements (Clean x)) [] = resolve (elements x) [].
Proof.
  intros Hx. destruct x as [|c x1]; [done|].
  unfold Clean. set (x := String c x1). set (r := is_slash c).
  assert (Hst : (if r then mkState "/" 1 else mkState "" 0)
                = mkState (output r 0 []) (stop_at r 0)) by (by destruct r).
  rewrite Hst.
  destruct (Clean_loop_resolves (String.length x) (if r then Strings.drop 1 x else x)
              r 0 []) as [k' Hk']; [|done|].
  { destruct r; [|done]. rewrite length_drop_s. lia. }
  rewrite Hk'. cbn [out].
  assert (E : resolve (elements (if r then Strings.drop 1 x else x)) []
              = resolve (elements x) []).
  { unfold r, x. destruct (is_slash c) eqn:Hc; [|done].
    by apply is_slash_true in Hc as ->. }
  rewrite E. apply resolve_output, resolved_real.
Qed.

(** Joining one path alone before a clean join changes nothing. *)
Lemma clean_join_Join x b : clean_join (Join [x]) b = clean_join x b.
Proof.
  unfold clean_join. cbn [Join]. destruct (decide (x = "")) as [->|Hx]; [done|].
  cbn [join_slash]. rewrite !(resolve_app _ (elements b)).
  by rewrite resolve_Clean.
Qed.

Lemma clean_join_real a b : Forall real (resolve (elements a ++ elements b) []).
Proof.
  apply resolve_keeps_real; [|done]. apply Forall_app. split; apply elements_no_slash.
Qed.

End CleanAgain.

Section FullPathExtras.
Import Route Action Resource API Design PathSpec Examples.

(** X6.  A full path is clean: the full path of a resource is a slash
    followed by elements that are neither empty, nor [.], nor [..],
    with one slash between them and none at the end; and cleaning the
    full path of a resource or of a route once more returns it
    unchanged. *)
Theorem FullPath_is_clean (fuel : nat) (D : APIDefinition)
    (version : option Version.APIVersionDefinition) :
  (∀ r full, ResourceDefinition_FullPath fuel D version r = Ok full →
     (∃ es, Forall real es ∧ full = rooted es) ∧
     Httprouter.CleanPath full = full) ∧
  (∀ owner rt full, RouteDefinition_FullPath fuel D version owner rt = Ok full →
     Httprouter.CleanPath full = full).
Proof.
  split.
  - intros r full H. destruct fuel as [|fuel]; [done|].
    cbn [ResourceDefinition_FullPath] in H.
    apply rbind_Ok in H as (base & _ & H). rewrite CleanPath_Join in H.
    injection H as <-. unfold clean_join.
    pose proof (clean_join_real base (Resource.BasePath r)) as Hreal.
    split; [by eexists|].
    rewrite CleanPath_cleaned. by apply cleaned_rooted.
  - intros owner rt full H. unfold RouteDefinition_FullPath, route_full_path in H.
    destruct (IsAbsolute rt).
    + rewrite CleanPath_cleaned in H. injection H as <-.
      rewrite CleanPath_cleaned. apply cleaned_idempotent.
    + apply rbind_Ok in H as (base & _ & H). rewrite CleanPath_Join in H.
      injection H as <-. rewrite CleanPath_cleaned.
      apply cleaned_rooted, clean_join_real.
Qed.

Lemma FullPath_is_clean_witness :
  ResourceDefinition_FullPath 2 nested (Some (Default nested)) child
    = Ok "/parents/:parentID/children" ∧
  Httprouter.CleanPath "/parents/:parentID/children" = "/parents/:parentID/children" ∧
  RouteDefinition_FullPath 0 nested None (Some child) (mkRoute "GET" "//a/b/./c/")
    = Ok "/a/b/c/" ∧
  Httprouter.CleanPath "/a/b/c/" = "/a/b/c/".
Proof.
  destruct (FullPath_is_clean 2 nested (Some (Default nested))) as [Hres _].
  destruct (FullPath_is_clean 0 nested None) as [_ Hroute].
  assert (E1 : ResourceDefinition_FullPath 2 nested (Some (Default nested)) child
               = Ok "/parents/:parentID/children") by (vm_compute; reflexivity).
  assert (E2 : RouteDefinition_FullPath 0 nested None (Some child)
                 (mkRoute "GET" "//a/b/./c/") = Ok "/a/b/c/") by (vm_compute; reflexivity).
  split; [exact E1|]. split; [exact (proj2 (Hres _ _ E1))|].
  split; [exact E2|]. exact (Hroute _ _ _ E2).
Defined.

(** X7.  The URI template of a resource is the empty string exactly when
    the resource has no canonical action or one without route; with a
    route, it is never empty. *)
Theorem URITemplate_empty (fuel : nat) (D : APIDefinition)
    (version : option Version.APIVersionDefinition) (r : ResourceDefinition) :
  URITemplate fuel D version r = Ok "" ↔
  CanonicalAction r = None ∨ ∃ ca, CanonicalAction r = Some ca ∧ Routes ca = [].
Proof.
  unfold URITemplate. destruct (CanonicalAction r) as [ca|]; [|by split; [left|]].
  destruct (Routes ca) as [|route0 rest] eqn:Hroutes.
  { split; [|done]. intros _. right. by exists ca. }
  split.
  - intros H. exfalso. unfold RouteDefinition_FullPath, route_full_path in H.
    destruct (IsAbsolute route0).
    + injection H as H. by apply CleanPath_nonempty in H.
    + apply rbind_Ok in H as (base & _ & H). injection H as H.
      by apply CleanPath_nonempty in H.
  - intros [?|(ca' & [= <-] & Hr)]; [done|]. congruence.
Qed.

(** X8.  A resource that is its own parent, with a canonical action
    whose first route is relative, has no full path: the computation
    goes from the resource to its parent without end, whatever the
    number of steps it is given. *)
Theorem ResourceDefinition_FullPath_cycle (D : APIDefinition)
    (version : option Version.APIVersionDefinition) (r : ResourceDefinition)
    (ca : ActionDefinition) (route0 : RouteDefinition) (rest : list RouteDefinition) :
  Parent D r = Some r → CanonicalAction r = Some ca →
  Routes ca = route0 :: rest → IsAbsolute route0 = false →
  ∀ fuel, ResourceDefinition_FullPath fuel D version r = OutOfFuel.
Proof.
  intros Hp Hca Hroutes Habs fuel. induction fuel as [|fuel IH]; [done|].
  cbn [ResourceDefinition_FullPath]. rewrite Hp, Hca, Hroutes.
  unfold route_full_path. rewrite Habs, IH. done.
Qed.

Lemma ResourceDefinition_FullPath_cycle_witness :
  Parent PathExamples.looping_api PathExamples.looping = Some PathExamples.looping ∧
  ResourceDefinition_FullPath 1000 PathExamples.looping_api
    (Some (Default PathExamples.looping_api)) PathExamples.looping = OutOfFuel.
Proof.
  split; [vm_compute; reflexivity|].
  apply (ResourceDefinition_FullPath_cycle PathExamples.looping_api
           (Some (Default PathExamples.looping_api)) PathExamples.looping
           (mkAction "show" [mkRoute "GET" "/:id"] ∅ None None)
           (mkRoute "GET" "/:id") []); vm_compute; reflexivity.
Defined.

(** X9.  The full path of a resource is the clean join of its base and
    of its base path, where the base is the base path of the version
    for a resource without parent, the full path of the first route of
    the canonical action of the parent when there is one, and empty
    otherwise: joining that full path alone first changes nothing, and
    without parent a nil version is dereferenced. *)
Theorem ResourceDefinition_FullPath_composes (fuel : nat) (D : APIDefinition)
    (version : option Version.APIVersionDefinition) (r : ResourceDefinition) :
  ResourceDefinition_FullPath (S fuel) D version r =
  (base ←r match Parent D r with
           | Some p =>
             match CanonicalAction p with
             | Some ca =>
               match Routes ca with
               | route0 :: _ => RouteDefinition_FullPath fuel D version (Some p) route0
               | [] => Ok ""
               end
             | None => Ok ""
             end
           | None =>
             match version with
             | Some v => Ok (Version.BasePath v)
             | None => Panic
             end
           end ;;
   Ok (clean_join base (Resource.BasePath r))).
Proof.
  cbn [ResourceDefinition_FullPath]. unfold RouteDefinition_FullPath.
  destruct (Parent D r) as [p|].
  - destruct (CanonicalAction p) as [ca|]; [|cbn [rbind]; by rewrite CleanPath_Join].
    destruct (Routes ca) as [|route0 rest]; [cbn [rbind]; by rewrite CleanPath_Join|].
    destruct (route_full_path _ _ route0) as [full| |]; cbn [rbind]; [|done..].
    by rewrite CleanPath_Join, clean_join_Join.
  - destruct version as [v|]; [|done]. cbn [rbind]. by rewrite CleanPath_Join.
Qed.

End FullPathExtras.

(** ** Merged response maps are shared *)

Section MergeResponsesFacts.
Import Genapp.
Context {V : Type}.
Implicit Types (h : store V) (m : gmap string V).

Lemma foldl_insert_union (order : list (string * V)) : ∀ m,
  NoDup order.*1 →
  foldl (fun m' nv => <[nv.1 := nv.2]> m') m order = list_to_map order ∪ m.
Proof.
  induction order as [|[k v] order IH]; intros m Hnd.
  - cbn [foldl list_to_map foldr]. by rewrite (left_id_L ∅ (∪)).
  - rewrite fmap_cons in Hnd. apply NoDup_cons in Hnd as [Hk Hnd].
    cbn [foldl fst snd]. rewrite IH by done. rewrite list_to_map_cons.
    rewrite <- insert_union_l. symmetry. apply insert_union_r.
    by apply not_elem_of_list_to_map_1.
Qed.

Lemma merge_loop_entries l (order : list (string * V)) : ∀ h,
  merge_loop l order h !! l
  = (if decide (order = []) then h !! l
     else Some (foldl (fun m' nv => <[nv.1 := nv.2]> m') (entries h l) order)) ∧
  ∀ q, q ≠ l → merge_loop l order h !! q = h !! q.
Proof.
  unfold merge_loop. induction order as [|nv order IH]; intros h.
  { split; [by rewrite decide_True|done]. }
  cbn [foldl]. destruct (IH (<[l := <[nv.1 := nv.2]> (entries h l)]> h)) as [IH1 IH2].
  split.
  - rewrite IH1. rewrite (decide_False (P := nv :: order = [])) by done.
    assert (E : entries (<[l := <[nv.1 := nv.2]> (entries h l)]> h) l
                = <[nv.1 := nv.2]> (entries h l)).
    { unfold entries. by rewrite lookup_insert_eq. }
    rewrite E. destruct (decide (order = [])) as [->|]; [|done].
    by rewrite lookup_insert_eq.
  - intros q Hq. rewrite IH2 by done. by rewrite lookup_insert_ne.
Qed.


(** X10.  [MergeResponses] changes its first argument in place: with a
    nil first map the second is returned, with a nil second map the
    first, and the store is left as it is; otherwise the map returned is
    the first map itself, which from then on holds the entries of the
    second map over its own, whatever the order in which [range] yields
    them, and no other map of the store changes. *)
Theorem MergeResponses_shares (h : store V) (order : list (string * V))
    (pl pr : loc) (ml mr : gmap string V) :
  (∀ r, MergeResponses_in order h None r = (h, r)) ∧
  MergeResponses_in order h (Some pl) None = (h, Some pl) ∧
  (h !! pl = Some ml → h !! pr = Some mr → order ≡ₚ map_to_list mr →
   ∃ h', MergeResponses_in order h (Some pl) (Some pr) = (h', Some pl) ∧
         h' !! pl = Some (mr ∪ ml) ∧
         (∀ q, q ≠ pl → h' !! q = h !! q) ∧
         MergeResponses h (Some pl) (Some pr) = (h', Some pl)).
Proof.
  split; [done|]. split; [done|]. intros Hl Hr Hperm.
  assert (Hnd : NoDup order.*1).
  { rewrite Hperm. apply NoDup_fst_map_to_list. }
  assert (Hcontent : ∀ order', order' ≡ₚ map_to_list mr →
            merge_loop pl order' h !! pl = Some (mr ∪ ml)).
  { intros order' Hp. destruct (merge_loop_entries pl order' h) as [H1 _].
    rewrite H1. unfold entries. rewrite Hl. cbn [from_option id].
    assert (Hnd' : NoDup order'.*1) by (rewrite Hp; apply NoDup_fst_map_to_list).
    rewrite foldl_insert_union by done.
    assert (E : (list_to_map order' : gmap string V) = mr).
    { rewrite (list_to_map_proper order' (map_to_list mr)) by done.
      apply list_to_map_to_list. }
    rewrite E. destruct (decide (order' = [])) as [->|]; [|done].
    assert (mr = ∅) as -> by (by rewrite <- E).
    by rewrite (left_id_L ∅ (∪)). }
  exists (merge_loop pl order h). split; [done|].
  split; [by apply Hcontent|]. split; [apply merge_loop_entries|].
  unfold MergeResponses, MergeResponses_in, entries. rewrite Hr. cbn [from_option id].
  f_equal. apply map_eq. intros q. destruct (decide (q = pl)) as [->|Hq].
  - by rewrite !Hcontent.
  - by rewrite !(proj2 (merge_loop_entries pl _ h) q Hq).
Qed.





End MergeResponsesFacts.

Lemma MergeResponses_shares_witness :
  ∃ h', Genapp.MergeResponses
          ({[ 1%positive := {[ "OK" := 200%Z ]};
              2%positive := {[ "OK" := 201%Z; "NotFound" := 404%Z ]} ]}
             : gmap positive (gmap string Z))
          (Some 1%positive) (Some 2%positive) = (h', Some 1%positive) ∧
        h' !! 1%positive
        = Some (({[ "OK" := 201%Z; "NotFound" := 404%Z ]} : gmap string Z)
                ∪ {[ "OK" := 200%Z ]}).
Proof.
  destruct (MergeResponses_shares
              ({[ 1%positive := {[ "OK" := 200%Z ]};
                  2%positive := {[ "OK" := 201%Z; "NotFound" := 404%Z ]} ]}
                 : gmap positive (gmap string Z))
              (map_to_list ({[ "OK" := 201%Z; "NotFound" := 404%Z ]} : gmap string Z))
              1%positive 2%positive
              {[ "OK" := 200%Z ]} {[ "OK" := 201%Z; "NotFound" := 404%Z ]})
    as (_ & _ & H).
  destruct H as (h' & _ & Hl & _ & Hm); [reflexivity|reflexivity|reflexivity|].
  exists h'. split; [exact Hm|exact Hl].
Defined.

